(** * pydub.audio_buffer: the mutable sample buffer

    A shallow embedding of [src/pydub/audio_buffer.py] (class [AudioBuffer])
    and the properties of its fades, overlays and conversions.

    Conventions of the embedding.

    - Python numbers are [num]: an [int] is a [Z], a [float] is a rational
      [Q].  The float operations whose result is turned into an integer (the
      conversions between milliseconds and frames, the length in
      milliseconds, the bounds of a fade) round to the nearest double, ties
      to even, as the code's do: [fl] is that rounding.  Sample values and
      gains are exact rationals: rounding there changes the last digits of a
      sample and nothing else.  Infinities and NaN are outside the model, and
      so is a float beyond the range of the doubles.
    - A power [10 ** x] is exact where it is rational (integral [x]) and is
      otherwise the value of an unspecified function, a parameter of the
      development.  Python's own [**] raises [OverflowError] when the power
      leaves the range of the doubles; numpy's does not raise.
    - A numpy 2-D array is its column count and its list of rows; slicing
      follows Python's index normalisation (negative indices count from the
      end), in-place operators follow numpy's broadcasting rule and raise
      [ValueError] when the right-hand side cannot be broadcast to the view.
    - Buffers are objects: the store maps addresses to buffer states, every
      method is a computation over the store that either returns a value or
      raises, and the store at the time of a raise is kept.
    - [frame_rate], [channels] and [sample_width] are Python ints. *)

From Stdlib Require Import ZArith QArith Qround Qabs Qfield Qpower List Lia Lqa.
From stdpp Require Import base option list gmap.

Local Open Scope Z_scope.

(** ** Exceptions and the two monads *)

Inductive exn :=
  | TypeError
  | ValueError
  | ZeroDivisionError
  | OverflowError
  | Dangling (* not a Python exception: an address the store does not hold *).

Inductive outcome (A : Type) : Type :=
  | Ok (a : A)
  | Raise (e : exn).
Arguments Ok {A} a.
Arguments Raise {A} e.

#[global] Instance outcome_ret : MRet outcome := fun A a => Ok a.
#[global] Instance outcome_bind : MBind outcome :=
  fun A B f m => match m with Ok a => f a | Raise e => Raise e end.

(** ** Python numbers *)

Inductive num :=
  | Int (z : Z)
  | Float (q : Q).

Inductive pyval :=
  | PNone
  | PNum (x : num).

(** The float a number denotes ([float(x)]). *)
Definition value (x : num) : Q :=
  match x with Int z => inject_Z z | Float q => q end.

(** [round(x)] of a float: the nearest integer, ties to the even one. *)
Definition py_round (q : Q) : Z :=
  let f := Qfloor q in
  let r := (2 * (Qnum q mod Zpos (Qden q))) ?= Zpos (Qden q) in
  match r with
  | Lt => f
  | Gt => f + 1
  | Eq => if Z.even f then f else f + 1
  end.

(** ** Doubles *)

(** [floor (log2 |q|)] of a number that is not zero. *)
Definition Qlog2 (q : Q) : Z :=
  let k := Z.log2 (Z.abs (Qnum q)) - Z.log2 (Zpos (Qden q)) in
  if Qle_bool (2 ^ k) (Qabs q) then k else k - 1.

(** The exponent of the last place of the doubles around [q]: 53
    significant bits, and an even spacing of [2^-1074] below [2^-1022]. *)
Definition ulp_exp (q : Q) : Z := Z.max (Qlog2 q - 52) (-1074).

(** The double nearest to [q], ties to the even one: what an IEEE operation
    returns for the exact result [q]. *)
Definition fl (q : Q) : Q :=
  if Qnum q =? 0 then 0%Q
  else Qred (inject_Z (py_round (q * 2 ^ (- ulp_exp q))) * 2 ^ ulp_exp q).

(** Whether [10 ** x] is too large for a double: a real of
    [2^1024 - 2^970] or more rounds to infinity, and for [x = p / q] the
    power reaches that bound when [10^p] reaches its [q]-th power.  The two
    first tests only spare the computation of large powers. *)
Definition double_overflow : Z := 2 ^ 1024 - 2 ^ 970.

Definition pow10_overflows (x : Q) : bool :=
  if Qle_bool 309 x then true
  else if Qle_bool x 308 then false
  else double_overflow ^ Zpos (Qden x) <=? 10 ^ Qnum x.

(** ** Arithmetic *)

(** [not v]: [None], [0] and [0.0] are falsy. *)
Definition num_is_zero (x : num) : bool :=
  match x with Int z => z =? 0 | Float q => Qeq_bool q 0 end.

Definition py_not (v : pyval) : bool :=
  match v with PNone => true | PNum x => num_is_zero x end.

(** [a - b] and [a + b]: int with int stays an int and is exact; a float
    operand makes the result a float, the operands converted to doubles and
    the result rounded; [None] is not a number. *)
Definition num_sub (a b : num) : num :=
  match a, b with
  | Int x, Int y => Int (x - y)
  | _, _ => Float (fl (fl (value a) - fl (value b)))
  end.

Definition num_add (a b : num) : num :=
  match a, b with
  | Int x, Int y => Int (x + y)
  | _, _ => Float (fl (fl (value a) + fl (value b)))
  end.

Definition py_sub (a b : pyval) : outcome pyval :=
  match a, b with
  | PNum x, PNum y => Ok (PNum (num_sub x y))
  | _, _ => Raise TypeError
  end.

Definition py_add (a b : pyval) : outcome pyval :=
  match a, b with
  | PNum x, PNum y => Ok (PNum (num_add x y))
  | _, _ => Raise TypeError
  end.

(** [a / b], true division: always a float.  The quotient is given as it
    is; [__len__], which rounds what it makes of it to an integer, rounds it
    to a double first. *)
Definition py_truediv (a b : pyval) : outcome Q :=
  match a, b with
  | PNum x, PNum y =>
      if num_is_zero y then Raise ZeroDivisionError
      else Ok (value x / value y)%Q
  | _, _ => Raise TypeError
  end.

(** [a < b] between numbers compares their exact values. *)
Definition Qltb (p q : Q) : bool :=
  Qnum p * Zpos (Qden q) <? Qnum q * Zpos (Qden p).

Definition num_lt (a b : num) : bool := Qltb (value a) (value b).

(** [min(a, b)] returns [b] only when [b < a]. *)
Definition py_min (a b : num) : num := if num_lt b a then b else a.

(** [int(x)]: truncation toward zero. *)
Definition Qtrunc (q : Q) : Z := Z.quot (Qnum q) (Zpos (Qden q)).

Definition py_int (x : num) : Z :=
  match x with Int z => z | Float q => Qtrunc q end.

(** [len(obj)]: the builtin checks what [__len__] returned. *)
Definition maxsize : Z := 2 ^ 63 - 1.

Definition py_len (l : Z) : outcome Z :=
  if l <? 0 then Raise ValueError
  else if maxsize <? l then Raise OverflowError
  else Ok l.

(** ** numpy arrays *)

Record ndarray := { ncols : nat; rows : list (list Q) }.

Definition wf_array (a : ndarray) : Prop :=
  Forall (fun r => length r = ncols a) (rows a).

(** [a[i, c]] *)
Definition cell (a : ndarray) (i c : nat) : Q := nth c (nth i (rows a) []) 0%Q.

(** A slice bound [i] of a sequence of length [n], as [slice.indices]
    resolves it. *)
Definition slice_index (n i : Z) : Z :=
  if i <? 0 then Z.max (i + n) 0 else Z.min i n.

(** [l[start:stop]] *)
Definition py_slice {A} (l : list A) (start stop : Z) : list A :=
  let n := Z.of_nat (length l) in
  let i := Z.to_nat (slice_index n start) in
  let j := Z.to_nat (slice_index n stop) in
  take (j - i)%nat (drop i l).

(** [a[start:stop]] of a 2-D array: a range of rows. *)
Definition np_slice (a : ndarray) (start stop : Z) : ndarray :=
  {| ncols := ncols a; rows := py_slice (rows a) start stop |}.

(** Broadcasting [b] to the shape [(r, c)] of the left-hand side of an
    in-place operator: each dimension of [b] equals the target's or is 1. *)
Definition broadcast_to (r c : nat) (b : ndarray) : outcome (list (list Q)) :=
  if negb ((ncols b =? c)%nat || (ncols b =? 1)%nat) then Raise ValueError
  else
    let wide :=
      if (ncols b =? c)%nat then rows b
      else map (fun row => replicate c (hd 0%Q row)) (rows b) in
    if (length wide =? r)%nat then Ok wide
    else if (length wide =? 1)%nat then Ok (replicate r (hd [] wide))
    else Raise ValueError.

(** [a[start:stop] op= b] for a 2-D [b]: the rows of the slice are combined
    element-wise with [b] and written back; the other rows stay. *)
Definition inplace_slice (op : Q -> Q -> Q) (a : ndarray) (start stop : Z)
    (b : ndarray) : outcome ndarray :=
  let n := Z.of_nat (length (rows a)) in
  let i := Z.to_nat (slice_index n start) in
  let view := py_slice (rows a) start stop in
  rhs ← broadcast_to (length view) (ncols a) b;
  Ok {| ncols := ncols a;
        rows := take i (rows a) ++ zip_with (zip_with op) view rhs
                ++ drop (i + length view) (rows a) |}.

(** [a[start:stop] *= x] for a scalar [x]. *)
Definition imul_slice_scalar (a : ndarray) (start stop : Z) (x : Q) : ndarray :=
  let n := Z.of_nat (length (rows a)) in
  let i := Z.to_nat (slice_index n start) in
  let view := py_slice (rows a) start stop in
  {| ncols := ncols a;
     rows := take i (rows a) ++ map (map (fun s => s * x)%Q) view
             ++ drop (i + length view) (rows a) |}.

(** [v.repeat(c)] of a 1-D array: every element [c] times in a row. *)
Definition np_repeat (v : list Q) (c : Z) : outcome (list Q) :=
  if c <? 0 then Raise ValueError
  else Ok (concat (map (replicate (Z.to_nat c)) v)).

(** [v.reshape(-1, c)] of a 1-D array. *)
Definition chunks {A} (c : nat) (v : list A) : list (list A) :=
  map (fun k => take c (drop (k * c) v)) (seq 0 (length v / c)).

Definition np_reshape (v : list Q) (c : Z) : outcome ndarray :=
  if c <=? 0 then Raise ValueError
  else if negb (Z.of_nat (length v) mod c =? 0) then Raise ValueError
  else Ok {| ncols := Z.to_nat c; rows := chunks (Z.to_nat c) v |}.

(** [np.linspace(start, stop, num)]: [num] evenly spaced points, the last
    one set to [stop]. *)
Definition np_linspace (start stop : Q) (num : Z) : list Q :=
  let div := num - 1 in
  let delta := (stop - start)%Q in
  let step := (delta / inject_Z div)%Q in
  map (fun k =>
         if (1 <? num) && (Z.of_nat k =? num - 1) then stop
         else if 0 <? div then (inject_Z (Z.of_nat k) * step + start)%Q
         else (inject_Z (Z.of_nat k) * delta + start)%Q)
      (seq 0 (Z.to_nat num)).

(** [x.astype(np.int16)] of a float: truncation toward zero.  For a value
    outside the 16-bit range C leaves the conversion undefined; what is
    written here is what numpy gives on x86-64, where the value goes through
    a 32-bit integer: the low 16 bits of the truncation when it fits 32
    bits, and zero beyond. *)
Definition astype_int16 (q : Q) : Z :=
  let t := Qtrunc q in
  if (- 2 ^ 31 <=? t) && (t <? 2 ^ 31) then (t + 32768) mod 65536 - 32768
  else 0.

(** ** The immutable segment (external collaborator) *)

(** Modelled from the spec: [AudioSegment] lives in [pydub/audio_segment.py],
    which is not part of the sources at hand.  Section 6 of the specification
    gives what the buffer needs of it: the three format fields, the flat
    integer sample sequence and a constructor from these. *)
Record AudioSegment := {
  seg_sample_width : Z;
  seg_frame_rate : Z;
  seg_channels : Z;
  seg_samples : list Z
}.

(** What [np.array] is given: integers of some item size (in bytes) or
    floats. *)
Inductive np_input :=
  | IntArray (itemsize : Z) (v : list Z)
  | FloatArray (v : list Q).

(** Modelled from the spec: [get_array_of_samples] returns the segment's raw
    sample data as a flat integer sequence; its items are [sample_width]
    bytes wide. *)
Definition get_array_of_samples (seg : AudioSegment) : np_input :=
  IntArray (seg_sample_width seg) (seg_samples seg).

(** ** Buffers and the object store *)

Record AudioBuffer := {
  sample_width : Z;
  frame_rate : Z;
  channels : Z;
  _data : ndarray
}.

Definition with_data (b : AudioBuffer) (d : ndarray) : AudioBuffer :=
  {| sample_width := sample_width b; frame_rate := frame_rate b;
     channels := channels b; _data := d |}.

(** What a constructed buffer satisfies: [reshape(-1, channels)] accepted
    [channels] and made every row that wide. *)
Definition wf_buffer (b : AudioBuffer) : Prop :=
  wf_array (_data b) /\ Z.of_nat (ncols (_data b)) = channels b
  /\ 0 < channels b.

Definition addr := nat.
Abbreviation store := (gmap addr AudioBuffer).

Definition M (A : Type) : Type := store -> outcome A * store.

#[global] Instance M_ret : MRet M := fun A a σ => (Ok a, σ).
#[global] Instance M_bind : MBind M :=
  fun A B f m σ =>
    match m σ with
    | (Ok a, σ') => f a σ'
    | (Raise e, σ') => (Raise e, σ')
    end.

Definition lift {A} (o : outcome A) : M A := fun σ => (o, σ).

(** Reading the object at an address. *)
Definition deref (a : addr) : M AudioBuffer :=
  fun σ => match σ !! a with
           | Some b => (Ok b, σ)
           | None => (Raise Dangling, σ)
           end.

(** Writing the sample array of the object at an address, in place. *)
Definition set_data (a : addr) (d : ndarray) : M unit :=
  fun σ => match σ !! a with
           | Some b => (Ok tt, <[a := with_data b d]> σ)
           | None => (Raise Dangling, σ)
           end.

(** ** The class *)

Inductive init_args :=
  | FromSegment (seg : AudioSegment)
  | FromData (data : np_input) (sample_width frame_rate channels : Z).

(** [AudioBuffer.__init__], lines 19-36, as the state of the new object.
    The embedding covers data of signed integers or of floats, the two kinds
    that pass the assertion of line 34 (unsigned or boolean data reach it and
    fail it), and format arguments that are ints (a [channels] left at its
    default [None] makes the reshape of line 33 raise [TypeError]).
    Integer samples are converted to doubles, which rounds those of more
    than 53 bits, and divided by the full scale of their item size, a power
    of two. *)
Definition AudioBuffer_init (args : init_args) : outcome AudioBuffer :=
  let '(sw, fr, ch, data) :=
    match args with
    | FromSegment seg =>
        (seg_sample_width seg, seg_frame_rate seg, seg_channels seg,
         get_array_of_samples seg)
    | FromData data sw fr ch => (sw, fr, ch, data)
    end in
  let data :=
    match data with
    | IntArray itemsize v =>
        map (fun z =>
               fl (inject_Z z) / inject_Z (Z.shiftl 1 (itemsize * 8 - 1)))%Q v
    | FloatArray v => v
    end in
  data ← np_reshape data ch;
  Ok {| sample_width := sw; frame_rate := fr; channels := ch; _data := data |}.

(** [AudioBuffer(...)]: a new object at a fresh address. *)
Definition AudioBuffer_new (args : init_args) : M addr :=
  fun σ => match AudioBuffer_init args with
           | Ok b => let a := fresh (dom σ) in (Ok a, <[a := b]> σ)
           | Raise e => (Raise e, σ)
           end.

(** [frame_count], lines 65-73.  With milliseconds the result is the
    float [ms * (frame_rate / 1000.0)]: the quotient is rounded to a double,
    and then the product. *)
Definition frame_count (self : AudioBuffer) (ms : pyval) : num :=
  match ms with
  | PNum x =>
      Float (fl (fl (value x) * fl (fl (inject_Z (frame_rate self)) / 1000)))
  | PNone => Int (Z.of_nat (length (rows (_data self))))
  end.

(** [__len__], lines 38-42: [round(1000 * (n / frame_rate))], the quotient
    of the two ints rounded to a double before the product, which is rounded
    in its turn. *)
Definition __len__ (self : addr) : M Z :=
  b ← deref self;
  r ← lift (py_truediv (PNum (frame_count b PNone)) (PNum (Int (frame_rate b))));
  mret (py_round (fl (1000 * fl r))).

(** [len(self)]: the builtin calls [__len__] and checks what it returned. *)
Definition builtin_len (self : addr) : M Z :=
  l ← __len__ self;
  lift (py_len l).

(** [segment], lines 44-63. *)
Definition segment (self : addr) : M AudioSegment :=
  b ← deref self;
  let flattened :=
    map astype_int16 (map (fun s => s * 32768)%Q (concat (rows (_data b)))) in
  mret {| seg_sample_width := sample_width b; seg_frame_rate := frame_rate b;
          seg_channels := channels b; seg_samples := flattened |}.

(** ** Sample data *)

(** The collaborators of the runs: a value for the powers that are not
    rational, and conversions that only relabel the segment. *)
Definition ex_pow10 (x : Q) : Q := 1.

Definition ex_set_channels (seg : AudioSegment) (c : Z) : AudioSegment :=
  {| seg_sample_width := seg_sample_width seg;
     seg_frame_rate := seg_frame_rate seg;
     seg_channels := c;
     seg_samples := seg_samples seg |}.

Definition ex_set_frame_rate (seg : AudioSegment) (r : Z) : AudioSegment :=
  {| seg_sample_width := seg_sample_width seg;
     seg_frame_rate := r;
     seg_channels := seg_channels seg;
     seg_samples := seg_samples seg |}.

(** A mono buffer of the given frames at 1000 frames per second, where one
    millisecond is one frame. *)
Definition mono (frames : list Q) : AudioBuffer :=
  {| sample_width := 2; frame_rate := 1000; channels := 1;
     _data := {| ncols := 1; rows := map (fun x => [x]) frames |} |}.

Definition ex_target : AudioBuffer := mono [1; 2; 3]%Q.
Definition ex_source : AudioBuffer := mono [10; 20; 30; 40; 50]%Q.
Definition ex_store : store := <[1%nat := ex_source]> {[0%nat := ex_target]}.

Definition ex_segment : AudioSegment :=
  {| seg_sample_width := 2; seg_frame_rate := 44100; seg_channels := 2;
     seg_samples := [1; -32768; 32767; 0] |}.

(** One second of silence at 44100 frames per second. *)
Definition ex_second : AudioBuffer :=
  {| sample_width := 2; frame_rate := 44100; channels := 1;
     _data := {| ncols := 1; rows := replicate (Z.to_nat 44100) [0%Q] |} |}.


(** 4012 frames of silence at 8000 frames per second: 501.5 milliseconds. *)
Definition ex_half_ms : AudioBuffer :=
  {| sample_width := 2; frame_rate := 8000; channels := 1;
     _data := {| ncols := 1; rows := replicate 4012 [0%Q] |} |}.

Section Collaborators.

(** What the class takes from outside: the powers of ten that are not
    rational, and the segment's channel and frame-rate conversions. *)
Variable pow10_irrational : Q -> Q.
Variable set_channels : AudioSegment -> Z -> AudioSegment.
Variable set_frame_rate : AudioSegment -> Z -> AudioSegment.

(** [10 ** x] *)
Definition py_pow10 (x : Q) : Q :=
  if Qnum x mod Zpos (Qden x) =? 0 then Qpower 10 (Qnum x / Zpos (Qden x))
  else pow10_irrational x.

(** Python's [10 ** x] (line 138): the power, or [OverflowError] when it
    leaves the range of the doubles.  [np.logspace] takes its powers with
    numpy, which does not raise. *)
Definition py_pow10_scalar (x : Q) : outcome Q :=
  if pow10_overflows x then Raise OverflowError else Ok (py_pow10 x).

(** [np.logspace(start, stop, num)]: ten to the points of [np.linspace]. *)
Definition np_logspace (start stop : Q) (num : Z) : list Q :=
  map py_pow10 (np_linspace start stop num).

(** Lines 80-83 of [fade]: filling in the blanks. *)
Definition fill_blanks (start end_ duration : pyval) : outcome (pyval * pyval) :=
  start ← (if py_not start then py_sub end_ duration else Ok start);
  end_ ← (if py_not end_ then py_add start duration else Ok end_);
  Ok (start, end_).

(** Lines 84 and 85 of [fade]: milliseconds to a frame index of the buffer. *)
Definition to_frame (self : AudioBuffer) (ms : pyval) : Z :=
  Z.max (py_int (py_min (frame_count self ms) (frame_count self PNone))) 0.

(** Lines 90-93 of [fade]. *)
Definition gain_profile (self : AudioBuffer) (to_gain from_gain : pyval)
    (duration : Z) : outcome ndarray :=
  lo ← py_truediv from_gain (PNum (Int 20));
  hi ← py_truediv to_gain (PNum (Int 20));
  g ← np_repeat (np_logspace lo hi duration) (channels self);
  np_reshape g (channels self).

(** Lines 86-94 of [fade]: the ramp over the frames [start, end_). *)
Definition apply_gain (self : addr) (b : AudioBuffer)
    (to_gain from_gain : pyval) (start end_ : Z) : M unit :=
  let duration := end_ - start in
  if 0 <? duration then
    g ← lift (gain_profile b to_gain from_gain duration);
    d ← lift (inplace_slice Qmult (_data b) start end_ g);
    set_data self d
  else mret tt.

(** [fade], lines 75-96. *)
Definition fade (self : addr) (to_gain from_gain start end_ duration : pyval)
    : M addr :=
  '(start, end_) ← lift (fill_blanks start end_ duration);
  b ← deref self;
  apply_gain self b to_gain from_gain (to_frame b start) (to_frame b end_);;
  mret self.

(** [fade_out], lines 98-99. *)
Definition fade_out (self : addr) (duration : pyval) : M addr :=
  l ← builtin_len self;
  fade self (PNum (Int (-120))) (PNum (Int 0)) PNone (PNum (Int (l + 1))) duration.

(** [fade_in], lines 101-102. *)
Definition fade_in (self : addr) (duration : pyval) : M addr :=
  fade self (PNum (Int 0)) (PNum (Int (-120))) (PNum (Int 0)) PNone duration.

(** The [seg] argument of [overlay]: a segment, or (a reference to) a buffer. *)
Inductive source :=
  | Segment (seg : AudioSegment)
  | Buffer (a : addr).

(** [buf] in [overlay]: the buffer just built from a segment, which nothing
    else refers to, or the caller's buffer object. *)
Definition read_buf (buf : AudioBuffer + addr) : M AudioBuffer :=
  match buf with
  | inl b => mret b
  | inr a => deref a
  end.

(** Lines 133-142 of [overlay]: mixing [buf] into the frames from
    [position] on.  When [buf] is the buffer itself the source slice of line
    140 overlaps the target; numpy then works on a copy of the source, read
    after the scaling of line 138. *)
Definition mix (self : addr) (b : AudioBuffer) (buf : AudioBuffer + addr)
    (position gain_during_overlay : pyval) : M addr :=
  src ← read_buf buf;
  let start := py_int (frame_count b position) in
  let end_ :=
    py_int (py_min (num_add (Int start) (frame_count src PNone))
                   (frame_count b PNone)) in
  (if start <? end_ then
     match gain_during_overlay with
     | PNum g =>
         if num_is_zero g then mret tt
         else
           f ← lift (py_pow10_scalar (value g / 20));
           set_data self (imul_slice_scalar (_data b) start end_ f)
     | PNone => mret tt
     end;;
     b ← deref self;
     src ← read_buf buf;
     d ← lift (inplace_slice Qplus (_data b) start end_
                 (np_slice (_data src) 0 (end_ - start)));
     set_data self d
   else mret tt);;
  mret self.

(** Lines 123-126 of [overlay]: a segment is given the channels and the
    frame rate of the buffer before it is converted. *)
Definition conform (b : AudioBuffer) (seg : AudioSegment) : AudioSegment :=
  let seg := if negb (seg_channels seg =? channels b)
             then set_channels seg (channels b) else seg in
  if negb (seg_frame_rate seg =? frame_rate b)
  then set_frame_rate seg (frame_rate b) else seg.

(** [overlay], lines 104-142. *)
Definition overlay (self : addr) (seg : source)
    (position gain_during_overlay : pyval) : M addr :=
  b ← deref self;
  buf ← match seg with
        | Segment seg =>
            nb ← lift (AudioBuffer_init (FromSegment (conform b seg)));
            mret (inl nb)
        | Buffer a => mret (inr a)
        end;
  mix self b buf position gain_during_overlay.

(** ** What the statements speak of *)


(** The duration as the specification words it:
    [round(1000 * frame_count() / frame_rate)]. *)
Definition spec_len_ms (frames rate : Z) : Z :=
  py_round (1000 * inject_Z frames / inject_Z rate).

(** The duration as line 42 computes it, in doubles. *)
Definition len_ms (frames rate : Z) : Z :=
  py_round (fl (1000 * fl (inject_Z frames / inject_Z rate))).



(** Whether the scaling of line 138 raises: the gain is truthy and its
    factor overflows. *)
Definition scaling_raises (gain : pyval) : bool :=
  match gain with
  | PNum g => negb (num_is_zero g) && pow10_overflows (value g / 20)
  | PNone => false
  end.

(** The factor of line 138: [10 ** (gain / 20)] for a truthy gain; a falsy
    gain leaves the samples as they are, which is a factor of one. *)
Definition gain_factor (gain : pyval) : Q :=
  match gain with
  | PNum g => if num_is_zero g then 1%Q else py_pow10 (value g / 20)
  | PNone => 1%Q
  end.

(** The target once line 138 has run without raising: scaled over the range
    when the gain is truthy, untouched otherwise. *)
Definition after_gain (b : AudioBuffer) (start end_ : Z) (gain : pyval)
    : AudioBuffer :=
  match gain with
  | PNum g =>
      if num_is_zero g then b
      else with_data b (imul_slice_scalar (_data b) start end_
                          (py_pow10 (value g / 20)))
  | PNone => b
  end.

(** The rows the overlay writes for a source buffer [src] and a start frame
    within Python's non-negative indices. *)
Definition overlaid (b src_now : AudioBuffer) (start end_ : Z) (gain : pyval)
    : AudioBuffer :=
  let b1 := after_gain b start end_ gain in
  with_data b
    {| ncols := ncols (_data b);
       rows := take (Z.to_nat start) (rows (_data b1))
               ++ zip_with (zip_with Qplus)
                    (take (Z.to_nat end_ - Z.to_nat start)
                       (drop (Z.to_nat start) (rows (_data b1))))
                    (take (Z.to_nat end_ - Z.to_nat start)
                       (rows (_data src_now)))
               ++ drop (Z.to_nat end_) (rows (_data b1)) |}.

(** The source of an overlay as a buffer, before the call: the caller's
    buffer object, or the buffer built from the conformed segment. *)
Definition source_state (σ : store) (b : AudioBuffer) (seg : source)
    : option AudioBuffer :=
  match seg with
  | Buffer a => σ !! a
  | Segment s =>
      match AudioBuffer_init (FromSegment (conform b s)) with
      | Ok nb => Some nb
      | Raise _ => None
      end
  end.

(** The source as the addition of line 140 reads it: the target itself, as
    scaled, when the caller overlays a buffer on itself. *)
Definition source_now (self : addr) (seg : source) (b sb : AudioBuffer)
    (start end_ : Z) (gain : pyval) : AudioBuffer :=
  match seg with
  | Buffer a => if decide (a = self) then after_gain b start end_ gain else sb
  | Segment _ => sb
  end.

(** Every array of the store has rows of its column count. *)
Definition wf_store (σ : store) : Prop :=
  forall a b, σ !! a = Some b -> wf_array (_data b).

(** [b'] has the format fields and the array shape of [b]. *)
Definition same_format (b b' : AudioBuffer) : Prop :=
  channels b' = channels b
  /\ frame_rate b' = frame_rate b
  /\ sample_width b' = sample_width b
  /\ ncols (_data b') = ncols (_data b)
  /\ length (rows (_data b')) = length (rows (_data b)).

(** The outcome [r] of a method called on the object [self], in state [b]
    in the store [σ]: whether it returned or raised, only [self] was
    written, and it has the format and shape it had (and rows of the right
    width, if the store had such rows). *)
Definition keeps_format {A} (self : addr) (b : AudioBuffer) (σ : store)
    (r : outcome A * store) : Prop :=
  exists b',
    r.2 = <[self := b']> σ
    /\ same_format b b'
    /\ (wf_store σ -> wf_array (_data b')).

(** ** The constructor's arguments and the invariant of the class *)

(** What [__init__] reads of its arguments: the data handed to [np.array]
    and the three format fields, those of the segment when it is given one
    (lines 23-28). *)
Definition init_data (args : init_args) : np_input :=
  match args with
  | FromSegment seg => get_array_of_samples seg
  | FromData data _ _ _ => data
  end.

Definition init_sample_width (args : init_args) : Z :=
  match args with
  | FromSegment seg => seg_sample_width seg
  | FromData _ sw _ _ => sw
  end.

Definition init_frame_rate (args : init_args) : Z :=
  match args with
  | FromSegment seg => seg_frame_rate seg
  | FromData _ _ fr _ => fr
  end.

Definition init_channels (args : init_args) : Z :=
  match args with
  | FromSegment seg => seg_channels seg
  | FromData _ _ _ ch => ch
  end.

(** Lines 30-32 of [__init__]: the flat samples as floats, integers
    converted to doubles and divided by the full scale of their item
    size. *)
Definition as_floats (data : np_input) : list Q :=
  match data with
  | IntArray itemsize v =>
      map (fun z =>
             fl (inject_Z z) / inject_Z (Z.shiftl 1 (itemsize * 8 - 1)))%Q v
  | FloatArray v => v
  end.

(** Every buffer of the store has the shape the constructor gives:
    [_data.shape[1] == channels]. *)
Definition wf_buffers (σ : store) : Prop :=
  forall a b, σ !! a = Some b -> wf_buffer b.

(** A sample within the range the 16-bit conversion represents. *)
Definition unit_range (x : Q) : Prop := (-1 <= x)%Q /\ (x < 1)%Q.

(** A buffer of two channels at 1000 frames per second, and a mono source
    for it. *)
Definition ex_stereo : AudioBuffer :=
  {| sample_width := 2; frame_rate := 1000; channels := 2;
     _data := {| ncols := 2; rows := [[1; 2]; [3; 4]; [5; 6]]%Q |} |}.

Definition ex_stereo_store : store :=
  <[1%nat := ex_source]> {[0%nat := ex_stereo]}.

(** Eight-bit samples, two channels. *)
Definition ex_bytes : init_args :=
  FromData (IntArray 1 [1; -128; 127; 0]) 1 8000 2.

(** The buffer that [__init__] builds from [ex_bytes]. *)
Definition ex_bytes_buffer : AudioBuffer :=
  {| sample_width := 1; frame_rate := 8000; channels := 2;
     _data := {| ncols := 2;
                 rows := [[1 # 128; -128 # 128]; [127 # 128; 0 # 128]]%Q |} |}.

(** Three samples for two channels. *)
Definition ex_odd : init_args :=
  FromData (IntArray 2 [1; 2; 3]) 2 44100 2.

(** A 16-bit stereo buffer with samples off the 16-bit grid. *)
Definition ex_quiet : AudioBuffer :=
  {| sample_width := 2; frame_rate := 8000; channels := 2;
     _data := {| ncols := 2; rows := [[1 # 3; -1 # 3]; [0; -1]]%Q |} |}.

(** A buffer whose frame rate is zero. *)
Definition ex_stopped : AudioBuffer :=
  {| sample_width := 2; frame_rate := 0; channels := 1;
     _data := {| ncols := 1; rows := [[1]; [2]]%Q |} |}.

(** A buffer whose frame rate is negative. *)
Definition ex_reversed : AudioBuffer :=
  {| sample_width := 2; frame_rate := -1000; channels := 1;
     _data := {| ncols := 1; rows := [[1]; [2]]%Q |} |}.

(** * Rounding *)

(** ** Rounding to an integer *)

(** [py_round] in integers: the result is within one half, and even at a
    tie. *)
Lemma py_round_frac (a : Z) (b : positive) :
  let r := py_round (a # b) in
  2 * Z.abs (a - r * Zpos b) <= Zpos b
  /\ (2 * Z.abs (a - r * Zpos b) = Zpos b -> Z.even r = true).
Proof.
  unfold py_round, Qfloor. cbn [Qnum Qden].
  pose proof (Z.mod_pos_bound a (Zpos b) ltac:(lia)) as Hm.
  pose proof (Z.div_mod a (Zpos b) ltac:(lia)) as Hd.
  revert Hm Hd. generalize (a / Zpos b), (a mod Zpos b). intros f m Hm Hd.
  destruct (Z.compare_spec (2 * m) (Zpos b)) as [He|Hl|Hg].
  - destruct (Z.even f) eqn:Hf.
    + split; [nia|auto].
    + split; [nia|]. intros _. rewrite Z.even_add, Hf. reflexivity.
  - split; nia.
  - split; nia.
Qed.

Lemma py_round_frac_unique (a : Z) (b : positive) (m : Z) :
  2 * Z.abs (a - m * Zpos b) <= Zpos b ->
  (2 * Z.abs (a - m * Zpos b) = Zpos b -> Z.even m = true) ->
  py_round (a # b) = m.
Proof.
  intros Hm He. destruct (py_round_frac a b) as [Hr Hre].
  revert Hr Hre. generalize (py_round (a # b)). intros r Hr Hre.
  assert (Hc : r = m \/ r = m + 1 \/ r = m - 1) by nia.
  destruct Hc as [->|[->| ->]]; [done| |].
  - assert (Ht : 2 * Z.abs (a - m * Zpos b) = Zpos b) by nia.
    assert (Ht' : 2 * Z.abs (a - (m + 1) * Zpos b) = Zpos b) by nia.
    specialize (He Ht). specialize (Hre Ht').
    rewrite Z.even_add, He in Hre. discriminate.
  - assert (Ht : 2 * Z.abs (a - m * Zpos b) = Zpos b) by nia.
    assert (Ht' : 2 * Z.abs (a - (m - 1) * Zpos b) = Zpos b) by nia.
    specialize (He Ht). specialize (Hre Ht').
    rewrite Z.even_sub, He in Hre. discriminate.
Qed.

Lemma py_round_Qeq p q : (p == q)%Q -> py_round p = py_round q.
Proof.
  intros H. destruct p as [a b], q as [c d]. unfold Qeq in H. cbn in H.
  destruct (py_round_frac c d) as [Hr Hre].
  apply py_round_frac_unique.
  - nia.
  - intros Ht. apply Hre. nia.
Qed.

Lemma py_round_inject_Z (z : Z) : py_round (inject_Z z) = z.
Proof. apply py_round_frac_unique; lia. Qed.

Lemma py_round_opp (q : Q) : py_round (- q) = - py_round q.
Proof.
  destruct q as [a b]. destruct (py_round_frac a b) as [Hr Hre].
  change (- (a # b))%Q with (- a # b). apply py_round_frac_unique.
  - lia.
  - intros Ht. rewrite Z.even_opp. apply Hre. lia.
Qed.

Lemma py_round_mono p q : (p <= q)%Q -> py_round p <= py_round q.
Proof.
  intros H. destruct p as [a b], q as [c d]. unfold Qle in H. cbn in H.
  destruct (py_round_frac a b) as [Hp Hpe], (py_round_frac c d) as [Hq Hqe].
  revert Hp Hpe Hq Hqe. generalize (py_round (a # b)), (py_round (c # d)).
  intros r s Hp Hpe Hq Hqe.
  destruct (Z.le_gt_cases r s) as [|Hgt]; [done|exfalso].
  assert (H1 : (2 * r - 1) * Zpos b <= 2 * a) by lia.
  assert (H2 : 2 * c <= (2 * s + 1) * Zpos d) by lia.
  assert (H3 : (2 * r - 1) * Zpos b * Zpos d <= 2 * a * Zpos d) by nia.
  assert (H4 : 2 * c * Zpos b <= (2 * s + 1) * Zpos d * Zpos b) by nia.
  assert (H5 : (2 * r - 1) * (Zpos b * Zpos d)
               <= (2 * s + 1) * (Zpos b * Zpos d)) by lia.
  apply Z.mul_le_mono_pos_r in H5; [|lia].
  assert (r = s + 1) as -> by lia.
  assert (H6 : (2 * (s + 1) - 1) * (Zpos b * Zpos d)
               = (2 * s + 1) * (Zpos b * Zpos d)) by lia.
  assert (Ht : 2 * Z.abs (a - (s + 1) * Zpos b) = Zpos b) by nia.
  assert (Ht' : 2 * Z.abs (c - s * Zpos d) = Zpos d) by nia.
  specialize (Hpe Ht). specialize (Hqe Ht').
  rewrite Z.even_add, Hqe in Hpe. discriminate.
Qed.

Lemma py_round_nearest q : (Qabs (q - inject_Z (py_round q)) <= 1 # 2)%Q.
Proof.
  destruct q as [a b]. destruct (py_round_frac a b) as [Hr _].
  revert Hr. generalize (py_round (a # b)). intros r Hr.
  unfold Qle, Qabs, Qminus, Qplus, Qopp, inject_Z. cbn.
  rewrite Pos.mul_1_r.
  replace (a * 1 + - r * Zpos b) with (a - r * Zpos b) by lia. lia.
Qed.

Lemma py_round_unique (q : Q) (k : Z) :
  (Qabs (q - inject_Z k) < 1 # 2)%Q -> py_round q = k.
Proof.
  destruct q as [a b]. intros H.
  assert (Hz : 2 * Z.abs (a - k * Zpos b) < Zpos b).
  { revert H. unfold Qlt, Qabs, Qminus, Qplus, Qopp, inject_Z. cbn.
    rewrite Pos.mul_1_r.
    replace (a * 1 + - k * Zpos b) with (a - k * Zpos b) by lia. lia. }
  apply py_round_frac_unique; lia.
Qed.

(** ** Powers of two *)

Lemma pow2_pos (e : Z) : (0 < 2 ^ e)%Q.
Proof. now apply Qpower_0_lt. Qed.

Lemma pow2_plus (a b : Z) : (2 ^ (a + b) == 2 ^ a * 2 ^ b)%Q.
Proof. now apply Qpower_plus. Qed.

Lemma pow2_Z (e : Z) : 0 <= e -> (2 ^ e == inject_Z (2 ^ e))%Q.
Proof. intros H. symmetry. now apply (Zpower_Qpower 2). Qed.

Lemma pow2_cancel (q : Q) (e : Z) : (q * 2 ^ (- e) * 2 ^ e == q)%Q.
Proof.
  rewrite <- Qmult_assoc, <- pow2_plus.
  replace (- e + e) with 0 by lia. change (2 ^ 0)%Q with 1%Q. ring.
Qed.


Lemma pow2_le (a b : Z) : a <= b -> (2 ^ a <= 2 ^ b)%Q.
Proof. intros H. now apply Qpower_le_compat_l. Qed.

Lemma pow2_lt_inv (a b : Z) : (2 ^ a < 2 ^ b)%Q -> a < b.
Proof. intros H. now apply (Qpower_lt_compat_l_inv 2). Qed.

Lemma frac_lt (x y u v : Z) :
  0 < y -> 0 < v -> x * v < u * y ->
  (inject_Z x / inject_Z y < inject_Z u / inject_Z v)%Q.
Proof.
  intros Hy Hv H. destruct y as [|y|y], v as [|v|v]; try lia.
  unfold Qlt, Qdiv, Qmult, Qinv, inject_Z. cbn [Qnum Qden]. lia.
Qed.

Lemma Qabs_frac (q : Q) :
  (Qabs q == inject_Z (Z.abs (Qnum q)) / inject_Z (Zpos (Qden q)))%Q.
Proof.
  destruct q as [a b]. unfold Qabs, Qeq, Qdiv, Qmult, Qinv, inject_Z.
  cbn [Qnum Qden]. lia.
Qed.

(** ** The binary exponent *)

Lemma Qlog2_spec (q : Q) :
  ~ (q == 0)%Q ->
  (2 ^ Qlog2 q <= Qabs q)%Q /\ (Qabs q < 2 ^ (Qlog2 q + 1))%Q.
Proof.
  intros Hq.
  assert (Ha : 0 < Z.abs (Qnum q)).
  { destruct q as [a b]. unfold Qeq in Hq. cbn in *. lia. }
  pose proof (Z.log2_spec _ Ha) as [Ha1 Ha2].
  pose proof (Z.log2_spec (Zpos (Qden q)) ltac:(lia)) as [Hb1 Hb2].
  pose proof (Z.log2_nonneg (Z.abs (Qnum q))) as Hla.
  pose proof (Z.log2_nonneg (Zpos (Qden q))) as Hlb.
  unfold Qlog2.
  set (la := Z.log2 (Z.abs (Qnum q))) in *.
  set (lb := Z.log2 (Zpos (Qden q))) in *.
  assert (Hpa : 0 < 2 ^ la) by (apply Z.pow_pos_nonneg; lia).
  assert (Hpb : 0 < 2 ^ lb) by (apply Z.pow_pos_nonneg; lia).
  assert (Hup : (Qabs q < 2 ^ (la - lb + 1))%Q).
  { rewrite Qabs_frac.
    replace (la - lb + 1) with (Z.succ la + - lb) by lia.
    rewrite pow2_plus, Qpower_opp, !pow2_Z by lia.
    apply frac_lt; try lia. nia. }
  assert (Hlo : (2 ^ (la - lb - 1) < Qabs q)%Q).
  { rewrite Qabs_frac.
    replace (la - lb - 1) with (la + - Z.succ lb) by lia.
    rewrite pow2_plus, Qpower_opp, !pow2_Z by lia.
    apply frac_lt; try lia. nia. }
  destruct (Qle_bool (2 ^ (la - lb)) (Qabs q)) eqn:Hle.
  - apply Qle_bool_iff in Hle. split; done.
  - split; [now apply Qlt_le_weak|].
    replace (la - lb - 1 + 1) with (la - lb) by lia.
    apply Qnot_le_lt. intros H%Qle_bool_iff. congruence.
Qed.

Lemma Qlog2_unique (q : Q) (k : Z) :
  (2 ^ k <= Qabs q)%Q -> (Qabs q < 2 ^ (k + 1))%Q -> Qlog2 q = k.
Proof.
  intros Hlo Hup.
  assert (Hq : ~ (q == 0)%Q).
  { intros H. rewrite H in Hlo. pose proof (pow2_pos k) as Hp.
    change (Qabs 0) with 0%Q in Hlo.
    apply (Qlt_not_le _ _ Hp Hlo). }
  destruct (Qlog2_spec q Hq) as [Hlo' Hup'].
  assert (H1 : k < Qlog2 q + 1)
    by (apply pow2_lt_inv; eapply Qle_lt_trans; eauto).
  assert (H2 : Qlog2 q < k + 1)
    by (apply pow2_lt_inv; eapply Qle_lt_trans; eauto).
  lia.
Qed.

Lemma Qlog2_Qeq (p q : Q) : ~ (p == 0)%Q -> (p == q)%Q -> Qlog2 p = Qlog2 q.
Proof.
  intros Hp H. destruct (Qlog2_spec p Hp) as [Hlo Hup].
  symmetry. apply Qlog2_unique; now rewrite <- H.
Qed.

Lemma Qlog2_mono (p q : Q) :
  ~ (p == 0)%Q -> (Qabs p <= Qabs q)%Q -> Qlog2 p <= Qlog2 q.
Proof.
  intros Hp H.
  assert (Hq : ~ (q == 0)%Q).
  { intros E. rewrite E in H. change (Qabs 0) with 0%Q in H.
    apply Hp. apply Qabs_Qle_condition in H. destruct H as [H1 H2].
    now apply Qle_antisym. }
  destruct (Qlog2_spec p Hp) as [Hlo _], (Qlog2_spec q Hq) as [_ Hup].
  assert (Qlog2 p < Qlog2 q + 1); [|lia].
  apply pow2_lt_inv. eapply Qle_lt_trans; [|exact Hup].
  eapply Qle_trans; eauto.
Qed.

Lemma Qlog2_opp (q : Q) : Qlog2 (- q) = Qlog2 q.
Proof. destruct q as [[|a|a] b]; reflexivity. Qed.

(** ** Rounding to a double *)

Lemma Qnum_zero (q : Q) : (Qnum q =? 0) = true <-> (q == 0)%Q.
Proof.
  unfold Qeq. cbn. rewrite Z.eqb_eq. lia.
Qed.

Lemma fl_zero (q : Q) : (q == 0)%Q -> fl q = 0%Q.
Proof. intros H%Qnum_zero. unfold fl. now rewrite H. Qed.

Lemma fl_raw (q : Q) :
  ~ (q == 0)%Q ->
  (fl q == inject_Z (py_round (q * 2 ^ (- ulp_exp q))) * 2 ^ ulp_exp q)%Q.
Proof.
  intros H. unfold fl. destruct (Qnum q =? 0) eqn:E.
  - now apply Qnum_zero in E.
  - apply Qred_correct.
Qed.

Lemma ulp_exp_Qeq (p q : Q) :
  ~ (p == 0)%Q -> (p == q)%Q -> ulp_exp p = ulp_exp q.
Proof. intros Hp H. unfold ulp_exp. now rewrite (Qlog2_Qeq p q). Qed.

Lemma fl_Qeq (p q : Q) : (p == q)%Q -> fl p = fl q.
Proof.
  intros H. unfold fl.
  destruct (Qnum p =? 0) eqn:Ep, (Qnum q =? 0) eqn:Eq; try reflexivity.
  - apply Qnum_zero in Ep. rewrite H in Ep. apply Qnum_zero in Ep. congruence.
  - apply Qnum_zero in Eq. rewrite <- H in Eq. apply Qnum_zero in Eq.
    congruence.
  - assert (Hp : ~ (p == 0)%Q) by (intros E%Qnum_zero; congruence).
    apply Qred_complete. rewrite (ulp_exp_Qeq p q Hp H).
    now rewrite (py_round_Qeq (p * _) (q * 2 ^ (- ulp_exp q))) by now rewrite H.
Qed.

Lemma ulp_exp_opp (q : Q) : ulp_exp (- q) = ulp_exp q.
Proof. unfold ulp_exp. now rewrite Qlog2_opp. Qed.

Lemma fl_opp (q : Q) : (fl (- q) == - fl q)%Q.
Proof.
  destruct (Qeq_dec q 0) as [Hz|Hnz].
  - rewrite (fl_zero q Hz), (fl_zero (- q)) by (rewrite Hz; reflexivity).
    reflexivity.
  - rewrite (fl_raw q Hnz), (fl_raw (- q)); cycle 1.
    { intros E. apply Hnz. rewrite <- (Qopp_involutive q), E. reflexivity. }
    rewrite ulp_exp_opp.
    rewrite (py_round_Qeq (- q * _) (- (q * 2 ^ (- ulp_exp q)))) by ring.
    rewrite py_round_opp, inject_Z_opp. ring.
Qed.


Lemma fl_error (q : Q) : (Qabs (fl q - q) <= 2 ^ ulp_exp q * (1 # 2))%Q.
Proof.
  destruct (Qeq_dec q 0) as [Hz|Hnz].
  - rewrite (fl_zero q Hz).
    assert (E : (0 - q == 0)%Q) by (rewrite Hz; reflexivity).
    rewrite E. change (Qabs 0) with 0%Q.
    apply Qmult_le_0_compat; [apply Qlt_le_weak, pow2_pos|discriminate].
  - rewrite (fl_raw q Hnz).
    set (e := ulp_exp q). set (x := (q * 2 ^ (- e))%Q).
    assert (E : (inject_Z (py_round x) * 2 ^ e - q
                 == - (x - inject_Z (py_round x)) * 2 ^ e)%Q).
    { generalize (py_round x). intros r. unfold x.
      pose proof (pow2_cancel q e) as Hc.
      transitivity (inject_Z r * 2 ^ e - q * 2 ^ (- e) * 2 ^ e)%Q;
        [now rewrite Hc|ring]. }
    rewrite E, Qabs_Qmult, Qabs_opp.
    rewrite (Qabs_pos (2 ^ e)) by apply Qlt_le_weak, pow2_pos.
    rewrite Qmult_comm. apply Qmult_le_l; [apply pow2_pos|].
    apply py_round_nearest.
Qed.

(** A number of the grid of [x] bounds the rounding of [x] as it bounds
    [x]. *)
Lemma fl_grid_ub (x g : Q) (z : Z) :
  ~ (x == 0)%Q -> (g * 2 ^ (- ulp_exp x) == inject_Z z)%Q ->
  (x <= g)%Q -> (fl x <= g)%Q.
Proof.
  intros Hx Hg Hle. rewrite (fl_raw x Hx). set (e := ulp_exp x) in *.
  rewrite <- (pow2_cancel g e), Hg.
  apply Qmult_le_compat_r; [|apply Qlt_le_weak, pow2_pos].
  rewrite <- Zle_Qle. rewrite <- (py_round_inject_Z z).
  apply py_round_mono. rewrite <- Hg.
  apply Qmult_le_compat_r; [done|apply Qlt_le_weak, pow2_pos].
Qed.

Lemma fl_grid_lb (x g : Q) (z : Z) :
  ~ (x == 0)%Q -> (g * 2 ^ (- ulp_exp x) == inject_Z z)%Q ->
  (g <= x)%Q -> (g <= fl x)%Q.
Proof.
  intros Hx Hg Hle. rewrite (fl_raw x Hx). set (e := ulp_exp x) in *.
  rewrite <- (pow2_cancel g e), Hg.
  apply Qmult_le_compat_r; [|apply Qlt_le_weak, pow2_pos].
  rewrite <- Zle_Qle. rewrite <- (py_round_inject_Z z).
  apply py_round_mono. rewrite <- Hg.
  apply Qmult_le_compat_r; [done|apply Qlt_le_weak, pow2_pos].
Qed.

Lemma fl_exact (x : Q) (z : Z) :
  (x * 2 ^ (- ulp_exp x) == inject_Z z)%Q -> (fl x == x)%Q.
Proof.
  intros Hz. destruct (Qeq_dec x 0) as [H0|Hx].
  - now rewrite (fl_zero x H0), H0.
  - apply Qle_antisym;
      [eapply fl_grid_ub|eapply fl_grid_lb]; eauto; apply Qle_refl.
Qed.

Lemma fl_nonneg (q : Q) : (0 <= q)%Q -> (0 <= fl q)%Q.
Proof.
  intros H. destruct (Qeq_dec q 0) as [H0|Hq].
  - rewrite (fl_zero q H0). apply Qle_refl.
  - apply (fl_grid_lb q 0 0); [done|ring|done].
Qed.

Lemma fl_nonpos (q : Q) : (q <= 0)%Q -> (fl q <= 0)%Q.
Proof.
  intros H. destruct (Qeq_dec q 0) as [H0|Hq].
  - rewrite (fl_zero q H0). apply Qle_refl.
  - apply (fl_grid_ub q 0 0); [done|ring|done].
Qed.

Lemma ulp_exp_mono (p q : Q) :
  ~ (p == 0)%Q -> (Qabs p <= Qabs q)%Q -> ulp_exp p <= ulp_exp q.
Proof.
  intros Hp H. pose proof (Qlog2_mono p q Hp H). unfold ulp_exp. lia.
Qed.

Lemma fl_mono_pos (p q : Q) : (0 < p)%Q -> (p <= q)%Q -> (fl p <= fl q)%Q.
Proof.
  intros Hp Hpq.
  assert (Hq : (0 < q)%Q) by (eapply Qlt_le_trans; eauto).
  assert (Hpn : ~ (p == 0)%Q) by (intros E; rewrite E in Hp; discriminate).
  assert (Hqn : ~ (q == 0)%Q) by (intros E; rewrite E in Hq; discriminate).
  assert (Hap : (Qabs p == p)%Q) by (apply Qabs_pos; now apply Qlt_le_weak).
  assert (Haq : (Qabs q == q)%Q) by (apply Qabs_pos; now apply Qlt_le_weak).
  assert (He : ulp_exp p <= ulp_exp q)
    by (apply ulp_exp_mono; [done|now rewrite Hap, Haq]).
  destruct (Z.eq_dec (ulp_exp p) (ulp_exp q)) as [Heq|Hne].
  - rewrite (fl_raw p Hpn), (fl_raw q Hqn), Heq.
    apply Qmult_le_compat_r; [|apply Qlt_le_weak, pow2_pos].
    rewrite <- Zle_Qle. apply py_round_mono.
    apply Qmult_le_compat_r; [done|apply Qlt_le_weak, pow2_pos].
  - destruct (Qlog2_spec p Hpn) as [_ Hup], (Qlog2_spec q Hqn) as [Hlo _].
    rewrite Hap in Hup. rewrite Haq in Hlo.
    assert (Heq : ulp_exp q = Qlog2 q - 52) by (unfold ulp_exp in *; lia).
    assert (Hlp : Qlog2 p + 1 <= ulp_exp q + 52) by (unfold ulp_exp in *; lia).
    set (B := (2 ^ (ulp_exp q + 52))%Q).
    apply Qle_trans with B.
    + apply (fl_grid_ub p B (2 ^ (ulp_exp q + 52 - ulp_exp p))); [done| |].
      * unfold B. rewrite <- pow2_plus, <- pow2_Z by lia.
        now replace (ulp_exp q + 52 + - ulp_exp p)
          with (ulp_exp q + 52 - ulp_exp p) by lia.
      * apply Qlt_le_weak. eapply Qlt_le_trans; [exact Hup|].
        now apply pow2_le.
    + apply (fl_grid_lb q B (2 ^ 52)); [done| |].
      * unfold B. rewrite <- pow2_plus, <- pow2_Z by lia.
        now replace (ulp_exp q + 52 + - ulp_exp q) with 52 by lia.
      * unfold B. rewrite Heq.
        now replace (Qlog2 q - 52 + 52) with (Qlog2 q) by lia.
Qed.

Lemma fl_mono (p q : Q) : (p <= q)%Q -> (fl p <= fl q)%Q.
Proof.
  intros Hpq.
  destruct (Qlt_le_dec 0 p) as [Hp|Hp]; [now apply fl_mono_pos|].
  destruct (Qlt_le_dec q 0) as [Hq|Hq].
  - assert (H : (fl (- q) <= fl (- p))%Q).
    { apply fl_mono_pos.
      - rewrite <- (Qopp_involutive 0). apply Qopp_lt_compat.
        now change (- 0)%Q with 0%Q.
      - now apply Qopp_le_compat. }
    rewrite !fl_opp in H. apply Qopp_le_compat in H.
    now rewrite !Qopp_involutive in H.
  - apply Qle_trans with 0%Q; [now apply fl_nonpos|now apply fl_nonneg].
Qed.

Lemma Qabs_inject_Z (z : Z) : Qabs (inject_Z z) = inject_Z (Z.abs z).
Proof. reflexivity. Qed.

Lemma Qlog2_inject_Z (z : Z) : z <> 0 -> Qlog2 (inject_Z z) = Z.log2 (Z.abs z).
Proof.
  intros Hz. pose proof (Z.log2_spec (Z.abs z) ltac:(lia)) as [H1 H2].
  pose proof (Z.log2_nonneg (Z.abs z)).
  apply Qlog2_unique; rewrite Qabs_inject_Z, pow2_Z by lia.
  - now rewrite <- Zle_Qle.
  - rewrite <- Zlt_Qlt. now replace (Z.log2 (Z.abs z) + 1)
      with (Z.succ (Z.log2 (Z.abs z))) by lia.
Qed.

Lemma Qred_inject_Z (z : Z) : Qred (inject_Z z) = inject_Z z.
Proof.
  unfold Qred, inject_Z.
  pose proof (Z.ggcd_correct_divisors z 1) as Hd.
  pose proof (Z.ggcd_gcd z 1) as Hg. rewrite Z.gcd_1_r in Hg.
  destruct (Z.ggcd z 1) as [g [aa bb]]. cbn in Hg. subst g.
  destruct Hd as [-> Hb]. cbn [snd]. f_equal; [lia|].
  replace bb with 1 by lia. reflexivity.
Qed.

Lemma Qred_involutive (q : Q) : Qred (Qred q) = Qred q.
Proof. apply Qred_complete, Qred_correct. Qed.

Lemma fl_eq (x y : Q) : (fl x == y)%Q -> fl x = Qred y.
Proof.
  intros H. unfold fl in *. destruct (Qnum x =? 0).
  - rewrite <- (Qred_complete _ _ H). reflexivity.
  - rewrite <- (Qred_complete _ _ H). symmetry. apply Qred_involutive.
Qed.

(** Integers of up to 53 bits are doubles. *)
Lemma fl_inject_Z (z : Z) : Z.abs z < 2 ^ 53 -> fl (inject_Z z) = inject_Z z.
Proof.
  intros Hz. rewrite <- (Qred_inject_Z z) at 2. apply fl_eq.
  destruct (Z.eq_dec z 0) as [->|Hnz]; [reflexivity|].
  assert (He : ulp_exp (inject_Z z) <= 0).
  { unfold ulp_exp. rewrite Qlog2_inject_Z by done.
    assert (Z.log2 (Z.abs z) < 53) by (apply Z.log2_lt_pow2; lia). lia. }
  apply (fl_exact _ (z * 2 ^ (- ulp_exp (inject_Z z)))).
  rewrite pow2_Z by lia. now rewrite inject_Z_mult.
Qed.


(** Above the subnormal range the error is relative. *)
Lemma fl_relative (q : Q) :
  (2 ^ (-1022) <= Qabs q)%Q -> (Qabs (fl q - q) <= Qabs q * 2 ^ (-53))%Q.
Proof.
  intros Hn.
  assert (Hq : ~ (q == 0)%Q).
  { intros E. rewrite E in Hn. revert Hn. apply Qlt_not_le. reflexivity. }
  destruct (Qlog2_spec q Hq) as [Hlo Hup].
  assert (Hl : -1022 <= Qlog2 q).
  { assert (-1022 < Qlog2 q + 1); [|lia]. apply pow2_lt_inv.
    eapply Qle_lt_trans; eauto. }
  eapply Qle_trans; [apply fl_error|].
  replace (ulp_exp q) with (Qlog2 q + -52) by (unfold ulp_exp; lia).
  rewrite pow2_plus, <- Qmult_assoc.
  change (2 ^ (-52) * (1 # 2))%Q with (2 ^ (-53))%Q.
  apply Qmult_le_compat_r; [done|discriminate].
Qed.


Lemma Qabs_bound (x b : Q) : (Qabs x <= b)%Q <-> (- b <= x /\ x <= b)%Q.
Proof. apply Qabs_Qle_condition. Qed.

(** ** The duration in doubles *)

(** [1000 * (n / rate)] computed in doubles, against the exact quotient. *)
Lemma len_close (n rate : Z) :
  0 < rate < 2 ^ 53 -> 0 <= n ->
  let q := (1000 * inject_Z n / inject_Z rate)%Q in
  let y := fl (1000 * fl (inject_Z n / inject_Z rate)) in
  (Qabs (y - q) <= q * (3 # 9007199254740992))%Q.
Proof.
  intros Hr Hn q y.
  assert (Hrq : (0 < inject_Z rate)%Q)
    by (unfold Qlt, inject_Z; cbn; lia).
  assert (Hrb : (inject_Z rate < 2 ^ 53)%Q)
    by (change (2 ^ 53)%Q with (inject_Z (2 ^ 53)); rewrite <- Zlt_Qlt; lia).
  destruct (Z.eq_dec n 0) as [->|Hnz].
  { assert (E : (q == 0)%Q) by (unfold q; field; lra).
    assert (Ey : y = 0%Q).
    { unfold y. rewrite (fl_zero (inject_Z 0 / inject_Z rate)) by (field; lra).
      reflexivity. }
    rewrite Ey, E. vm_compute. discriminate. }
  set (q0 := (inject_Z n / inject_Z rate)%Q) in *.
  assert (Hnq : (1 <= inject_Z n)%Q) by (unfold Qle, inject_Z; cbn; lia).
  assert (Hq0 : (2 ^ (-53) <= q0)%Q).
  { unfold q0. apply Qle_shift_div_l; [done|].
    change (2 ^ (-53))%Q with (1 # 9007199254740992)%Q.
    change (2 ^ 53)%Q with 9007199254740992%Q in Hrb. lra. }
  change (2 ^ (-53))%Q with (1 # 9007199254740992)%Q in Hq0.
  assert (Hq0' : (0 < q0)%Q) by lra.
  pose proof (fl_relative q0) as H1.
  rewrite (Qabs_pos q0) in H1 by lra.
  specialize (H1 ltac:(change (2 ^ (-1022))%Q
    with (1 # 2 ^ 1022)%Q; eapply Qle_trans; [|exact Hq0]; discriminate)).
  change (2 ^ (-53))%Q with (1 # 9007199254740992)%Q in H1.
  apply Qabs_bound in H1. set (r := fl q0) in *.
  assert (Hr0 : (0 < r)%Q) by lra.
  pose proof (fl_relative (1000 * r)) as H2.
  rewrite (Qabs_pos (1000 * r)) in H2 by lra.
  specialize (H2 ltac:(change (2 ^ (-1022))%Q
    with (1 # 2 ^ 1022)%Q; apply Qle_trans with (1 # 9007199254740992)%Q;
    [discriminate|lra])).
  change (2 ^ (-53))%Q with (1 # 9007199254740992)%Q in H2.
  apply Qabs_bound in H2. fold y in H2.
  assert (Eq : (q == 1000 * q0)%Q) by (unfold q, q0; field; lra).
  rewrite Eq. apply Qabs_bound. split; nra.
Qed.

Lemma inject_Z_pos (z : Z) : 0 < z -> (0 < inject_Z z)%Q.
Proof. intros H. unfold Qlt, inject_Z. cbn [Qnum Qden]. lia. Qed.

Lemma inject_Z_le (x y : Z) : x <= y -> (inject_Z x <= inject_Z y)%Q.
Proof. intros H. now rewrite <- Zle_Qle. Qed.

(** The length the code computes, [round(1000 * (n / rate))] in doubles,
    against the exact [round(1000 * n / rate)]: within half a millisecond
    of the quotient, and the rounding of the quotient unless that lies
    midway between two integers. *)
Lemma len_round (n rate : Z) :
  0 < rate < 2 ^ 53 -> 0 <= n <= 2 ^ 40 ->
  let q := (1000 * inject_Z n / inject_Z rate)%Q in
  let l := py_round (fl (1000 * fl (inject_Z n / inject_Z rate))) in
  (Qabs (q - inject_Z l) <= 1 # 2)%Q
  /\ ((2000 * n) mod (2 * rate) <> rate -> l = py_round q)
  /\ 0 <= l <= 2 ^ 50.
Proof.
  intros Hr Hn q l.
  pose proof (len_close n rate Hr (proj1 Hn)) as Hc. cbv zeta in Hc.
  fold q in Hc. set (y := fl (1000 * fl (inject_Z n / inject_Z rate))) in *.
  apply Qabs_bound in Hc.
  pose proof (inject_Z_pos rate (proj1 Hr)) as Hrho.
  pose proof (inject_Z_le 1 rate ltac:(lia)) as Hrho1.
  pose proof (inject_Z_le 0 n (proj1 Hn)) as Hnu0.
  pose proof (inject_Z_le n (2 ^ 40) (proj2 Hn)) as Hnu.
  change (inject_Z 1) with 1%Q in Hrho1.
  change (inject_Z 0) with 0%Q in Hnu0.
  change (inject_Z (2 ^ 40)) with 1099511627776%Q in Hnu.
  assert (Eq : (q * inject_Z rate == 1000 * inject_Z n)%Q)
    by (unfold q; field; lra).
  assert (Hq0 : (0 <= q)%Q) by nra.
  assert (Hd : (- (3) <= (y - q) * (8 * inject_Z rate)
                /\ (y - q) * (8 * inject_Z rate) <= 3)%Q) by (split; nra).
  pose proof (Z.div_mod (2000 * n) (2 * rate) ltac:(lia)) as Hdm.
  pose proof (Z.mod_pos_bound (2000 * n) (2 * rate) ltac:(lia)) as Hmb.
  set (j := (2000 * n) / (2 * rate)) in *.
  set (m := (2000 * n) mod (2 * rate)) in *.
  assert (Ej : (2 * inject_Z rate * (q - inject_Z j) == inject_Z m)%Q).
  { apply (f_equal inject_Z) in Hdm.
    rewrite inject_Z_plus, !inject_Z_mult in Hdm.
    change (inject_Z 2000) with 2000%Q in Hdm.
    change (inject_Z 2) with 2%Q in Hdm.
    assert (Hdm' : (2000 * inject_Z n
                    == 2 * inject_Z rate * inject_Z j + inject_Z m)%Q)
      by now rewrite Hdm.
    lra. }
  assert (Hy0 : (0 <= y)%Q).
  { unfold y. apply fl_nonneg.
    assert (0 <= fl (inject_Z n / inject_Z rate))%Q; [|lra].
    apply fl_nonneg. apply Qle_shift_div_l; [done|lra]. }
  assert (Hl0 : 0 <= l).
  { unfold l. rewrite <- (py_round_inject_Z 0). now apply py_round_mono. }
  assert (Hnear : forall k : Z,
            (- inject_Z rate < 2 * inject_Z rate * (y - inject_Z k)
             /\ 2 * inject_Z rate * (y - inject_Z k) < inject_Z rate)%Q ->
            l = k).
  { intros k [H1 H2]. unfold l. apply py_round_unique.
    apply Qabs_Qlt_condition. split; nra. }
  assert (Hnearq : forall k : Z,
            (- inject_Z rate < 2 * inject_Z rate * (q - inject_Z k)
             /\ 2 * inject_Z rate * (q - inject_Z k) < inject_Z rate)%Q ->
            py_round q = k).
  { intros k [H1 H2]. apply py_round_unique.
    apply Qabs_Qlt_condition. split; nra. }
  assert (Hmain : (Qabs (q - inject_Z l) <= 1 # 2)%Q
                  /\ (m <> rate -> l = py_round q)).
  { destruct (Z.lt_trichotomy m rate) as [Hlt|[Heq|Hgt]].
    - pose proof (inject_Z_le m (rate + -1) ltac:(lia)) as Hm1.
      pose proof (inject_Z_le 0 m ltac:(lia)) as Hm0.
      rewrite inject_Z_plus in Hm1.
      change (inject_Z (-1)) with (-1)%Q in Hm1.
      change (inject_Z 0) with 0%Q in Hm0.
      assert (El : l = j) by (apply Hnear; split; nra).
      assert (Elq : py_round q = j) by (apply Hnearq; split; nra).
      split; [|congruence]. rewrite El. apply Qabs_bound. split; nra.
    - assert (Em : inject_Z m = inject_Z rate) by now rewrite Heq.
      rewrite Em in Ej. split; [|lia].
      assert (Hj : j <= l <= j + 1).
      { unfold l. split.
        - rewrite <- (py_round_inject_Z j) at 1. apply py_round_mono. nra.
        - rewrite <- (py_round_inject_Z (j + 1)) at 1. apply py_round_mono.
          rewrite inject_Z_plus. change (inject_Z 1) with 1%Q. nra. }
      assert (El : l = j \/ l = j + 1) by lia.
      apply Qabs_bound. destruct El as [-> | ->];
        rewrite ?inject_Z_plus; change (inject_Z 1) with 1%Q; split; nra.
    - pose proof (inject_Z_le (rate + 1) m ltac:(lia)) as Hm1.
      pose proof (inject_Z_le m (2 * rate + -1) ltac:(lia)) as Hm2.
      rewrite inject_Z_plus in Hm1.
      rewrite inject_Z_plus, inject_Z_mult in Hm2.
      change (inject_Z (-1)) with (-1)%Q in Hm2.
      change (inject_Z 1) with 1%Q in Hm1.
      change (inject_Z 2) with 2%Q in Hm2.
      assert (El : l = j + 1).
      { apply Hnear. rewrite inject_Z_plus. change (inject_Z 1) with 1%Q.
        split; nra. }
      assert (Elq : py_round q = j + 1).
      { apply Hnearq. rewrite inject_Z_plus. change (inject_Z 1) with 1%Q.
        split; nra. }
      split; [|congruence]. rewrite El. apply Qabs_bound.
      rewrite inject_Z_plus. change (inject_Z 1) with 1%Q. split; nra. }
  destruct Hmain as [Hhalf Htie]. split; [exact Hhalf|]. split; [exact Htie|].
  split; [exact Hl0|].
  apply Qabs_bound in Hhalf.
  assert (Hlq : (inject_Z l <= inject_Z (2 ^ 50))%Q).
  { change (inject_Z (2 ^ 50)) with 1125899906842624%Q. nra. }
  now rewrite <- Zle_Qle in Hlq.
Qed.


(** With a negative frame rate and at least a millisecond of frames the
    length is negative. *)
Lemma len_negative (n rate : Z) :
  rate < 0 -> - rate <= 1000 * n ->
  py_round (fl (1000 * fl (inject_Z n / inject_Z rate))) <= -1.
Proof.
  intros Hr Hn.
  assert (Hrho : (inject_Z rate < 0)%Q)
    by (unfold Qlt, inject_Z; cbn [Qnum Qden]; lia).
  pose proof (inject_Z_le (- rate) (1000 * n) Hn) as Hn'.
  rewrite inject_Z_opp, inject_Z_mult in Hn'.
  change (inject_Z 1000) with 1000%Q in Hn'.
  set (x := (inject_Z n / inject_Z rate)%Q).
  assert (Ex : (x * inject_Z rate == inject_Z n)%Q) by (unfold x; field; lra).
  assert (Hx : (x <= - (1 # 1000))%Q) by nra.
  apply fl_mono in Hx.
  assert (Hy : (1000 * fl x <= 1000 * fl (- (1 # 1000)))%Q) by lra.
  apply fl_mono, py_round_mono in Hy.
  etransitivity; [exact Hy|]. vm_compute. discriminate.
Qed.

(** * The methods *)

(** ** Running computations *)

Lemma bind_lift_ok {A B} (a : A) (k : A -> M B) σ :
  (lift (Ok a) ≫= k) σ = k a σ.
Proof. reflexivity. Qed.

Lemma bind_lift_raise {A B} (e : exn) (k : A -> M B) σ :
  (lift (Raise e) ≫= k) σ = (Raise e, σ).
Proof. reflexivity. Qed.

Lemma bind_deref {B} a b (k : AudioBuffer -> M B) (σ : store) :
  σ !! a = Some b -> (deref a ≫= k) σ = k b σ.
Proof. intros H. unfold mbind, M_bind, deref. now rewrite H. Qed.

Lemma bind_ret {A B} (a : A) (k : A -> M B) σ : (mret a ≫= k) σ = k a σ.
Proof. reflexivity. Qed.

Lemma set_data_ok a b d (σ : store) :
  σ !! a = Some b -> set_data a d σ = (Ok tt, <[a := with_data b d]> σ).
Proof. intros H. unfold set_data. now rewrite H. Qed.

(** ** Numbers *)

Lemma Qltb_lt p q : Qltb p q = true <-> (p < q)%Q.
Proof. unfold Qltb, Qlt. apply Z.ltb_lt. Qed.

Lemma Qltb_ge p q : Qltb p q = false <-> (q <= p)%Q.
Proof. unfold Qltb, Qle. apply Z.ltb_ge. Qed.

Lemma Qtrunc_Qeq p q : (p == q)%Q -> Qtrunc p = Qtrunc q.
Proof.
  unfold Qeq, Qtrunc. destruct p as [a b], q as [c d]; simpl. intros H.
  rewrite <- (Z.quot_mul_cancel_r a (Zpos b) (Zpos d)) by lia.
  rewrite <- (Z.quot_mul_cancel_r c (Zpos d) (Zpos b)) by lia.
  rewrite H. f_equal. lia.
Qed.

Lemma Qtrunc_inject_Z z : Qtrunc (inject_Z z) = z.
Proof. unfold Qtrunc; simpl. apply Z.quot_1_r. Qed.

Lemma Qtrunc_upper n q : (q <= inject_Z n)%Q -> 0 <= n -> Qtrunc q <= n.
Proof.
  unfold Qle, Qtrunc. destruct q as [a b]; simpl. intros H Hn.
  destruct (Z.le_gt_cases 0 a).
  - rewrite Z.quot_div_nonneg by lia. apply Z.div_le_upper_bound; lia.
  - assert (a ÷ Zpos b <= 0); [|lia].
    replace a with (- - a) by lia. rewrite Z.quot_opp_l by lia.
    assert (0 <= (- a) ÷ Zpos b) by (apply Z.quot_pos; lia). lia.
Qed.

Lemma Qtrunc_lower n q : (inject_Z n < q)%Q -> 0 <= n -> n <= Qtrunc q.
Proof.
  unfold Qlt, Qtrunc. destruct q as [a b]; simpl. intros H Hn.
  rewrite Z.quot_div_nonneg by nia. apply Z.div_le_lower_bound; lia.
Qed.

(** Lines 84-85: the float that [frame_count] returns, truncated and
    clamped to the buffer. *)
Lemma to_frame_clamp (b : AudioBuffer) (ms : num) :
  to_frame b (PNum ms)
  = Z.max 0 (Z.min (Z.of_nat (length (rows (_data b))))
               (py_int (frame_count b (PNum ms)))).
Proof.
  unfold to_frame, py_min, num_lt. cbn [frame_count value py_int].
  set (n := Z.of_nat (length (rows (_data b)))).
  generalize (fl (fl (value ms) * fl (fl (inject_Z (frame_rate b)) / 1000))).
  intros fc.
  destruct (Qltb (inject_Z n) fc) eqn:Hlt; cbn [py_int].
  - apply Qltb_lt in Hlt. pose proof (Qtrunc_lower n fc Hlt). lia.
  - apply Qltb_ge in Hlt. pose proof (Qtrunc_upper n fc Hlt). lia.
Qed.

Lemma fill_blanks_numbers start end_ duration s e :
  fill_blanks start end_ duration = Ok (s, e) ->
  exists s' e', s = PNum s' /\ e = PNum e'.
Proof.
  unfold fill_blanks, py_not, py_sub, py_add. intros H.
  destruct start as [|x], end_ as [|y], duration as [|d]; cbn in H;
    repeat (match type of H with
            | context [if ?c then _ else _] => destruct c; cbn in H
            end);
    try discriminate; inversion H; eauto.
Qed.

(** ** Arrays *)

Lemma chunks_app {A} (c : nat) (l1 l2 : list A) :
  (0 < c)%nat -> length l1 = c -> chunks c (l1 ++ l2) = l1 :: chunks c l2.
Proof.
  intros Hc Hl. unfold chunks. rewrite length_app, Hl.
  replace (c + length l2)%nat with (1 * c + length l2)%nat by lia.
  rewrite Nat.div_add_l by lia. cbn [Nat.add seq map].
  rewrite Nat.mul_0_l, drop_0, take_app_length' by done. f_equal.
  rewrite <- seq_shift, map_map. apply map_ext. intros k.
  replace (S k * c)%nat with (length l1 + k * c)%nat by lia.
  now rewrite drop_app_add.
Qed.

Lemma chunks_concat_replicate {A} (c : nat) (v : list A) :
  (0 < c)%nat -> chunks c (concat (map (replicate c) v)) = map (replicate c) v.
Proof.
  intros Hc. induction v as [|x v IH]; cbn [map concat].
  - unfold chunks. cbn. now rewrite Nat.Div0.div_0_l.
  - rewrite chunks_app, IH; auto using length_replicate.
Qed.




(** The gain profile is one row per point of the curve, the point repeated
    over the channels. *)
Lemma gain_profile_rows b to_gain from_gain d g :
  gain_profile b to_gain from_gain d = Ok g ->
  exists lo hi,
    py_truediv from_gain (PNum (Int 20)) = Ok lo
    /\ py_truediv to_gain (PNum (Int 20)) = Ok hi
    /\ 0 < channels b
    /\ g = {| ncols := Z.to_nat (channels b);
              rows := map (replicate (Z.to_nat (channels b)))
                        (np_logspace lo hi d) |}.
Proof.
  unfold gain_profile, np_repeat, np_reshape. intros H.
  destruct (py_truediv from_gain _) as [lo|]; [|discriminate].
  destruct (py_truediv to_gain _) as [hi|]; [|discriminate].
  cbn [mbind outcome_bind] in H.
  destruct (Z.ltb_spec (channels b) 0); [discriminate|].
  cbn [mbind outcome_bind] in H.
  destruct (Z.leb_spec (channels b) 0); [discriminate|].
  destruct (negb _); [discriminate|]. inversion H.
  exists lo, hi. repeat split; auto.
  now rewrite chunks_concat_replicate by lia.
Qed.


Lemma slice_index_valid n i : 0 <= i <= n -> slice_index n i = i.
Proof. unfold slice_index. destruct (Z.ltb_spec i 0); lia. Qed.

Lemma py_slice_valid {A} (l : list A) (s e : Z) :
  0 <= s -> e <= Z.of_nat (length l) -> s <= e ->
  py_slice l s e = take (Z.to_nat e - Z.to_nat s) (drop (Z.to_nat s) l).
Proof.
  intros. unfold py_slice. now rewrite !slice_index_valid by lia.
Qed.

Lemma length_py_slice_valid {A} (l : list A) (s e : Z) :
  0 <= s -> e <= Z.of_nat (length l) -> s <= e ->
  length (py_slice l s e) = (Z.to_nat e - Z.to_nat s)%nat.
Proof.
  intros. rewrite py_slice_valid, length_take, length_drop by lia. lia.
Qed.

(** Reading a list whose rows [s, e) were replaced. *)
Lemma lookup_splice {A} (l mid : list A) (s e i : nat) :
  (s <= e)%nat -> (e <= length l)%nat -> length mid = (e - s)%nat ->
  (take s l ++ mid ++ drop e l) !! i
  = if (i <? s)%nat then l !! i
    else if (i <? e)%nat then mid !! (i - s)%nat else l !! i.
Proof.
  intros Hse He Hmid.
  destruct (Nat.ltb_spec i s).
  - rewrite lookup_app_l by (rewrite length_take; lia).
    now rewrite lookup_take_lt.
  - rewrite lookup_app_r by (rewrite length_take; lia).
    rewrite length_take, Nat.min_l by lia.
    destruct (Nat.ltb_spec i e).
    + now rewrite lookup_app_l by lia.
    + rewrite lookup_app_r, lookup_drop by lia. f_equal. lia.
Qed.

Lemma length_splice {A} (l mid : list A) (s e : nat) :
  (s <= e)%nat -> (e <= length l)%nat -> length mid = (e - s)%nat ->
  length (take s l ++ mid ++ drop e l) = length l.
Proof.
  intros. rewrite !length_app, length_take, length_drop. lia.
Qed.


Lemma broadcast_to_same r c (g : ndarray) :
  ncols g = c -> length (rows g) = r -> broadcast_to r c g = Ok (rows g).
Proof.
  intros <- <-. unfold broadcast_to. now rewrite !Nat.eqb_refl.
Qed.

(** An in-place operator on a range of rows within the array, with a
    right-hand side of the shape of the range. *)
Lemma inplace_slice_valid op (a g : ndarray) (s e : Z) :
  0 <= s -> s <= e -> e <= Z.of_nat (length (rows a)) ->
  ncols g = ncols a ->
  length (rows g) = (Z.to_nat e - Z.to_nat s)%nat ->
  inplace_slice op a s e g
  = Ok {| ncols := ncols a;
          rows := take (Z.to_nat s) (rows a)
                  ++ zip_with (zip_with op)
                       (take (Z.to_nat e - Z.to_nat s)
                          (drop (Z.to_nat s) (rows a))) (rows g)
                  ++ drop (Z.to_nat e) (rows a) |}.
Proof.
  intros Hs Hse He Hc Hr. unfold inplace_slice.
  rewrite length_py_slice_valid, py_slice_valid, slice_index_valid by lia.
  rewrite broadcast_to_same by auto. cbn [mbind outcome_bind].
  do 4 f_equal. f_equal. lia.
Qed.

Lemma slice_index_range n i : 0 <= n -> 0 <= slice_index n i <= n.
Proof. unfold slice_index. destruct (Z.ltb_spec i 0); lia. Qed.

Lemma broadcast_to_length r c g rhs :
  broadcast_to r c g = Ok rhs -> length rhs = r.
Proof.
  unfold broadcast_to. destruct (negb _); [discriminate|].
  set (wide := if (ncols g =? c)%nat then _ else _).
  destruct (Nat.eqb_spec (length wide) r); [now intros [= <-]|].
  destruct (length wide =? 1)%nat; [|discriminate].
  intros [= <-]. apply length_replicate.
Qed.

Lemma broadcast_to_wf r c g rhs :
  wf_array g -> broadcast_to r c g = Ok rhs ->
  Forall (fun row => length row = c) rhs.
Proof.
  unfold broadcast_to, wf_array. intros Hg.
  destruct (negb _); [discriminate|].
  set (wide := if (ncols g =? c)%nat then _ else _).
  assert (Hw : Forall (fun row => length row = c) wide).
  { unfold wide. destruct (Nat.eqb_spec (ncols g) c) as [<-|]; [done|].
    apply List.Forall_map, Forall_true. intros row. apply length_replicate. }
  destruct (length wide =? r)%nat; [now intros [= <-]|].
  destruct wide as [|w [|]]; cbn; try discriminate.
  intros [= <-]. apply Forall_replicate. now inversion Hw.
Qed.

(** Whatever the arguments, an in-place operator keeps the shape. *)
Lemma inplace_slice_shape op (a g a' : ndarray) (s e : Z) :
  inplace_slice op a s e g = Ok a' ->
  ncols a' = ncols a /\ length (rows a') = length (rows a).
Proof.
  unfold inplace_slice.
  destruct (broadcast_to _ _ g) as [rhs|] eqn:Hb; [|discriminate].
  apply broadcast_to_length in Hb.
  cbn [mbind outcome_bind]. intros [= <-]. cbn [ncols rows]. split; [done|].
  pose proof (slice_index_range (Z.of_nat (length (rows a))) s).
  rewrite !length_app, length_zip_with, Hb, length_take, length_drop.
  unfold py_slice. rewrite length_take, length_drop. lia.
Qed.

Lemma inplace_slice_wf op (a g a' : ndarray) (s e : Z) :
  wf_array a -> wf_array g -> inplace_slice op a s e g = Ok a' -> wf_array a'.
Proof.
  unfold inplace_slice, wf_array. intros Ha Hg.
  destruct (broadcast_to _ _ g) as [rhs|] eqn:Hb; [|discriminate].
  apply broadcast_to_wf in Hb; [|done].
  cbn [mbind outcome_bind]. intros [= <-]. cbn [ncols rows].
  rewrite !Forall_app. repeat split.
  - now apply Forall_take.
  - assert (Hv : Forall (fun r => length r = ncols a) (py_slice (rows a) s e))
      by (unfold py_slice; now apply Forall_take, Forall_drop).
    revert Hv Hb. generalize (py_slice (rows a) s e). intros v Hv.
    revert rhs. induction Hv as [|r v Hr Hv IH]; intros [|r' rhs] Hrhs;
      cbn; try constructor.
    + inversion Hrhs; subst. rewrite length_zip_with. lia.
    + apply IH. now inversion Hrhs.
  - now apply Forall_drop.
Qed.

Lemma imul_slice_scalar_shape (a : ndarray) (s e : Z) (x : Q) :
  ncols (imul_slice_scalar a s e x) = ncols a
  /\ length (rows (imul_slice_scalar a s e x)) = length (rows a).
Proof.
  unfold imul_slice_scalar. cbn [ncols rows]. split; [done|].
  pose proof (slice_index_range (Z.of_nat (length (rows a))) s).
  rewrite !length_app, length_map, length_take, length_drop.
  unfold py_slice. rewrite length_take, length_drop. lia.
Qed.

Lemma imul_slice_scalar_wf (a : ndarray) (s e : Z) (x : Q) :
  wf_array a -> wf_array (imul_slice_scalar a s e x).
Proof.
  unfold imul_slice_scalar, wf_array. cbn [ncols rows]. intros Ha.
  rewrite !Forall_app. repeat split.
  - now apply Forall_take.
  - apply List.Forall_map. unfold py_slice.
    eapply Forall_impl; [apply Forall_take, Forall_drop, Ha|].
    intros r Hr. cbn. now rewrite length_map.
  - now apply Forall_drop.
Qed.





(** ** Overlay on a buffer *)

Lemma py_int_min_ints x y : py_int (py_min (Int x) (Int y)) = Z.min x y.
Proof.
  unfold py_min, num_lt, Qltb. cbn [value inject_Z Qnum Qden].
  destruct (Z.ltb_spec (y * 1) (x * 1)); cbn [py_int]; lia.
Qed.

Lemma with_data_same b : with_data b (_data b) = b.
Proof. now destruct b. Qed.

Lemma after_gain_shape b start end_ gain :
  ncols (_data (after_gain b start end_ gain)) = ncols (_data b)
  /\ length (rows (_data (after_gain b start end_ gain)))
     = length (rows (_data b)).
Proof.
  unfold after_gain. destruct gain as [|g]; [done|].
  destruct (num_is_zero g); [done|]. apply imul_slice_scalar_shape.
Qed.

Lemma after_gain_wf b start end_ gain :
  wf_array (_data b) -> wf_array (_data (after_gain b start end_ gain)).
Proof.
  unfold after_gain. destruct gain as [|g]; [done|].
  destruct (num_is_zero g); [done|]. apply imul_slice_scalar_wf.
Qed.

Lemma after_gain_fields b start end_ gain :
  with_data (after_gain b start end_ gain) = with_data b.
Proof.
  unfold after_gain. destruct gain as [|g]; [done|].
  now destruct (num_is_zero g).
Qed.

Lemma imul_slice_scalar_lookup (a : ndarray) (s e : Z) (x : Q) (i : nat) :
  0 <= s -> s <= e -> e <= Z.of_nat (length (rows a)) ->
  rows (imul_slice_scalar a s e x) !! i
  = if (s <=? Z.of_nat i) && (Z.of_nat i <? e)
    then map (fun v => v * x)%Q <$> rows a !! i
    else rows a !! i.
Proof.
  intros Hs Hse He. unfold imul_slice_scalar. cbn [rows].
  rewrite length_py_slice_valid, py_slice_valid, slice_index_valid by lia.
  replace (Z.to_nat s + (Z.to_nat e - Z.to_nat s))%nat with (Z.to_nat e) by lia.
  rewrite lookup_splice; try lia; cycle 1.
  { rewrite length_map, length_take, length_drop. lia. }
  destruct (Nat.ltb_spec i (Z.to_nat s)), (Z.leb_spec s (Z.of_nat i));
    try lia; [done|].
  destruct (Nat.ltb_spec i (Z.to_nat e)), (Z.ltb_spec (Z.of_nat i) e);
    try lia; [|done].
  cbn [andb]. rewrite list_lookup_fmap, lookup_take_lt, lookup_drop by lia.
  do 2 f_equal. lia.
Qed.

Lemma after_gain_lookup_outside b (s e : Z) gain (i : nat) :
  0 <= s -> s <= e -> e <= Z.of_nat (length (rows (_data b))) ->
  ~ (s <= Z.of_nat i < e) ->
  rows (_data (after_gain b s e gain)) !! i = rows (_data b) !! i.
Proof.
  intros Hs Hse He Hi. unfold after_gain. destruct gain as [|g]; [done|].
  destruct (num_is_zero g); [done|]. cbn [_data with_data].
  rewrite imul_slice_scalar_lookup by done.
  destruct (Z.leb_spec s (Z.of_nat i)), (Z.ltb_spec (Z.of_nat i) e);
    try done; lia.
Qed.

Lemma overlaid_lookup b src_now (s e : Z) gain (i : nat) :
  0 <= s -> s <= e -> e <= Z.of_nat (length (rows (_data b))) ->
  e - s <= Z.of_nat (length (rows (_data src_now))) ->
  rows (_data (overlaid b src_now s e gain)) !! i
  = if (s <=? Z.of_nat i) && (Z.of_nat i <? e)
    then r ← rows (_data (after_gain b s e gain)) !! i;
         y ← rows (_data src_now) !! (i - Z.to_nat s)%nat;
         Some (zip_with Qplus r y)
    else rows (_data (after_gain b s e gain)) !! i.
Proof.
  intros Hs Hse He Hm. unfold overlaid. cbn [_data with_data rows].
  destruct (after_gain_shape b s e gain) as [_ Hl].
  rewrite lookup_splice; try lia; cycle 1.
  { rewrite length_zip_with, !length_take, length_drop. lia. }
  destruct (Nat.ltb_spec i (Z.to_nat s)), (Z.leb_spec s (Z.of_nat i));
    try lia; [done|].
  destruct (Nat.ltb_spec i (Z.to_nat e)), (Z.ltb_spec (Z.of_nat i) e);
    try lia; [|done].
  cbn [andb]. rewrite lookup_zip_with, !lookup_take_lt, lookup_drop by lia.
  now replace (Z.to_nat s + (i - Z.to_nat s))%nat with i by lia.
Qed.

(** Cells *)

Lemma cell_lookup (a : ndarray) (i c : nat) (r : list Q) :
  rows a !! i = Some r -> cell a i c = nth c r 0%Q.
Proof. intros H. unfold cell. now rewrite (nth_lookup_Some _ _ _ _ H). Qed.

Lemma nth_zip_with_Qplus (r y : list Q) (c : nat) :
  length r = length y ->
  nth c (zip_with Qplus r y) 0%Q = (nth c r 0 + nth c y 0)%Q.
Proof.
  revert y c. induction r as [|x r IH]; intros [|x' y] [|c] H; cbn in *;
    try done; try lia. apply IH. lia.
Qed.

Lemma nth_map_scale (r : list Q) (x : Q) (c : nat) :
  (c < length r)%nat ->
  nth c (map (fun v => v * x)%Q r) 0%Q = (nth c r 0 * x)%Q.
Proof.
  revert c. induction r as [|v r IH]; intros [|c] H; cbn in *;
    try done; try lia. apply IH. lia.
Qed.

Lemma overlaid_length b src_now (s e : Z) gain :
  0 <= s -> s <= e -> e <= Z.of_nat (length (rows (_data b))) ->
  e - s <= Z.of_nat (length (rows (_data src_now))) ->
  length (rows (_data (overlaid b src_now s e gain)))
  = length (rows (_data b)).
Proof.
  intros Hs Hse He Hm. unfold overlaid. cbn [_data with_data rows].
  destruct (after_gain_shape b s e gain) as [_ Hl].
  rewrite length_splice; try lia.
  rewrite length_zip_with, !length_take, length_drop. lia.
Qed.

(** ** The 16-bit round trip *)

Lemma concat_chunks {A} (c : nat) (v : list A) (q : nat) :
  length v = (q * c)%nat ->
  concat (map (fun k => take c (drop (k * c) v)) (seq 0 q)) = v.
Proof.
  revert v. induction q as [|q IH]; intros v Hv.
  - destruct v; [done|discriminate].
  - cbn [seq map concat]. rewrite <- seq_shift, map_map.
    rewrite Nat.mul_0_l, drop_0.
    transitivity (take c v ++ drop c v); [|apply take_drop]. f_equal.
    etransitivity; [|apply (IH (drop c v)); rewrite length_drop; lia].
    f_equal. apply map_ext. intros k. now rewrite drop_drop.
Qed.

Lemma concat_reshape (v : list Q) (c : Z) (a : ndarray) :
  np_reshape v c = Ok a -> concat (rows a) = v /\ ncols a = Z.to_nat c.
Proof.
  unfold np_reshape. destruct (Z.leb_spec c 0); [discriminate|].
  destruct (Z.eqb_spec (Z.of_nat (length v) mod c) 0) as [Hm|];
    [|discriminate].
  cbn [negb]. intros [= <-]. cbn [rows ncols]. split; [|done].
  unfold chunks. apply concat_chunks.
  apply Z.mod_divide in Hm; [|lia]. destruct Hm as [k Hk].
  assert (length v = (Z.to_nat k * Z.to_nat c)%nat) as -> by nia.
  rewrite Nat.div_mul by lia. reflexivity.
Qed.

Lemma astype_int16_normalised (z : Z) :
  -32768 <= z <= 32767 ->
  astype_int16 (fl (inject_Z z) / inject_Z (Z.shiftl 1 (2 * 8 - 1)) * 32768)
  = z.
Proof.
  intros Hz. rewrite fl_inject_Z by lia. unfold astype_int16.
  rewrite (Qtrunc_Qeq _ (inject_Z z)); cycle 1.
  { change (inject_Z (Z.shiftl 1 (2 * 8 - 1))) with 32768%Q. field. }
  rewrite Qtrunc_inject_Z. cbv zeta.
  destruct (Z.leb_spec (- 2 ^ 31) z); [|lia].
  destruct (Z.ltb_spec z (2 ^ 31)); [|lia].
  cbn [andb]. rewrite Z.mod_small; lia.
Qed.

Lemma np_reshape_ok (v : list Q) (c : Z) :
  0 < c -> Z.of_nat (length v) mod c = 0 ->
  np_reshape v c = Ok {| ncols := Z.to_nat c; rows := chunks (Z.to_nat c) v |}.
Proof.
  intros Hc Hm. unfold np_reshape. destruct (Z.leb_spec c 0); [lia|].
  now rewrite Hm.
Qed.

Lemma roundtrip_samples (l : list Z) :
  Forall (fun z => -32768 <= z <= 32767) l ->
  map astype_int16
    (map (fun s => s * 32768)%Q
       (map (fun z => fl (inject_Z z) / inject_Z (Z.shiftl 1 (2 * 8 - 1)))%Q
          l))
  = l.
Proof.
  induction 1 as [|z l Hz _ IH]; cbn [map]; [done|].
  now rewrite IH, astype_int16_normalised.
Qed.

(** ** What the mutating methods keep *)

Lemma keeps_same {A} self b (σ : store) (o : outcome A) :
  σ !! self = Some b -> keeps_format self b σ (o, σ).
Proof.
  intros H. exists b. cbn. rewrite insert_id by done.
  repeat split; eauto.
Qed.

Lemma keeps_update {A} self b (σ : store) (o : outcome A) (d : ndarray) :
  ncols d = ncols (_data b) -> length (rows d) = length (rows (_data b)) ->
  (wf_store σ -> wf_array d) ->
  keeps_format self b σ (o, <[self := with_data b d]> σ).
Proof. intros Hc Hl Hw. exists (with_data b d). repeat split; auto. Qed.

Lemma chunks_wf {A} (c q : nat) (v : list A) :
  length v = (q * c)%nat -> Forall (fun r => length r = c) (chunks c v).
Proof.
  intros Hv. unfold chunks. apply List.Forall_map, Forall_forall.
  intros k Hk%elem_of_seq. rewrite length_take, length_drop.
  destruct (Nat.eq_dec c 0%nat) as [->|Hc]; [lia|].
  rewrite Hv, Nat.div_mul in Hk by done. nia.
Qed.

Lemma np_reshape_wf v c a : np_reshape v c = Ok a -> wf_array a.
Proof.
  unfold np_reshape. destruct (Z.leb_spec c 0); [discriminate|].
  destruct (Z.eqb_spec (Z.of_nat (length v) mod c) 0) as [Hm|];
    [|discriminate].
  cbn [negb]. intros [= <-]. unfold wf_array. cbn [rows ncols].
  apply Z.mod_divide in Hm; [|lia]. destruct Hm as [k Hk].
  apply (chunks_wf _ (Z.to_nat k)). nia.
Qed.

Lemma AudioBuffer_init_wf args nb :
  AudioBuffer_init args = Ok nb -> wf_array (_data nb).
Proof.
  unfold AudioBuffer_init.
  destruct args as [seg|data sw fr ch];
    [|destruct data];
    (destruct (np_reshape _ _) as [a|] eqn:Ha; [|discriminate]);
    cbn [mbind outcome_bind]; intros [= <-]; cbn [_data];
    eapply np_reshape_wf; eauto.
Qed.

Lemma gain_profile_wf b to_gain from_gain d g :
  gain_profile b to_gain from_gain d = Ok g -> wf_array g.
Proof.
  intros (lo & hi & _ & _ & _ & ->)%gain_profile_rows.
  unfold wf_array. cbn [rows ncols].
  apply List.Forall_map, Forall_true. intros x. apply length_replicate.
Qed.

Lemma apply_gain_keeps self b to_gain from_gain start end_ (σ : store) :
  σ !! self = Some b ->
  keeps_format self b σ (apply_gain self b to_gain from_gain start end_ σ).
Proof.
  intros Hself. unfold apply_gain.
  destruct (0 <? end_ - start); [|now apply keeps_same].
  destruct (gain_profile b to_gain from_gain (end_ - start)) as [g|e] eqn:Hg;
    [|now apply keeps_same].
  rewrite bind_lift_ok.
  destruct (inplace_slice Qmult (_data b) start end_ g) as [d|e] eqn:Hd;
    [|now apply keeps_same].
  rewrite bind_lift_ok, (set_data_ok _ _ _ _ Hself).
  destruct (inplace_slice_shape _ _ _ _ _ _ Hd) as [Hc Hl].
  apply keeps_update; auto. intros Hσ.
  eapply inplace_slice_wf;
    [exact (Hσ _ _ Hself)|eapply gain_profile_wf; eauto|eauto].
Qed.

Lemma fade_keeps self b to_gain from_gain start end_ duration (σ : store) :
  σ !! self = Some b ->
  keeps_format self b σ (fade self to_gain from_gain start end_ duration σ).
Proof.
  intros Hself. unfold fade.
  destruct (fill_blanks start end_ duration) as [[s e]|x];
    [|now apply keeps_same].
  rewrite bind_lift_ok, (bind_deref _ _ _ _ Hself).
  pose proof (apply_gain_keeps self b to_gain from_gain
                (to_frame b s) (to_frame b e) σ Hself) as Hk.
  unfold mbind, M_bind.
  destruct (apply_gain _ _ _ _ _ _ σ) as [[[]|x] σ']; exact Hk.
Qed.

Lemma len_state self (σ : store) : (__len__ self σ).2 = σ.
Proof.
  unfold __len__, mbind, M_bind, deref. destruct (σ !! self); [|done].
  unfold lift. now destruct (py_truediv _ _).
Qed.

Lemma builtin_len_state self (σ : store) : (builtin_len self σ).2 = σ.
Proof.
  unfold builtin_len, mbind, M_bind. pose proof (len_state self σ) as Hl.
  destruct (__len__ self σ) as [[l|x] σ']; cbn in Hl; subst σ'; [|done].
  unfold lift. now destruct (py_len l).
Qed.

Lemma fade_out_keeps self b duration (σ : store) :
  σ !! self = Some b -> keeps_format self b σ (fade_out self duration σ).
Proof.
  intros Hself. unfold fade_out. unfold mbind, M_bind.
  pose proof (builtin_len_state self σ) as Hl.
  destruct (builtin_len self σ) as [[l|x] σ']; cbn in Hl; subst σ';
    [|now apply keeps_same].
  now apply fade_keeps.
Qed.

Lemma read_buf_state buf (σ : store) : (read_buf buf σ).2 = σ.
Proof.
  destruct buf as [nb|a]; [done|]. cbn. unfold deref. now destruct (σ !! a).
Qed.

Lemma read_buf_wf buf (σ : store) src :
  match buf with inl nb => wf_array (_data nb) | inr _ => True end ->
  wf_store σ -> (read_buf buf σ).1 = Ok src -> wf_array (_data src).
Proof.
  destruct buf as [nb|a]; cbn.
  - now intros H _ [= <-].
  - intros _ Hσ. unfold deref. destruct (σ !! a) eqn:Ha; [|discriminate].
    cbn. intros [= <-]. eauto.
Qed.

Lemma wf_store_insert (σ : store) a b :
  wf_store σ -> wf_array (_data b) -> wf_store (<[a := b]> σ).
Proof.
  intros Hσ Hb a' b'. destruct (decide (a = a')) as [->|Hne].
  - rewrite lookup_insert_eq. now intros [= <-].
  - rewrite lookup_insert_ne by done. apply Hσ.
Qed.

(** Line 138 when the power does not overflow. *)
Lemma gain_step_run {B} self b start end_ gain (k : unit -> M B) (σ : store) :
  σ !! self = Some b ->
  scaling_raises gain = false ->
  (match gain with
   | PNum g =>
       if num_is_zero g then mret tt
       else
         f ← lift (py_pow10_scalar (value g / 20));
         set_data self (imul_slice_scalar (_data b) start end_ f)
   | PNone => mret tt
   end ≫= k) σ
  = k tt (<[self := after_gain b start end_ gain]> σ).
Proof.
  intros Hself Hok. unfold after_gain, scaling_raises in *.
  destruct gain as [|g]; [|destruct (num_is_zero g)];
    try (rewrite bind_ret, insert_id by done; reflexivity).
  cbn [negb andb] in Hok. unfold py_pow10_scalar. rewrite Hok.
  unfold mbind, M_bind, lift. now rewrite (set_data_ok _ _ _ _ Hself).
Qed.

(** Line 138 when it does: the error leaves the store as it was. *)
Lemma gain_step_raise {B} self b start end_ gain (k : unit -> M B) (σ : store) :
  scaling_raises gain = true ->
  (match gain with
   | PNum g =>
       if num_is_zero g then mret tt
       else
         f ← lift (py_pow10_scalar (value g / 20));
         set_data self (imul_slice_scalar (_data b) start end_ f)
   | PNone => mret tt
   end ≫= k) σ
  = (Raise OverflowError, σ).
Proof.
  unfold scaling_raises. destruct gain as [|g]; [discriminate|].
  destruct (num_is_zero g); [discriminate|]. cbn [negb andb]. intros Hov.
  unfold py_pow10_scalar. rewrite Hov. reflexivity.
Qed.

Lemma np_slice_wf a start stop : wf_array a -> wf_array (np_slice a start stop).
Proof.
  unfold wf_array, np_slice, py_slice. cbn [rows ncols]. intros H.
  now apply Forall_take, Forall_drop.
Qed.

Lemma mix_keeps self b buf position gain (σ : store) :
  σ !! self = Some b ->
  match buf with inl nb => wf_array (_data nb) | inr _ => True end ->
  keeps_format self b σ (mix self b buf position gain σ).
Proof.
  intros Hself Hbuf. unfold mix. unfold mbind at 1, M_bind at 1.
  pose proof (read_buf_state buf σ) as Hst.
  destruct (read_buf buf σ) as [[src|x] σ0]; cbn in Hst; subst σ0;
    [|now apply keeps_same].
  set (start := py_int (frame_count b position)).
  set (end_ := py_int (py_min _ _)). cbv zeta.
  destruct (start <? end_); [|now apply keeps_same].
  unfold mbind at 1, M_bind at 1. unfold mbind at 1.
  destruct (scaling_raises gain) eqn:Hov;
    [rewrite gain_step_raise by done; now apply keeps_same|].
  rewrite (gain_step_run _ _ _ _ _ _ _ Hself Hov).
  set (b1 := after_gain b start end_ gain).
  set (σ1 := <[self := b1]> σ).
  assert (H1 : σ1 !! self = Some b1) by apply lookup_insert_eq.
  destruct (after_gain_shape b start end_ gain) as [Hc1 Hl1].
  fold b1 in Hc1, Hl1.
  assert (Hfields : with_data b1 = with_data b) by apply after_gain_fields.
  assert (Hk1 : forall A (o : outcome A), keeps_format self b σ (o, σ1)).
  { intros A o. exists b1. cbn. split; [done|]. split.
    - pose proof (f_equal (fun f => f (_data b1)) Hfields) as E. cbn in E.
      rewrite with_data_same in E. rewrite E. repeat split; auto.
    - intros Hσ. apply after_gain_wf. eauto. }
  rewrite (bind_deref _ _ _ _ H1). unfold mbind at 1, M_bind at 1.
  pose proof (read_buf_state buf σ1) as Hst.
  pose proof (read_buf_wf buf σ1) as Hwf.
  destruct (read_buf buf σ1) as [[src1|x] σ0]; cbn in Hst, Hwf; subst σ0;
    [|apply Hk1].
  destruct (inplace_slice Qplus (_data b1) start end_ _) as [d|x] eqn:Hd;
    [|apply Hk1].
  rewrite bind_lift_ok. unfold mbind, M_bind.
  rewrite (set_data_ok _ _ _ _ H1). unfold σ1.
  rewrite insert_insert_eq, Hfields.
  destruct (inplace_slice_shape _ _ _ _ _ _ Hd) as [Hc Hl].
  apply keeps_update; try congruence.
  intros Hσ. assert (Hw1 : wf_array (_data b1)) by (apply after_gain_wf; eauto).
  eapply inplace_slice_wf; [exact Hw1| |exact Hd].
  apply np_slice_wf, Hwf; auto. now apply wf_store_insert.
Qed.

Lemma overlay_keeps self b seg position gain (σ : store) :
  σ !! self = Some b ->
  keeps_format self b σ (overlay self seg position gain σ).
Proof.
  intros Hself. unfold overlay. rewrite (bind_deref _ _ _ _ Hself).
  destruct seg as [seg|a].
  - destruct (AudioBuffer_init (FromSegment (conform b seg)))
      as [nb|x] eqn:Hinit;
      [|now apply keeps_same].
    change (keeps_format self b σ (mix self b (inl nb) position gain σ)).
    apply mix_keeps; [done|]. eapply AudioBuffer_init_wf; eauto.
  - rewrite bind_ret. now apply mix_keeps.
Qed.

(** ** Running an overlay *)

Lemma source_now_shape self seg b sb start end_ gain (σ : store) :
  σ !! self = Some b -> source_state σ b seg = Some sb ->
  length (rows (_data (source_now self seg b sb start end_ gain)))
  = length (rows (_data sb))
  /\ ncols (_data (source_now self seg b sb start end_ gain))
     = ncols (_data sb).
Proof.
  intros Hself Hsrc. unfold source_now. destruct seg as [s|a]; [done|].
  destruct (decide (a = self)) as [->|]; [|done].
  destruct (after_gain_shape b start end_ gain) as [-> ->].
  cbn in Hsrc. split; congruence.
Qed.

Lemma mix_run (self : addr) (b : AudioBuffer) (buf : AudioBuffer + addr)
    (position gain : pyval) (sb src_now : AudioBuffer) (σ : store) :
  σ !! self = Some b ->
  read_buf buf σ = (Ok sb, σ) ->
  scaling_raises gain = false ->
  let start := py_int (frame_count b position) in
  let n := Z.of_nat (length (rows (_data b))) in
  let m := Z.of_nat (length (rows (_data sb))) in
  let end_ := Z.min (start + m) n in
  let σ1 := <[self := after_gain b start end_ gain]> σ in
  read_buf buf σ1 = (Ok src_now, σ1) ->
  length (rows (_data src_now)) = length (rows (_data sb)) ->
  ncols (_data src_now) = ncols (_data b) ->
  0 <= start ->
  mix self b buf position gain σ
  = if start <? end_
    then (Ok self, <[self := overlaid b src_now start end_ gain]> σ)
    else (Ok self, σ).
Proof.
  intros Hself Hread0 Hov start n m end_ σ1 Hread1 Hm Hcs Hstart. unfold mix.
  unfold mbind at 1, M_bind at 1. rewrite Hread0.
  cbn [frame_count num_add]. rewrite py_int_min_ints.
  fold start n m end_.
  destruct (Z.ltb_spec start end_) as [Hlt|]; [|reflexivity].
  unfold mbind at 1, M_bind at 1. unfold mbind at 1.
  rewrite (gain_step_run _ _ _ _ _ _ _ Hself Hov).
  set (b1 := after_gain b start end_ gain) in *.
  assert (H1 : σ1 !! self = Some b1) by apply lookup_insert_eq.
  fold σ1. rewrite (bind_deref _ _ _ _ H1).
  unfold mbind at 1, M_bind at 1. rewrite Hread1.
  destruct (after_gain_shape b start end_ gain) as [Hc1 Hl1].
  fold b1 in Hc1, Hl1.
  rewrite inplace_slice_valid; try lia; cycle 1.
  { cbn [np_slice ncols]. congruence. }
  { cbn [np_slice rows]. rewrite length_py_slice_valid by lia. lia. }
  rewrite bind_lift_ok. unfold mbind, M_bind.
  rewrite (set_data_ok _ _ _ _ H1).
  unfold σ1. rewrite insert_insert_eq. unfold overlaid.
  fold b1. unfold b1 at 1. rewrite after_gain_fields.
  cbn [np_slice rows]. rewrite py_slice_valid by lia.
  rewrite Hc1, drop_0. replace (Z.to_nat (end_ - start) - Z.to_nat 0)%nat
    with (Z.to_nat end_ - Z.to_nat start)%nat by lia.
  reflexivity.
Qed.

Lemma overlay_run (self : addr) (seg : source) (position gain : pyval)
    (b sb : AudioBuffer) (σ : store) :
  σ !! self = Some b -> source_state σ b seg = Some sb ->
  ncols (_data sb) = ncols (_data b) ->
  scaling_raises gain = false ->
  let start := py_int (frame_count b position) in
  let n := Z.of_nat (length (rows (_data b))) in
  let m := Z.of_nat (length (rows (_data sb))) in
  let end_ := Z.min (start + m) n in
  0 <= start ->
  overlay self seg position gain σ
  = if start <? end_
    then (Ok self,
          <[self := overlaid b (source_now self seg b sb start end_ gain)
                      start end_ gain]> σ)
    else (Ok self, σ).
Proof.
  intros Hself Hsrc Hcols Hov start n m end_ Hstart.
  destruct (source_now_shape self seg b sb start end_ gain σ Hself Hsrc)
    as [Hl Hc].
  unfold overlay. rewrite (bind_deref _ _ _ _ Hself).
  destruct seg as [s|a]; cbn [source_state] in Hsrc.
  - destruct (AudioBuffer_init (FromSegment (conform b s))) as [nb|];
      [|discriminate].
    injection Hsrc as ->.
    change (mix self b (inl sb) position gain σ = 
            if start <? end_
            then (Ok self, <[self := overlaid b sb start end_ gain]> σ)
            else (Ok self, σ)).
    apply mix_run; try done; congruence.
  - rewrite bind_ret. apply mix_run; try done; try congruence.
    + cbn. unfold deref. now rewrite Hsrc.
    + cbn. unfold deref, source_now.
      destruct (decide (a = self)) as [->|Hne].
      * now rewrite lookup_insert_eq.
      * rewrite lookup_insert_ne by done. now rewrite Hsrc.
Qed.

(** ** The constructor *)

Lemma AudioBuffer_init_eq (args : init_args) :
  AudioBuffer_init args
  = d ← np_reshape (as_floats (init_data args)) (init_channels args);
    Ok {| sample_width := init_sample_width args;
          frame_rate := init_frame_rate args;
          channels := init_channels args; _data := d |}.
Proof. destruct args as [seg|[w v|v] sw fr ch]; reflexivity. Qed.

Lemma length_chunks {A} (c : nat) (v : list A) :
  length (chunks c v) = (length v / c)%nat.
Proof. unfold chunks. now rewrite length_map, length_seq. Qed.

Lemma lookup_chunks {A} (c : nat) (v : list A) (i : nat) :
  (i < length v / c)%nat -> chunks c v !! i = Some (take c (drop (i * c) v)).
Proof.
  intros Hi. unfold chunks. rewrite list_lookup_fmap, lookup_seq_lt by done.
  reflexivity.
Qed.

Lemma nth_chunk {A} (c i k : nat) (v : list A) (d : A) :
  (k < c)%nat -> nth k (take c (drop (i * c) v)) d = nth (i * c + k) v d.
Proof.
  intros Hk. rewrite !nth_lookup, lookup_take_lt, lookup_drop by done.
  reflexivity.
Qed.

Lemma whole_frames (len c : Z) :
  0 < c -> 0 <= len -> len mod c = 0 ->
  Z.to_nat len = (Z.to_nat (len / c) * Z.to_nat c)%nat.
Proof.
  intros Hc Hl Hm. pose proof (Z.div_mod len c ltac:(lia)) as Hd.
  rewrite Hm, Z.add_0_r in Hd. assert (0 <= len / c) by (apply Z.div_pos; lia).
  rewrite <- Z2Nat.inj_mul by lia. f_equal. lia.
Qed.

Lemma chunks_concat {A} (c : nat) (l : list (list A)) :
  (0 < c)%nat -> Forall (fun r => length r = c) l -> chunks c (concat l) = l.
Proof.
  intros Hc. induction 1 as [|r l Hr _ IH]; cbn [concat].
  - unfold chunks. cbn. now rewrite Nat.Div0.div_0_l.
  - now rewrite chunks_app, IH.
Qed.

Lemma length_concat_uniform {A} (c : nat) (l : list (list A)) :
  Forall (fun r => length r = c) l -> length (concat l) = (length l * c)%nat.
Proof.
  induction 1 as [|r l Hr _ IH]; cbn [concat length]; [done|].
  rewrite length_app, IH, Hr. lia.
Qed.

Lemma nth_concat_uniform {A} (c i k : nat) (l : list (list A)) (d : A) :
  Forall (fun r => length r = c) l -> (k < c)%nat ->
  nth (i * c + k) (concat l) d = nth k (nth i l []) d.
Proof.
  intros Hl Hk. revert i. induction Hl as [|r l Hr _ IH]; intros i.
  - cbn. now destruct (i * c + k)%nat, i, k.
  - cbn [concat]. destruct i as [|i]; cbn [nth].
    + rewrite Nat.mul_0_l, Nat.add_0_l. apply app_nth1. lia.
    + rewrite app_nth2 by lia. rewrite <- IH. f_equal. lia.
Qed.

(** ** Truncation *)

Lemma Qtrunc_frac (a : Z) (p : positive) : Qtrunc (a # p) = Z.quot a (Zpos p).
Proof. reflexivity. Qed.

Lemma Qtrunc_mono p q : (p <= q)%Q -> Qtrunc p <= Qtrunc q.
Proof.
  unfold Qle, Qtrunc. destruct p as [a b], q as [c d]; cbn [Qnum Qden].
  intros H.
  rewrite <- (Z.quot_mul_cancel_r a (Zpos b) (Zpos d)) by lia.
  rewrite <- (Z.quot_mul_cancel_r c (Zpos d) (Zpos b)) by lia.
  replace (Zpos d * Zpos b) with (Zpos b * Zpos d) by lia.
  apply Z.quot_le_mono; lia.
Qed.

Lemma shiftl_full_scale (w : Z) :
  1 <= w -> Z.shiftl 1 (w * 8 - 1) = 2 ^ (8 * w - 1) /\ 0 < 2 ^ (8 * w - 1).
Proof.
  intros Hw. rewrite Z.shiftl_1_l. replace (w * 8 - 1) with (8 * w - 1) by lia.
  split; [done|]. apply Z.pow_pos_nonneg; lia.
Qed.

(** An integer of at most four bytes is a double. *)
Lemma full_scale_small (w z : Z) :
  1 <= w <= 4 -> - 2 ^ (8 * w - 1) <= z < 2 ^ (8 * w - 1) -> Z.abs z < 2 ^ 53.
Proof.
  intros Hw Hz.
  assert (2 ^ (8 * w - 1) <= 2 ^ 31) by (apply Z.pow_le_mono_r; lia). lia.
Qed.

Lemma normalised_unit_range (z P : Z) :
  0 < P -> - P <= z < P -> unit_range (inject_Z z / inject_Z P).
Proof.
  intros HP Hz. destruct P as [|p|p]; try lia.
  unfold unit_range, Qle, Qlt, Qdiv, Qmult, Qinv, inject_Z.
  cbn [Qnum Qden]. lia.
Qed.

Lemma Qtrunc_scaled (z P : Z) :
  0 < P ->
  Qtrunc (inject_Z z / inject_Z P * 32768) = Z.quot (z * 32768) P.
Proof.
  intros HP. destruct P as [|p|p]; try lia.
  rewrite (Qtrunc_Qeq _ (z * 32768 # p)); [reflexivity|].
  unfold Qeq, Qdiv, Qmult, Qinv, inject_Z. cbn [Qnum Qden]. lia.
Qed.

Lemma quot_scaled_range (z P : Z) :
  0 < P -> - P <= z < P -> -32768 <= Z.quot (z * 32768) P <= 32767.
Proof.
  intros HP Hz. destruct (Z.le_gt_cases 0 z).
  - rewrite Z.quot_div_nonneg by lia. split.
    + assert (0 <= z * 32768 / P) by (apply Z.div_pos; lia). lia.
    + assert (z * 32768 / P < 32768); [|lia].
      apply Z.div_lt_upper_bound; lia.
  - replace (z * 32768) with (- (- z * 32768)) by lia.
    rewrite Z.quot_opp_l, Z.quot_div_nonneg by lia.
    assert (0 <= - z * 32768 / P) by (apply Z.div_pos; lia).
    assert (- z * 32768 / P <= 32768); [|lia].
    apply Z.div_le_upper_bound; lia.
Qed.

Lemma astype_int16_small (q : Q) :
  -32768 <= Qtrunc q <= 32767 -> astype_int16 q = Qtrunc q.
Proof.
  intros H. unfold astype_int16.
  destruct (Z.leb_spec (- 2 ^ 31) (Qtrunc q)); [|lia].
  destruct (Z.ltb_spec (Qtrunc q) (2 ^ 31)); [|lia].
  cbn [andb]. rewrite Z.mod_small; lia.
Qed.

Lemma astype_int16_range (q : Q) : -32768 <= astype_int16 q <= 32767.
Proof.
  unfold astype_int16.
  pose proof (Z.mod_pos_bound (Qtrunc q + 32768) 65536 ltac:(lia)).
  destruct (_ && _); lia.
Qed.

Lemma chunks_map {A B} (f : A -> B) (c : nat) (v : list A) :
  chunks c (map f v) = map (map f) (chunks c v).
Proof.
  unfold chunks. rewrite length_map, map_map. apply map_ext. intros k.
  change (take c (drop (k * c) (f <$> v)) = f <$> take c (drop (k * c) v)).
  now rewrite fmap_take, fmap_drop.
Qed.

(** Truncation toward zero loses less than one unit and never gains
    magnitude. *)
Lemma Qtrunc_error (q : Q) :
  (Qabs (q - inject_Z (Qtrunc q)) < 1)%Q
  /\ (Qabs (inject_Z (Qtrunc q)) <= Qabs q)%Q.
Proof.
  destruct q as [a p]. unfold Qtrunc. cbn [Qnum Qden].
  pose proof (Z.quot_rem' a (Zpos p)) as Hd.
  pose proof (Z.rem_bound_abs a (Zpos p) ltac:(lia)) as Hr.
  assert (Hk : Z.abs (Z.quot a (Zpos p)) * Zpos p <= Z.abs a).
  { rewrite <- Z.quot_abs by lia. change (Z.abs (Zpos p)) with (Zpos p).
    rewrite Z.quot_div_nonneg, Z.mul_comm by lia.
    apply Z.mul_div_le. lia. }
  revert Hd Hr Hk. generalize (Z.quot a (Zpos p)), (Z.rem a (Zpos p)).
  intros k r Hd Hr Hk.
  unfold Qlt, Qle, Qabs, Qminus, Qplus, Qopp, inject_Z. cbn [Qnum Qden].
  rewrite Pos.mul_1_r.
  assert (E : a * 1 + - k * Zpos p = r) by lia. rewrite E.
  split; lia.
Qed.

Lemma unit_range_trunc (x : Q) :
  unit_range x -> -32768 <= Qtrunc (x * 32768) <= 32767.
Proof.
  intros [Hlo Hhi]. split.
  - rewrite <- (Qtrunc_inject_Z (-32768)). apply Qtrunc_mono.
    change (inject_Z (-32768)) with (-1 * 32768)%Q.
    apply Qmult_le_compat_r; [done|discriminate].
  - assert (Qtrunc (x * 32768) < 32768); [|lia].
    assert (H : (x * 32768 < 32768)%Q).
    { change 32768%Q with (1 * 32768)%Q at 2.
      apply Qmult_lt_compat_r; [reflexivity|done]. }
    destruct (x * 32768)%Q as [a p]. unfold Qlt in H. cbn [Qnum Qden] in H.
    unfold Qtrunc. cbn [Qnum Qden].
    destruct (Z.le_gt_cases 0 a).
    + rewrite Z.quot_div_nonneg by lia. apply Z.div_lt_upper_bound; lia.
    + assert (a ÷ Zpos p <= 0); [|lia].
      replace a with (- - a) by lia. rewrite Z.quot_opp_l by lia.
      assert (0 <= (- a) ÷ Zpos p) by (apply Z.quot_pos; lia). lia.
Qed.

(** One sample through [segment] and back through the constructor. *)
Lemma quantise_error (x : Q) :
  let y := (inject_Z (Qtrunc (x * 32768)) / 32768)%Q in
  (Qabs (x - y) < 1 # 32768)%Q /\ (Qabs y <= Qabs x)%Q.
Proof.
  intros y. destruct (Qtrunc_error (x * 32768)) as [He Hm].
  set (k := inject_Z (Qtrunc (x * 32768))) in *.
  assert (Hy : (y == k * (1 # 32768))%Q) by (unfold y; field).
  split.
  - assert (E : (x - y == (x * 32768 - k) * (1 # 32768))%Q)
      by (rewrite Hy; field).
    rewrite E, Qabs_Qmult.
    change (Qabs (1 # 32768)) with (1 # 32768)%Q.
    exact (Qmult_lt_compat_r _ 1 (1 # 32768) eq_refl He).
  - rewrite Hy, Qabs_Qmult.
    change (Qabs (1 # 32768)) with (1 # 32768)%Q.
    assert (E : (Qabs x == Qabs (x * 32768) * (1 # 32768))%Q).
    { rewrite Qabs_Qmult. change (Qabs 32768) with 32768%Q. field. }
    rewrite E. apply Qmult_le_compat_r; [done|discriminate].
Qed.

(** ** Bounds of a fade *)



(** The factor of [frame_count], [frame_rate / 1000.0], has the sign of the
    frame rate. *)
Lemma frames_per_ms_nonneg (rate : Z) :
  0 <= rate -> (0 <= fl (fl (inject_Z rate) / 1000))%Q.
Proof.
  intros Hr. apply fl_nonneg. apply Qle_shift_div_l; [reflexivity|].
  rewrite Qmult_0_l. apply fl_nonneg. now apply (inject_Z_le 0).
Qed.

Lemma frame_count_mono (b : AudioBuffer) (x y : num) :
  0 <= frame_rate b -> (fl (value x) <= fl (value y))%Q ->
  py_int (frame_count b (PNum x)) <= py_int (frame_count b (PNum y)).
Proof.
  intros Hr Hxy. cbn [frame_count py_int].
  apply Qtrunc_mono, fl_mono, Qmult_le_compat_r; [done|].
  now apply frames_per_ms_nonneg.
Qed.

Lemma to_frame_le (b : AudioBuffer) (x y : num) :
  0 <= frame_rate b -> (fl (value x) <= fl (value y))%Q ->
  to_frame b (PNum x) <= to_frame b (PNum y).
Proof.
  intros Hr Hxy. rewrite !to_frame_clamp.
  pose proof (frame_count_mono b x y Hr Hxy). lia.
Qed.



(** ** Unit gains *)

Lemma Qmult_1_r_eq (x : Q) : (x * 1)%Q = x.
Proof.
  destruct x as [a p]. unfold Qmult. cbn [Qnum Qden].
  now rewrite Z.mul_1_r, Pos.mul_1_r.
Qed.






(** ** The duration and [fade_out] *)

Lemma len_run self (b : AudioBuffer) (σ : store) :
  σ !! self = Some b -> frame_rate b <> 0 ->
  __len__ self σ
  = (Ok (len_ms (Z.of_nat (length (rows (_data b)))) (frame_rate b)), σ).
Proof.
  intros Hself Hr. unfold __len__. rewrite (bind_deref _ _ _ _ Hself).
  unfold py_truediv, frame_count. cbn [num_is_zero value].
  destruct (Z.eqb_spec (frame_rate b) 0); [done|].
  now rewrite bind_lift_ok.
Qed.

Lemma len_zero_rate self (b : AudioBuffer) (σ : store) :
  σ !! self = Some b -> frame_rate b = 0 ->
  __len__ self σ = (Raise ZeroDivisionError, σ).
Proof.
  intros Hself Hr. unfold __len__. rewrite (bind_deref _ _ _ _ Hself).
  unfold py_truediv. cbn [num_is_zero]. now rewrite Hr.
Qed.

Lemma builtin_len_run self (b : AudioBuffer) (σ : store) :
  σ !! self = Some b -> frame_rate b <> 0 ->
  builtin_len self σ
  = (py_len (len_ms (Z.of_nat (length (rows (_data b)))) (frame_rate b)), σ).
Proof.
  intros Hself Hr. unfold builtin_len, mbind, M_bind.
  now rewrite (len_run _ _ _ Hself Hr).
Qed.

Lemma builtin_len_zero_rate self (b : AudioBuffer) (σ : store) :
  σ !! self = Some b -> frame_rate b = 0 ->
  builtin_len self σ = (Raise ZeroDivisionError, σ).
Proof.
  intros Hself Hr. unfold builtin_len, mbind, M_bind.
  now rewrite (len_zero_rate _ _ _ Hself Hr).
Qed.

Lemma py_len_ok (l : Z) : 0 <= l <= maxsize -> py_len l = Ok l.
Proof.
  intros Hl. unfold py_len. destruct (Z.ltb_spec l 0); [lia|].
  destruct (Z.ltb_spec maxsize l); [lia|]. reflexivity.
Qed.

(** For the buffers and frame rates that occur the length is taken. *)
Lemma builtin_len_positive self (b : AudioBuffer) (σ : store) :
  σ !! self = Some b -> 0 < frame_rate b < 2 ^ 53 ->
  let n := Z.of_nat (length (rows (_data b))) in
  n <= 2 ^ 40 ->
  builtin_len self σ = (Ok (len_ms n (frame_rate b)), σ)
  /\ 0 <= len_ms n (frame_rate b) <= 2 ^ 50.
Proof.
  intros Hself Hr n Hn.
  destruct (len_round n (frame_rate b) Hr ltac:(lia)) as (_ & _ & Hl).
  fold (len_ms n (frame_rate b)) in Hl. split; [|exact Hl].
  rewrite (builtin_len_run _ _ _ Hself) by lia. fold n.
  rewrite py_len_ok; [reflexivity|]. unfold maxsize. lia.
Qed.





Lemma map_scale_unit (r : list Q) : map (fun x => x * 1)%Q r = r.
Proof.
  induction r as [|x r IH]; cbn [map]; [done|]. now rewrite IH, Qmult_1_r_eq.
Qed.

(** ** In-place operators on any slice *)

Lemma length_py_slice {A} (l : list A) (s e : Z) :
  let n := Z.of_nat (length l) in
  length (py_slice l s e)
  = (Z.to_nat (slice_index n e) - Z.to_nat (slice_index n s))%nat.
Proof.
  intros n. unfold py_slice. fold n.
  pose proof (slice_index_range n s ltac:(lia)).
  pose proof (slice_index_range n e ltac:(lia)).
  rewrite length_take, length_drop. lia.
Qed.


Lemma inplace_slice_rows_mismatch op (a g : ndarray) (s e : Z) :
  length (rows g) <> length (py_slice (rows a) s e) ->
  length (rows g) <> 1%nat ->
  inplace_slice op a s e g = Raise ValueError.
Proof.
  intros Hr H1. unfold inplace_slice, broadcast_to.
  destruct (negb _); [reflexivity|].
  set (wide := if (ncols g =? ncols a)%nat then _ else _).
  assert (Hw : length wide = length (rows g)).
  { unfold wide. destruct (_ =? _)%nat; [done|apply length_map]. }
  rewrite Hw.
  destruct (Nat.eqb_spec (length (rows g)) (length (py_slice (rows a) s e)));
    [done|].
  destruct (Nat.eqb_spec (length (rows g)) 1); [done|]. reflexivity.
Qed.

(** An in-place operator on any slice, negative bounds included, with a
    right-hand side of the shape of the slice. *)
Lemma inplace_slice_same_shape op (a g : ndarray) (s e : Z) :
  let n := Z.of_nat (length (rows a)) in
  let i := Z.to_nat (slice_index n s) in
  let j := Z.to_nat (slice_index n e) in
  (i <= j)%nat -> ncols g = ncols a -> length (rows g) = (j - i)%nat ->
  inplace_slice op a s e g
  = Ok {| ncols := ncols a;
          rows := take i (rows a)
                  ++ zip_with (zip_with op) (take (j - i) (drop i (rows a)))
                       (rows g)
                  ++ drop j (rows a) |}.
Proof.
  intros n i j Hij Hc Hr. unfold inplace_slice.
  rewrite broadcast_to_same; [|done|rewrite length_py_slice; fold n i j; lia].
  cbn [mbind outcome_bind]. rewrite length_py_slice. fold n i j.
  unfold py_slice. fold n i j. do 4 f_equal. f_equal. lia.
Qed.

(** A right-hand side of one column, broadcast over the columns of the
    slice. *)
Lemma inplace_slice_mono op (a g : ndarray) (s e : Z) :
  0 <= s -> s <= e -> e <= Z.of_nat (length (rows a)) ->
  ncols g = 1%nat -> ncols a <> 1%nat ->
  length (rows g) = (Z.to_nat e - Z.to_nat s)%nat ->
  inplace_slice op a s e g
  = Ok {| ncols := ncols a;
          rows := take (Z.to_nat s) (rows a)
                  ++ zip_with (zip_with op)
                       (take (Z.to_nat e - Z.to_nat s)
                          (drop (Z.to_nat s) (rows a)))
                       (map (fun row => replicate (ncols a) (hd 0%Q row))
                          (rows g))
                  ++ drop (Z.to_nat e) (rows a) |}.
Proof.
  intros Hs Hse He Hg Ha Hr. unfold inplace_slice, broadcast_to.
  rewrite length_py_slice_valid, py_slice_valid, slice_index_valid by lia.
  rewrite Hg. destruct (Nat.eqb_spec 1 (ncols a)); [lia|].
  cbn [Nat.eqb orb negb]. rewrite length_map, Hr, Nat.eqb_refl.
  cbn [mbind outcome_bind]. do 4 f_equal. f_equal. lia.
Qed.

(** ** The steps of an overlay *)

Lemma mix_steps (self : addr) (b : AudioBuffer) (buf : AudioBuffer + addr)
    (position gain : pyval) (sb src_now : AudioBuffer) (σ : store) :
  σ !! self = Some b ->
  read_buf buf σ = (Ok sb, σ) ->
  let start := py_int (frame_count b position) in
  let n := Z.of_nat (length (rows (_data b))) in
  let m := Z.of_nat (length (rows (_data sb))) in
  let end_ := Z.min (start + m) n in
  let b1 := after_gain b start end_ gain in
  let σ1 := <[self := b1]> σ in
  read_buf buf σ1 = (Ok src_now, σ1) ->
  mix self b buf position gain σ
  = if start <? end_
    then if scaling_raises gain then (Raise OverflowError, σ)
         else match inplace_slice Qplus (_data b1) start end_
                      (np_slice (_data src_now) 0 (end_ - start)) with
              | Ok d => (Ok self, <[self := with_data b d]> σ)
              | Raise e => (Raise e, σ1)
              end
    else (Ok self, σ).
Proof.
  intros Hself Hread0 start n m end_ b1 σ1 Hread1. unfold mix.
  unfold mbind at 1, M_bind at 1. rewrite Hread0.
  cbn [frame_count num_add]. rewrite py_int_min_ints.
  fold start n m end_.
  destruct (Z.ltb_spec start end_) as [Hlt|]; [|reflexivity].
  unfold mbind at 1, M_bind at 1. unfold mbind at 1.
  destruct (scaling_raises gain) eqn:Hov;
    [now rewrite gain_step_raise by done|].
  rewrite (gain_step_run _ _ _ _ _ _ _ Hself Hov). fold b1 σ1.
  assert (H1 : σ1 !! self = Some b1) by apply lookup_insert_eq.
  rewrite (bind_deref _ _ _ _ H1).
  unfold mbind at 1, M_bind at 1. rewrite Hread1.
  destruct (inplace_slice Qplus _ _ _ _) as [d|x]; [|reflexivity].
  rewrite bind_lift_ok. unfold mbind, M_bind.
  rewrite (set_data_ok _ _ _ _ H1). unfold σ1.
  rewrite insert_insert_eq. unfold b1. now rewrite after_gain_fields.
Qed.

Lemma overlay_steps (self : addr) (seg : source) (position gain : pyval)
    (b sb : AudioBuffer) (σ : store) :
  σ !! self = Some b -> source_state σ b seg = Some sb ->
  let start := py_int (frame_count b position) in
  let n := Z.of_nat (length (rows (_data b))) in
  let m := Z.of_nat (length (rows (_data sb))) in
  let end_ := Z.min (start + m) n in
  let b1 := after_gain b start end_ gain in
  overlay self seg position gain σ
  = if start <? end_
    then if scaling_raises gain then (Raise OverflowError, σ)
         else match inplace_slice Qplus (_data b1) start end_
                      (np_slice
                         (_data (source_now self seg b sb start end_ gain))
                         0 (end_ - start)) with
              | Ok d => (Ok self, <[self := with_data b d]> σ)
              | Raise e => (Raise e, <[self := b1]> σ)
              end
    else (Ok self, σ).
Proof.
  intros Hself Hsrc start n m end_ b1.
  unfold overlay. rewrite (bind_deref _ _ _ _ Hself).
  destruct seg as [s|a]; cbn [source_state] in Hsrc.
  - destruct (AudioBuffer_init (FromSegment (conform b s))) as [nb|];
      [|discriminate].
    injection Hsrc as ->.
    match goal with
    | |- _ = ?R => change (mix self b (inl sb) position gain σ = R)
    end.
    now apply mix_steps.
  - rewrite bind_ret. apply mix_steps; try done.
    + cbn. unfold deref. now rewrite Hsrc.
    + cbn. unfold deref, source_now.
      destruct (decide (a = self)) as [->|Hne].
      * now rewrite lookup_insert_eq.
      * rewrite lookup_insert_ne by done. now rewrite Hsrc.
Qed.

Lemma scaling_raises_falsy gain :
  py_not gain = true -> scaling_raises gain = false.
Proof.
  unfold py_not, scaling_raises. destruct gain as [|g]; [done|].
  now intros ->.
Qed.

Lemma after_gain_falsy b start end_ gain :
  py_not gain = true -> after_gain b start end_ gain = b.
Proof.
  unfold after_gain, py_not. destruct gain as [|g]; [done|]. now intros ->.
Qed.

Lemma source_now_falsy self seg b sb start end_ gain (σ : store) :
  σ !! self = Some b -> source_state σ b seg = Some sb ->
  py_not gain = true -> source_now self seg b sb start end_ gain = sb.
Proof.
  intros Hself Hsrc Hg. unfold source_now. destruct seg as [s|a]; [done|].
  destruct (decide (a = self)) as [->|]; [|done].
  rewrite after_gain_falsy by done. cbn in Hsrc. congruence.
Qed.

(** ** The invariant of the class *)

Lemma wf_buffers_store (σ : store) : wf_buffers σ -> wf_store σ.
Proof. intros H a b Hab. now destruct (H a b Hab). Qed.

Lemma keeps_wf_buffers {A} self b (σ : store) (r : outcome A * store) :
  σ !! self = Some b -> wf_buffers σ -> keeps_format self b σ r ->
  wf_buffers r.2.
Proof.
  intros Hself Hσ (b' & -> & (Hch & _ & _ & Hc & _) & Hwf) a x.
  destruct (decide (self = a)) as [->|Hne].
  - rewrite lookup_insert_eq. intros [= <-].
    destruct (Hσ _ _ Hself) as (_ & Hcb & Hpos).
    split; [apply Hwf, wf_buffers_store, Hσ|]. split; lia.
  - rewrite lookup_insert_ne by done. apply Hσ.
Qed.

Lemma AudioBuffer_init_wf_buffer args nb :
  AudioBuffer_init args = Ok nb -> wf_buffer nb.
Proof.
  intros H. split; [now apply (AudioBuffer_init_wf args)|].
  rewrite AudioBuffer_init_eq in H. unfold np_reshape in H.
  destruct (Z.leb_spec (init_channels args) 0); [discriminate|].
  destruct (negb _); [discriminate|]. cbn [mbind outcome_bind] in H.
  injection H as <-. cbn [_data ncols channels]. lia.
Qed.

Lemma fade_dangling self to_gain from_gain start end_ duration (σ : store) :
  σ !! self = None ->
  (fade self to_gain from_gain start end_ duration σ).2 = σ.
Proof.
  intros Hself. unfold fade.
  destruct (fill_blanks start end_ duration) as [[s e]|x]; [|done].
  rewrite bind_lift_ok. unfold mbind, M_bind, deref. now rewrite Hself.
Qed.

Lemma fade_out_dangling self duration (σ : store) :
  σ !! self = None -> (fade_out self duration σ).2 = σ.
Proof.
  intros Hself. unfold fade_out, builtin_len, __len__.
  unfold mbind at 1, M_bind at 1. unfold mbind at 1, M_bind at 1.
  unfold mbind at 1, M_bind at 1. unfold deref. now rewrite Hself.
Qed.

Lemma overlay_dangling self seg position gain (σ : store) :
  σ !! self = None -> (overlay self seg position gain σ).2 = σ.
Proof.
  intros Hself. unfold overlay, mbind, M_bind, deref. now rewrite Hself.
Qed.

Lemma segment_state self (σ : store) : (segment self σ).2 = σ.
Proof. unfold segment, mbind, M_bind, deref. now destruct (σ !! self). Qed.

(** ** The effect of a fade *)





(** ** The cells an overlay writes *)

Lemma overlaid_cell (b src : AudioBuffer) (s e : Z) (gain : pyval)
    (i c : nat) :
  wf_array (_data b) -> wf_array (_data src) ->
  ncols (_data src) = ncols (_data b) ->
  0 <= s -> e <= Z.of_nat (length (rows (_data b))) ->
  e - s <= Z.of_nat (length (rows (_data src))) ->
  s <= Z.of_nat i < e -> (c < ncols (_data b))%nat ->
  cell (_data (overlaid b src s e gain)) i c
  = (cell (_data (after_gain b s e gain)) i c
     + cell (_data src) (i - Z.to_nat s) c)%Q.
Proof.
  intros Hwb Hws Hcols Hs He Hm Hi Hc.
  destruct (after_gain_shape b s e gain) as [Hc1 Hl1].
  pose proof (after_gain_wf b s e gain Hwb) as Hw1.
  destruct (lookup_lt_is_Some_2 (rows (_data (after_gain b s e gain))) i)
    as [r Hr]; [lia|].
  destruct (lookup_lt_is_Some_2 (rows (_data src)) (i - Z.to_nat s))
    as [y Hy]; [lia|].
  assert (Hrl : length r = ncols (_data b)).
  { eapply Forall_lookup_1 in Hw1; eauto. lia. }
  assert (Hyl : length y = ncols (_data b)).
  { eapply Forall_lookup_1 in Hws; eauto. lia. }
  erewrite cell_lookup; cycle 1.
  { rewrite overlaid_lookup by lia.
    destruct (Z.leb_spec s (Z.of_nat i)), (Z.ltb_spec (Z.of_nat i) e);
      try lia. cbn [andb]. rewrite Hr. cbn. rewrite Hy. reflexivity. }
  rewrite nth_zip_with_Qplus by lia.
  now rewrite (cell_lookup _ _ _ _ Hr), (cell_lookup _ _ _ _ Hy).
Qed.

Lemma after_gain_lookup (b : AudioBuffer) (s e : Z) (gain : pyval) (j : nat) :
  0 <= s -> s <= e -> e <= Z.of_nat (length (rows (_data b))) ->
  rows (_data (after_gain b s e gain)) !! j
  = if (s <=? Z.of_nat j) && (Z.of_nat j <? e)
    then map (fun v => v * gain_factor gain)%Q <$> rows (_data b) !! j
    else rows (_data b) !! j.
Proof.
  intros Hs Hse He.
  assert (Hunit : rows (_data b) !! j
            = if (s <=? Z.of_nat j) && (Z.of_nat j <? e)
              then map (fun v => v * 1)%Q <$> rows (_data b) !! j
              else rows (_data b) !! j).
  { destruct (_ && _); [|done].
    destruct (rows (_data b) !! j) as [r|]; [|done]. cbn.
    now rewrite map_scale_unit. }
  unfold after_gain, gain_factor. destruct gain as [|g]; [exact Hunit|].
  destruct (num_is_zero g); [exact Hunit|]. cbn [_data with_data].
  now apply imul_slice_scalar_lookup.
Qed.

Lemma after_gain_cell (b : AudioBuffer) (s e : Z) (gain : pyval) (i c : nat) :
  wf_array (_data b) ->
  0 <= s -> s <= e -> e <= Z.of_nat (length (rows (_data b))) ->
  (i < length (rows (_data b)))%nat -> (c < ncols (_data b))%nat ->
  cell (_data (after_gain b s e gain)) i c
  = if (s <=? Z.of_nat i) && (Z.of_nat i <? e)
    then (cell (_data b) i c * gain_factor gain)%Q
    else cell (_data b) i c.
Proof.
  intros Hwf Hs Hse He Hi Hc.
  destruct (lookup_lt_is_Some_2 (rows (_data b)) i Hi) as [r Hr].
  assert (Hrl : length r = ncols (_data b))
    by (eapply Forall_lookup_1 in Hwf; eauto).
  pose proof (after_gain_lookup b s e gain i Hs Hse He) as Hl.
  rewrite Hr in Hl. rewrite (cell_lookup _ _ _ _ Hr).
  destruct (_ && _); cbn in Hl; rewrite (cell_lookup _ _ _ _ Hl); [|done].
  now rewrite nth_map_scale by lia.
Qed.

(** An overlay of a source of the same format from a start frame that is
    not negative, over a range that is not empty, with a scaling that does
    not overflow: what every cell becomes. *)
Lemma overlay_cells (self : addr) (seg : source) (position gain : pyval)
    (b sb : AudioBuffer) (σ : store) :
  σ !! self = Some b -> source_state σ b seg = Some sb ->
  wf_buffer b -> wf_buffer sb -> channels sb = channels b ->
  scaling_raises gain = false ->
  let start := py_int (frame_count b position) in
  let n := Z.of_nat (length (rows (_data b))) in
  let m := Z.of_nat (length (rows (_data sb))) in
  let end_ := Z.min (start + m) n in
  0 <= start -> start < end_ ->
  exists b',
    overlay self seg position gain σ = (Ok self, <[self := b']> σ)
    /\ length (rows (_data b')) = length (rows (_data b))
    /\ (forall i : nat,
          ~ (start <= Z.of_nat i < end_) ->
          rows (_data b') !! i = rows (_data b) !! i)
    /\ (forall i c : nat,
          start <= Z.of_nat i < end_ -> (c < ncols (_data b))%nat ->
          let k := (i - Z.to_nat start)%nat in
          (seg <> Buffer self ->
             cell (_data b') i c
             = (cell (_data b) i c * gain_factor gain + cell (_data sb) k c)%Q)
          /\ (seg = Buffer self ->
             cell (_data b') i c
             = (cell (_data b) i c * gain_factor gain
                + (if (start <=? Z.of_nat k) && (Z.of_nat k <? end_)
                   then cell (_data b) k c * gain_factor gain
                   else cell (_data b) k c))%Q)).
Proof.
  intros Hself Hsrc (Hwb & Hcb & _) (Hws & Hcs & _) Hch Hov
    start n m end_ Hstart Hlt.
  assert (Hcols : ncols (_data sb) = ncols (_data b)) by lia.
  pose proof (overlay_run self seg position gain b sb σ
                Hself Hsrc Hcols Hov Hstart) as Hrun.
  cbv zeta in Hrun. fold start n m end_ in Hrun.
  destruct (source_now_shape self seg b sb start end_ gain σ Hself Hsrc)
    as [Hlen Hcn].
  destruct (Z.ltb_spec start end_) as [_|]; [|lia].
  eexists. split; [exact Hrun|]. split; [|split].
  - apply overlaid_length; lia.
  - intros i Hi. rewrite overlaid_lookup by lia.
    destruct (Z.leb_spec start (Z.of_nat i)),
      (Z.ltb_spec (Z.of_nat i) end_); try lia;
      apply after_gain_lookup_outside; lia.
  - intros i c Hi Hc k.
    assert (Hcell : cell (_data (after_gain b start end_ gain)) i c
                    = (cell (_data b) i c * gain_factor gain)%Q).
    { rewrite after_gain_cell by (done || lia).
      destruct (Z.leb_spec start (Z.of_nat i)),
        (Z.ltb_spec (Z.of_nat i) end_); try lia. reflexivity. }
    split.
    + intros Hne.
      rewrite overlaid_cell; try lia; try done; cycle 1.
      { unfold source_now. destruct seg as [s|a]; [done|].
        destruct (decide (a = self)); [now apply after_gain_wf|done]. }
      rewrite Hcell. f_equal. unfold source_now.
      destruct seg as [s|a]; [done|].
      destruct (decide (a = self)) as [->|]; [done|done].
    + intros ->. cbn in Hsrc. assert (sb = b) as -> by congruence.
      unfold source_now in *. destruct (decide (self = self)) as [_|]; [|done].
      rewrite overlaid_cell; try lia; try done; cycle 1.
      { now apply after_gain_wf. }
      rewrite Hcell. f_equal. fold k.
      apply after_gain_cell; try done; unfold k; lia.
Qed.

(** An overlay whose scaling overflows. *)
Lemma overlay_overflow (self : addr) (seg : source) (position gain : pyval)
    (b sb : AudioBuffer) (σ : store) :
  σ !! self = Some b -> source_state σ b seg = Some sb ->
  scaling_raises gain = true ->
  let start := py_int (frame_count b position) in
  let n := Z.of_nat (length (rows (_data b))) in
  let m := Z.of_nat (length (rows (_data sb))) in
  overlay self seg position gain σ
  = if start <? Z.min (start + m) n then (Raise OverflowError, σ)
    else (Ok self, σ).
Proof.
  intros Hself Hsrc Hov start n m.
  rewrite (overlay_steps _ _ _ _ _ _ _ Hself Hsrc). fold start n m.
  now rewrite Hov.
Qed.

(** ** Whole seconds *)

Lemma len_ms_whole (k rate : Z) :
  rate <> 0 -> Z.abs (1000 * k) < 2 ^ 53 -> len_ms (k * rate) rate = 1000 * k.
Proof.
  intros Hr Hk. unfold len_ms.
  assert (Hnz : ~ (inject_Z rate == 0)%Q)
    by (unfold Qeq, inject_Z; cbn [Qnum Qden]; lia).
  rewrite (fl_Qeq (inject_Z (k * rate) / inject_Z rate) (inject_Z k)); cycle 1.
  { rewrite inject_Z_mult. field. exact Hnz. }
  rewrite fl_inject_Z by lia.
  rewrite (fl_Qeq (1000 * inject_Z k) (inject_Z (1000 * k)))
    by now rewrite inject_Z_mult.
  rewrite fl_inject_Z by lia. apply py_round_inject_Z.
Qed.

(** * The properties of the specification *)

(** C1 (as the code has it): [fade_in] hands [start=0] to [fade], which takes
    the zero for a missing start and computes [end - duration] with the
    missing [end]: the call raises [TypeError] for every buffer and every
    duration, and the buffer is left as it was. *)
Theorem fade_in_raises (self : addr) (duration : pyval) (σ : store) :
  fade_in self duration σ = (Raise TypeError, σ).
Proof. reflexivity. Qed.






(** C7 (amended): for a source of the same format, a start frame that is not
    negative, a range that is not empty and a truthy gain [g] whose factor
    does not overflow, every sample of the target in [start, end) becomes
    its old value times [10 ** (g / 20)] plus the sample of the source at
    the frame [i - start], the source being read after the scaling (which
    matters only when a buffer is overlaid on itself); a factor that
    overflows makes the call raise [OverflowError] instead, with nothing
    written; with [g = -20] the factor is exactly one tenth. *)
Theorem overlay_ducks_then_mixes (self : addr) (seg : source)
    (position : pyval) (g : num) (b sb : AudioBuffer) (σ : store) :
  σ !! self = Some b -> source_state σ b seg = Some sb ->
  wf_buffer b -> wf_buffer sb -> channels sb = channels b ->
  num_is_zero g = false ->
  let start := py_int (frame_count b position) in
  let n := Z.of_nat (length (rows (_data b))) in
  let m := Z.of_nat (length (rows (_data sb))) in
  let end_ := Z.min (start + m) n in
  let factor := py_pow10 (value g / 20) in
  0 <= start -> start < end_ ->
  (pow10_overflows (value g / 20) = false ->
   exists b',
     overlay self seg position (PNum g) σ = (Ok self, <[self := b']> σ)
     /\ (forall i c : nat,
           start <= Z.of_nat i < end_ -> (c < ncols (_data b))%nat ->
           let k := (i - Z.to_nat start)%nat in
           (seg <> Buffer self ->
              cell (_data b') i c
              = (cell (_data b) i c * factor + cell (_data sb) k c)%Q)
           /\ (seg = Buffer self ->
              cell (_data b') i c
              = (cell (_data b) i c * factor
                 + (if (start <=? Z.of_nat k) && (Z.of_nat k <? end_)
                    then cell (_data b) k c * factor
                    else cell (_data b) k c))%Q)))
  /\ (pow10_overflows (value g / 20) = true ->
      overlay self seg position (PNum g) σ = (Raise OverflowError, σ))
  /\ py_pow10 (value (Int (-20)) / 20) = 1 # 10
  /\ pow10_overflows (value (Int (-20)) / 20) = false.
Proof.
  intros Hself Hsrc Hwb Hws Hch Hg start n m end_ factor Hstart Hlt.
  split; [|split; [|split; reflexivity]].
  - intros Hov.
    assert (Hsc : scaling_raises (PNum g) = false)
      by (unfold scaling_raises; now rewrite Hg, Hov).
    destruct (overlay_cells self seg position (PNum g) b sb σ Hself Hsrc Hwb
                Hws Hch Hsc Hstart Hlt) as (b' & Hrun & _ & _ & Hin).
    exists b'. split; [exact Hrun|].
    intros i c Hi Hc k. specialize (Hin i c Hi Hc). cbv zeta in Hin.
    unfold gain_factor in Hin. rewrite Hg in Hin. exact Hin.
  - intros Hov.
    rewrite (overlay_overflow self seg position (PNum g) b sb σ Hself Hsrc)
      by (unfold scaling_raises; now rewrite Hg, Hov).
    fold start n m end_. destruct (Z.ltb_spec start end_); [done|lia].
Qed.

(** C8: a buffer built from a 16-bit segment (samples divided by [2^15]) and
    converted back at once (times 32768, cast to 16 bits) gives the segment
    again: every sample is reproduced exactly, so within any quantization
    error. *)
Theorem segment_round_trip (seg : AudioSegment) (σ : store) :
  seg_sample_width seg = 2 ->
  0 < seg_channels seg ->
  Z.of_nat (length (seg_samples seg)) mod seg_channels seg = 0 ->
  Forall (fun z => -32768 <= z <= 32767) (seg_samples seg) ->
  exists σ',
    (a ← AudioBuffer_new (FromSegment seg); segment a) σ = (Ok seg, σ').
Proof.
  intros Hsw Hc Hm Hrange. destruct seg as [sw fr ch samples]. cbn in *.
  subst sw. eexists. unfold mbind at 1, M_bind, AudioBuffer_new.
  unfold AudioBuffer_init, get_array_of_samples.
  cbn [seg_sample_width seg_frame_rate seg_channels seg_samples].
  rewrite np_reshape_ok by (rewrite ?length_map; done).
  cbn [mbind outcome_bind]. unfold segment.
  erewrite bind_deref by apply lookup_insert_eq.
  cbn [_data rows sample_width frame_rate channels mret M_ret].
  unfold chunks. erewrite concat_chunks; cycle 1.
  { rewrite length_map. apply Z.mod_divide in Hm; [|lia].
    destruct Hm as [k Hk].
    assert (length samples = (Z.to_nat k * Z.to_nat ch)%nat) as -> by nia.
    now rewrite Nat.div_mul by lia. }
  now rewrite roundtrip_samples.
Qed.

(** C9 (amended): for a positive frame rate (below [2^53]) and a buffer of
    at most [2^40] frames, [len] returns what
    [round(1000 * (frame_count() / frame_rate))] gives in doubles: an
    integer within half a millisecond of the quotient
    [1000 * frame_count() / frame_rate], and the rounding of that quotient
    unless the quotient lies midway between two integers; [len] raises a
    division error exactly when the frame rate is zero; 44100 frames at
    44100 frames per second are 1000 milliseconds; with a negative frame
    rate and a millisecond of frames or more the builtin refuses the
    negative length with [ValueError]. *)
Theorem len_is_rounded_duration (self : addr) (b : AudioBuffer) (σ : store) :
  σ !! self = Some b ->
  let n := Z.of_nat (length (rows (_data b))) in
  let rate := frame_rate b in
  (0 < rate < 2 ^ 53 -> n <= 2 ^ 40 ->
     exists l,
       builtin_len self σ = (Ok l, σ)
       /\ (Qabs (1000 * inject_Z n / inject_Z rate - inject_Z l) <= 1 # 2)%Q
       /\ ((2000 * n) mod (2 * rate) <> rate -> l = spec_len_ms n rate))
  /\ (builtin_len self σ = (Raise ZeroDivisionError, σ) <-> rate = 0)
  /\ (rate = 44100 -> n = 44100 -> builtin_len self σ = (Ok 1000, σ))
  /\ (rate < 0 -> - rate <= 1000 * n ->
      builtin_len self σ = (Raise ValueError, σ)).
Proof.
  intros Hself n rate. split; [|split; [split|split]].
  - intros Hr Hn.
    destruct (builtin_len_positive self b σ Hself Hr Hn) as [Hrun _].
    destruct (len_round n rate Hr ltac:(lia)) as (Hhalf & Htie & _).
    exists (len_ms n rate). split; [exact Hrun|]. split; [exact Hhalf|].
    exact Htie.
  - intros H. destruct (Z.eq_dec rate 0) as [|Hr]; [done|].
    rewrite (builtin_len_run _ _ _ Hself Hr) in H. unfold py_len in H.
    repeat (destruct (_ <? _) in H); discriminate.
  - intros Hr. now apply (builtin_len_zero_rate _ b).
  - intros Hr Hn. rewrite (builtin_len_run _ _ _ Hself) by (fold rate; lia).
    fold n rate. rewrite Hr, Hn. reflexivity.
  - intros Hr Hn. rewrite (builtin_len_run _ _ _ Hself) by (fold rate; lia).
    fold n rate. pose proof (len_negative n rate Hr Hn) as Hl.
    fold (len_ms n rate) in Hl. unfold py_len.
    destruct (Z.ltb_spec (len_ms n rate) 0); [reflexivity|lia].
Qed.

(** C10: whatever they are given and whether they return or raise, [fade],
    [fade_in], [fade_out] and [overlay] write nothing but the samples of the
    buffer they are called on: its [channels], [frame_rate] and
    [sample_width] and the shape of its sample matrix (frame count and
    channel dimension) are as before. *)
Theorem mutators_keep_format (self : addr) (b : AudioBuffer) (σ : store) :
  σ !! self = Some b ->
  (forall to_gain from_gain start end_ duration,
     keeps_format self b σ
       (fade self to_gain from_gain start end_ duration σ))
  /\ (forall duration, keeps_format self b σ (fade_in self duration σ))
  /\ (forall duration, keeps_format self b σ (fade_out self duration σ))
  /\ (forall seg position gain,
        keeps_format self b σ (overlay self seg position gain σ)).
Proof.
  intros Hself. repeat split; intros.
  - now apply fade_keeps.
  - now apply fade_keeps.
  - now apply fade_out_keeps.
  - now apply overlay_keeps.
Qed.

(** * Further properties of the code *)

(** ** The constructor *)

(** X1: when [channels] is positive and divides the number of samples,
    [__init__] succeeds; the buffer has the format fields it was given (those
    of the segment, if any), one row per frame, [channels] columns in every
    row, and the flat data are read frame by frame: sample [i * channels + c]
    is channel [c] of frame [i]. *)
Theorem init_builds_whole_frames (args : init_args) :
  let flat := as_floats (init_data args) in
  let ch := init_channels args in
  0 < ch ->
  Z.of_nat (length flat) mod ch = 0 ->
  exists b,
    AudioBuffer_init args = Ok b
    /\ wf_buffer b
    /\ sample_width b = init_sample_width args
    /\ frame_rate b = init_frame_rate args
    /\ channels b = ch
    /\ Z.of_nat (length (rows (_data b))) * ch = Z.of_nat (length flat)
    /\ (forall i c : nat,
          Z.of_nat c < ch ->
          cell (_data b) i c = nth (i * Z.to_nat ch + c) flat 0%Q).
Proof.
  intros flat ch Hch Hm. rewrite AudioBuffer_init_eq. fold flat ch.
  rewrite np_reshape_ok by done. cbn [mbind outcome_bind].
  pose proof (whole_frames _ _ Hch (Nat2Z.is_nonneg _) Hm) as Hlen.
  rewrite Nat2Z.id in Hlen.
  eexists. split; [reflexivity|]. cbn [_data rows ncols sample_width
    frame_rate channels].
  split; [|split; [done|split; [done|split; [done|split]]]].
  - split; [|cbn [_data ncols channels]; lia].
    unfold wf_array. cbn [_data rows ncols]. eapply chunks_wf, Hlen.
  - rewrite length_chunks, Hlen, Nat.div_mul by lia.
    rewrite Nat2Z.inj_mul. lia.
  - intros i c Hc. unfold cell. cbn [rows].
    destruct (Nat.lt_ge_cases i (length flat / Z.to_nat ch)) as [Hi|Hi].
    + rewrite (nth_lookup_Some _ _ _ _ (lookup_chunks _ _ _ Hi)).
      apply nth_chunk. lia.
    + rewrite (nth_overflow (chunks _ _)) by (now rewrite length_chunks).
      rewrite (nth_overflow flat); [now destruct c|].
      rewrite Hlen, Nat.div_mul in Hi by lia. nia.
Qed.

(** X2: when [channels] is not positive or does not divide the number of
    samples, the reshape of line 33 fails: [__init__] raises [ValueError]
    and no object is created; and a constructor that succeeds was given a
    positive [channels] that divides the number of samples. *)
Theorem init_rejects_partial_frames (args : init_args) :
  let count := Z.of_nat (length (as_floats (init_data args))) in
  let ch := init_channels args in
  (ch <= 0 \/ count mod ch <> 0 ->
   AudioBuffer_init args = Raise ValueError
   /\ forall σ : store, AudioBuffer_new args σ = (Raise ValueError, σ))
  /\ (forall b, AudioBuffer_init args = Ok b -> 0 < ch /\ count mod ch = 0).
Proof.
  intros count ch.
  assert (Hbad : ch <= 0 \/ count mod ch <> 0 ->
                 AudioBuffer_init args = Raise ValueError).
  { intros H. rewrite AudioBuffer_init_eq. fold ch. unfold np_reshape.
    destruct (Z.leb_spec ch 0); [done|]. fold count.
    destruct (Z.eqb_spec (count mod ch) 0); [lia|done]. }
  split.
  - intros H. split; [now apply Hbad|].
    intros σ. unfold AudioBuffer_new. now rewrite (Hbad H).
  - intros b Hb. destruct (Z.le_gt_cases ch 0) as [Hle|Hpos];
      [rewrite Hbad in Hb by auto; discriminate|].
    destruct (Z.eq_dec (count mod ch) 0) as [Hz|Hnz]; [done|].
    rewrite Hbad in Hb by auto. discriminate.
Qed.

(** X3: integer samples of at most four bytes ([w] bytes, so that the
    conversion to a double is exact) within the range of their item size are
    normalised into [-1, 1): every sample of the buffer built from them is
    at least [-1] and less than [1]. *)
Theorem init_normalises_into_unit_range (args : init_args) (w : Z)
    (v : list Z) (b : AudioBuffer) :
  init_data args = IntArray w v ->
  1 <= w <= 4 ->
  Forall (fun z => - 2 ^ (8 * w - 1) <= z < 2 ^ (8 * w - 1)) v ->
  AudioBuffer_init args = Ok b ->
  Forall (Forall unit_range) (rows (_data b)).
Proof.
  intros Hdata [Hw Hw4] Hv. rewrite AudioBuffer_init_eq, Hdata.
  cbn [as_floats].
  destruct (shiftl_full_scale w Hw) as [-> HP].
  unfold np_reshape. destruct (_ <=? 0); [discriminate|].
  destruct (negb _); [discriminate|]. cbn [mbind outcome_bind].
  intros [= <-]. cbn [_data rows]. unfold chunks.
  apply List.Forall_map, Forall_true. intros k.
  apply Forall_take, Forall_drop, List.Forall_map.
  eapply Forall_impl; [exact Hv|]. intros z Hz. cbn beta in *.
  rewrite fl_inject_Z by (apply (full_scale_small w); lia).
  now apply normalised_unit_range.
Qed.

(** ** Conversions *)

(** X4: integer samples of item size [w] bytes, four at most, within the
    range of that size, come out of [segment] rescaled to 16 bits: the
    constructor divides by [2^(8w-1)] and [segment] always multiplies by
    [32768], so sample [z] becomes [z * 32768] divided by [2^(8w-1)],
    truncated toward zero, while the format fields (the sample width among
    them) are those given.  One-byte samples come back multiplied by 256,
    two-byte samples unchanged, four-byte samples divided by 65536. *)
Theorem int_samples_come_back_as_16_bit (args : init_args) (w : Z)
    (v : list Z) (σ : store) :
  init_data args = IntArray w v ->
  1 <= w <= 4 ->
  0 < init_channels args ->
  Z.of_nat (length v) mod init_channels args = 0 ->
  Forall (fun z => - 2 ^ (8 * w - 1) <= z < 2 ^ (8 * w - 1)) v ->
  (exists σ',
     (a ← AudioBuffer_new args; segment a) σ
     = (Ok {| seg_sample_width := init_sample_width args;
              seg_frame_rate := init_frame_rate args;
              seg_channels := init_channels args;
              seg_samples :=
                map (fun z => Z.quot (z * 32768) (2 ^ (8 * w - 1))) v |}, σ'))
  /\ (forall z, w = 1 -> Z.quot (z * 32768) (2 ^ (8 * w - 1)) = 256 * z)
  /\ (forall z, w = 2 -> Z.quot (z * 32768) (2 ^ (8 * w - 1)) = z)
  /\ (forall z, w = 4 ->
        Z.quot (z * 32768) (2 ^ (8 * w - 1)) = Z.quot z 65536).
Proof.
  intros Hdata [Hw Hw4] Hch Hm Hv. split; [|split; [|split]].
  - eexists. unfold mbind at 1, M_bind, AudioBuffer_new.
    rewrite AudioBuffer_init_eq, Hdata. cbn [as_floats].
    rewrite np_reshape_ok by (rewrite ?length_map; done).
    cbn [mbind outcome_bind]. unfold segment.
    erewrite bind_deref by apply lookup_insert_eq.
    cbn [_data rows sample_width frame_rate channels].
    unfold mret, M_ret. do 3 f_equal.
    unfold chunks. erewrite concat_chunks; cycle 1.
    { rewrite length_map.
      pose proof (whole_frames _ _ Hch (Nat2Z.is_nonneg _) Hm) as Hlen.
      rewrite Nat2Z.id in Hlen. revert Hlen.
      generalize (Z.to_nat (Z.of_nat (length v) / init_channels args)).
      intros q ->. now rewrite Nat.div_mul by lia. }
    rewrite !map_map. destruct (shiftl_full_scale w Hw) as [-> HP].
    apply Forall_fmap_ext_1. eapply Forall_impl; [exact Hv|].
    intros z Hz. cbn beta in *.
    rewrite fl_inject_Z by (apply (full_scale_small w); lia).
    rewrite astype_int16_small; rewrite Qtrunc_scaled by done;
      [reflexivity|now apply quot_scaled_range].
  - intros z ->. change (2 ^ (8 * 1 - 1)) with 128.
    replace (z * 32768) with (256 * z * 128) by lia.
    apply Z.quot_mul; lia.
  - intros z ->. change (2 ^ (8 * 2 - 1)) with 32768.
    apply Z.quot_mul; lia.
  - intros z ->. change (2 ^ (8 * 4 - 1)) with (65536 * 32768).
    apply Z.quot_mul_cancel_r; lia.
Qed.

(** X5: [segment] reads the buffer and writes nothing; for a buffer with
    samples in [-1, 1) the segment has the buffer's format fields and frames
    times channels samples, every one a 16-bit value, laid out frame by
    frame: sample [i * channels + c] is the sample of channel [c] of frame
    [i], times 32768, truncated toward zero. *)
Theorem segment_flattens_frames (self : addr) (b : AudioBuffer) (σ : store) :
  σ !! self = Some b ->
  wf_array (_data b) ->
  Forall (Forall unit_range) (rows (_data b)) ->
  exists seg,
    segment self σ = (Ok seg, σ)
    /\ seg_sample_width seg = sample_width b
    /\ seg_frame_rate seg = frame_rate b
    /\ seg_channels seg = channels b
    /\ length (seg_samples seg)
       = (length (rows (_data b)) * ncols (_data b))%nat
    /\ Forall (fun z => -32768 <= z <= 32767) (seg_samples seg)
    /\ (forall i c : nat,
          (i < length (rows (_data b)))%nat -> (c < ncols (_data b))%nat ->
          nth (i * ncols (_data b) + c) (seg_samples seg) 0
          = Qtrunc (cell (_data b) i c * 32768)).
Proof.
  intros Hself Hwf Hrange. eexists. split.
  { unfold segment. rewrite (bind_deref _ _ _ _ Hself). reflexivity. }
  cbn [seg_sample_width seg_frame_rate seg_channels seg_samples].
  do 3 (split; [reflexivity|]). split; [|split].
  - rewrite !length_map. now apply length_concat_uniform.
  - apply List.Forall_map, Forall_true. intros q. apply astype_int16_range.
  - intros i c Hi Hc.
    destruct (lookup_lt_is_Some_2 (rows (_data b)) i Hi) as [r Hr].
    assert (Hrl : length r = ncols (_data b))
      by (eapply Forall_lookup_1 in Hwf; eauto).
    assert (Hx : unit_range (cell (_data b) i c)).
    { rewrite (cell_lookup _ _ _ _ Hr).
      eapply Forall_lookup_1 in Hrange; [|exact Hr].
      destruct (lookup_lt_is_Some_2 r c ltac:(lia)) as [v Hv].
      rewrite (nth_lookup_Some _ _ _ _ Hv).
      eapply Forall_lookup_1 in Hrange; eauto. }
    rewrite <- (astype_int16_small _ (unit_range_trunc _ Hx)).
    change 0 with (astype_int16 (0 * 32768)%Q) at 1.
    rewrite map_nth. f_equal.
    rewrite (map_nth (fun s => s * 32768)%Q _ 0%Q). f_equal.
    now apply nth_concat_uniform.
Qed.

(** X6: a buffer with 16-bit sample width and samples in [-1, 1), turned
    into a segment and that segment into a buffer again, keeps its format and
    shape; every sample comes back truncated toward zero to a multiple of
    [1/32768]: it moves by less than [1/32768] and never away from zero. *)
Theorem buffer_round_trip_quantises (self : addr) (b : AudioBuffer)
    (σ : store) :
  σ !! self = Some b ->
  wf_buffer b ->
  sample_width b = 2 ->
  Forall (Forall unit_range) (rows (_data b)) ->
  exists seg b',
    segment self σ = (Ok seg, σ)
    /\ AudioBuffer_init (FromSegment seg) = Ok b'
    /\ same_format b b'
    /\ (forall i c : nat,
          (i < length (rows (_data b)))%nat -> (c < ncols (_data b))%nat ->
          let x := cell (_data b) i c in
          let y := cell (_data b') i c in
          y = (inject_Z (Qtrunc (x * 32768)) / 32768)%Q
          /\ (Qabs (x - y) < 1 # 32768)%Q
          /\ (Qabs y <= Qabs x)%Q).
Proof.
  intros Hself (Hwf & Hcols & Hch) Hsw Hrange.
  set (h := fun x : Q =>
              (fl (inject_Z (astype_int16 (x * 32768)))
               / inject_Z (Z.shiftl 1 (2 * 8 - 1)))%Q).
  assert (Hlen : length (concat (rows (_data b)))
                 = (length (rows (_data b)) * Z.to_nat (channels b))%nat).
  { rewrite (length_concat_uniform _ _ Hwf). f_equal. lia. }
  exists {| seg_sample_width := sample_width b;
            seg_frame_rate := frame_rate b;
            seg_channels := channels b;
            seg_samples :=
              map astype_int16
                (map (fun s => s * 32768)%Q (concat (rows (_data b)))) |}.
  exists (with_data b {| ncols := ncols (_data b);
                         rows := map (map h) (rows (_data b)) |}).
  split; [|split; [|split]].
  - unfold segment. rewrite (bind_deref _ _ _ _ Hself). reflexivity.
  - rewrite AudioBuffer_init_eq.
    cbn [init_data init_channels init_sample_width init_frame_rate
         get_array_of_samples seg_sample_width seg_frame_rate seg_channels
         seg_samples as_floats].
    rewrite Hsw, !map_map. fold h.
    rewrite np_reshape_ok; cycle 1; [done| |].
    { rewrite length_map, Hlen, Nat2Z.inj_mul, Z2Nat.id by lia.
      apply Z.mod_mul. lia. }
    cbn [mbind outcome_bind]. unfold with_data. rewrite <- Hsw.
    do 2 f_equal. replace (Z.to_nat (channels b)) with (ncols (_data b)) by lia.
    f_equal. rewrite chunks_map, chunks_concat by (done || lia). reflexivity.
  - unfold same_format. cbn [with_data channels frame_rate sample_width
      _data ncols rows]. rewrite length_map. auto.
  - intros i c Hi Hc x y.
    destruct (lookup_lt_is_Some_2 (rows (_data b)) i Hi) as [r Hr].
    assert (Hrl : length r = ncols (_data b))
      by (eapply Forall_lookup_1 in Hwf; eauto).
    assert (Hx : unit_range x).
    { unfold x. rewrite (cell_lookup _ _ _ _ Hr).
      eapply Forall_lookup_1 in Hrange; [|exact Hr].
      destruct (lookup_lt_is_Some_2 r c ltac:(lia)) as [v Hv].
      rewrite (nth_lookup_Some _ _ _ _ Hv).
      eapply Forall_lookup_1 in Hrange; eauto. }
    assert (Hy : y = h x).
    { unfold y, x. cbn [with_data _data].
      erewrite cell_lookup; cycle 1.
      { cbn [rows]. rewrite list_lookup_fmap, Hr. reflexivity. }
      rewrite (cell_lookup _ _ _ _ Hr).
      destruct (lookup_lt_is_Some_2 r c ltac:(lia)) as [v Hv].
      rewrite (nth_lookup_Some _ _ _ _ Hv).
      erewrite nth_lookup_Some; [reflexivity|].
      now rewrite list_lookup_fmap, Hv. }
    assert (Hq : y = (inject_Z (Qtrunc (x * 32768)) / 32768)%Q).
    { rewrite Hy. unfold h.
      rewrite astype_int16_small by now apply unit_range_trunc.
      rewrite fl_inject_Z; [reflexivity|].
      pose proof (unit_range_trunc _ Hx). lia. }
    split; [exact Hq|]. rewrite Hq. apply quantise_error.
Qed.

(** ** Fades *)

(** X7: with a frame rate that is not negative, the conversion of
    milliseconds to a frame index that [fade] applies to its bounds (lines 84
    and 85) is monotone: a later time never gives an earlier frame. *)
Theorem to_frame_monotone (b : AudioBuffer) (x y : num) :
  0 <= frame_rate b ->
  (value x <= value y)%Q ->
  to_frame b (PNum x) <= to_frame b (PNum y).
Proof.
  intros Hr Hxy. apply to_frame_le; [exact Hr|]. now apply fl_mono.
Qed.

(** X8: [fade] needs two of [start], [end] and [duration].  The blanks of
    lines 80-83 cannot be filled, and the call raises [TypeError] before the
    buffer is read, exactly when [start] is falsy and [end] or [duration] is
    [None], or [start] is truthy, [end] falsy and [duration] [None]; in
    every other case both bounds become numbers. *)
Theorem fade_needs_two_bounds (self : addr) (to_gain from_gain : pyval)
    (start end_ duration : pyval) (σ : store) :
  let missing :=
    (py_not start = true /\ (end_ = PNone \/ duration = PNone))
    \/ (py_not start = false /\ py_not end_ = true /\ duration = PNone) in
  (missing <-> fill_blanks start end_ duration = Raise TypeError)
  /\ (missing ->
      fade self to_gain from_gain start end_ duration σ
      = (Raise TypeError, σ))
  /\ (~ missing ->
      exists s e, fill_blanks start end_ duration = Ok (PNum s, PNum e)).
Proof.
  intros missing.
  assert (Hcases : (missing /\ fill_blanks start end_ duration = Raise TypeError)
                   \/ (~ missing
                       /\ exists s e, fill_blanks start end_ duration
                                      = Ok (PNum s, PNum e))).
  { unfold missing, fill_blanks, py_not, py_sub, py_add.
    destruct start as [|x], end_ as [|y], duration as [|d];
      try destruct (num_is_zero x); try destruct (num_is_zero y);
      cbn [mbind outcome_bind py_not];
      try destruct (num_is_zero (num_sub y d));
      cbn [mbind outcome_bind];
      solve [left; split; [tauto|reflexivity]
            |right; split; [intuition congruence|eauto]]. }
  destruct Hcases as [[Hm Hf]|[Hm (s & e & Hf)]].
  - split; [tauto|]. split; [|tauto].
    intros _. unfold fade. now rewrite Hf.
  - split; [split; [tauto|congruence]|]. split; [tauto|eauto].
Qed.

(** X9: when [start] and [end] are both truthy, [duration] is never read:
    the call does the same whatever [duration] is, [None] included. *)
Theorem fade_ignores_duration (self : addr) (to_gain from_gain : pyval)
    (start end_ duration duration' : pyval) (σ : store) :
  py_not start = false ->
  py_not end_ = false ->
  fade self to_gain from_gain start end_ duration σ
  = fade self to_gain from_gain start end_ duration' σ.
Proof.
  intros Hs He. unfold fade, fill_blanks. now rewrite Hs, He.
Qed.



(** ** [fade_out] *)



(** X14: [fade_out] fails before it touches the buffer when the length
    cannot be taken or the duration is missing: [ZeroDivisionError] for a
    frame rate of zero, [ValueError] when the length [l] that line 42
    computes is negative (the builtin [len] refuses it), as it is for a
    negative frame rate and a millisecond of frames or more, [TypeError]
    for a duration of [None]. *)
Theorem fade_out_errors (self : addr) (duration : pyval) (b : AudioBuffer)
    (σ : store) :
  σ !! self = Some b ->
  let n := Z.of_nat (length (rows (_data b))) in
  let l := len_ms n (frame_rate b) in
  (frame_rate b = 0 -> fade_out self duration σ = (Raise ZeroDivisionError, σ))
  /\ (frame_rate b <> 0 -> __len__ self σ = (Ok l, σ))
  /\ (frame_rate b <> 0 -> l < 0 ->
      fade_out self duration σ = (Raise ValueError, σ))
  /\ (frame_rate b <> 0 -> 0 <= l <= maxsize ->
      fade_out self PNone σ = (Raise TypeError, σ))
  /\ (frame_rate b < 0 -> - frame_rate b <= 1000 * n -> l < 0).
Proof.
  intros Hself n l. split; [|split; [|split; [|split]]].
  - intros Hr. unfold fade_out, mbind, M_bind.
    now rewrite (builtin_len_zero_rate _ _ _ Hself Hr).
  - intros Hr. now apply len_run.
  - intros Hr Hl. unfold fade_out, mbind, M_bind.
    rewrite (builtin_len_run _ _ _ Hself Hr). fold n l. unfold py_len.
    destruct (Z.ltb_spec l 0); [reflexivity|lia].
  - intros Hr Hl. unfold fade_out, mbind, M_bind.
    rewrite (builtin_len_run _ _ _ Hself Hr). fold n l.
    now rewrite py_len_ok.
  - intros Hr Hn. pose proof (len_negative n (frame_rate b) Hr Hn) as H.
    fold (len_ms n (frame_rate b)) in H. fold l in H. lia.
Qed.

(** ** Overlays *)


(** X16: with no gain ([None], [0] or [0.0]) and a source of the same
    format laid from a start frame that is not negative, [overlay] only
    adds: every sample of the range becomes its old value plus the sample of
    the source at the frame [i - start], also when a buffer is overlaid on
    itself. *)
Theorem overlay_without_gain_adds (self : addr) (seg : source)
    (position gain : pyval) (b sb : AudioBuffer) (σ : store) :
  σ !! self = Some b ->
  source_state σ b seg = Some sb ->
  wf_buffer b -> wf_buffer sb -> channels sb = channels b ->
  py_not gain = true ->
  let start := py_int (frame_count b position) in
  let n := Z.of_nat (length (rows (_data b))) in
  let m := Z.of_nat (length (rows (_data sb))) in
  let end_ := Z.min (start + m) n in
  0 <= start -> start < end_ ->
  exists b',
    overlay self seg position gain σ = (Ok self, <[self := b']> σ)
    /\ (forall i c : nat,
          start <= Z.of_nat i < end_ -> (c < ncols (_data b))%nat ->
          cell (_data b') i c
          = (cell (_data b) i c
             + cell (_data sb) (i - Z.to_nat start) c)%Q).
Proof.
  intros Hself Hsrc (Hwb & Hcb & _) (Hws & Hcs & _) Hch Hg
    start n m end_ Hstart Hlt.
  assert (Hcols : ncols (_data sb) = ncols (_data b)) by lia.
  pose proof (overlay_run self seg position gain b sb σ
                Hself Hsrc Hcols (scaling_raises_falsy _ Hg) Hstart) as Hrun.
  cbv zeta in Hrun. fold start n m end_ in Hrun.
  destruct (Z.ltb_spec start end_) as [_|]; [|lia].
  rewrite (source_now_falsy _ _ _ _ _ _ _ _ Hself Hsrc Hg) in Hrun.
  eexists. split; [exact Hrun|].
  intros i c Hi Hc.
  destruct (lookup_lt_is_Some_2 (rows (_data b)) i) as [r Hr]; [lia|].
  destruct (lookup_lt_is_Some_2 (rows (_data sb)) (i - Z.to_nat start))
    as [y Hy]; [lia|].
  assert (Hrl : length r = ncols (_data b))
    by (eapply Forall_lookup_1 in Hwb; eauto).
  assert (Hyl : length y = ncols (_data sb))
    by (eapply Forall_lookup_1 in Hws; eauto).
  erewrite cell_lookup; cycle 1.
  { rewrite overlaid_lookup by lia.
    destruct (Z.leb_spec start (Z.of_nat i)),
      (Z.ltb_spec (Z.of_nat i) end_); try lia. cbn [andb].
    rewrite after_gain_falsy by done. rewrite Hr. cbn. rewrite Hy.
    reflexivity. }
  rewrite nth_zip_with_Qplus by lia.
  now rewrite (cell_lookup _ _ _ _ Hr), (cell_lookup _ _ _ _ Hy).
Qed.


(** X18: a source of one channel is broadcast over the channels of a
    target that has more: from a start frame that is not negative, every
    channel of a frame of the range gets the one sample of the source's
    frame [i - start] added, after the scaling of line 138 (which is taken
    not to overflow). *)
Theorem overlay_mono_source_broadcasts (self : addr) (seg : source)
    (position gain : pyval) (b sb : AudioBuffer) (σ : store) :
  σ !! self = Some b ->
  source_state σ b seg = Some sb ->
  wf_array (_data b) ->
  ncols (_data sb) = 1%nat ->
  ncols (_data b) <> 1%nat ->
  scaling_raises gain = false ->
  let start := py_int (frame_count b position) in
  let n := Z.of_nat (length (rows (_data b))) in
  let m := Z.of_nat (length (rows (_data sb))) in
  let end_ := Z.min (start + m) n in
  0 <= start -> start < end_ ->
  exists b',
    overlay self seg position gain σ = (Ok self, <[self := b']> σ)
    /\ (forall i c : nat,
          start <= Z.of_nat i < end_ -> (c < ncols (_data b))%nat ->
          cell (_data b') i c
          = (cell (_data (after_gain b start end_ gain)) i c
             + cell (_data sb) (i - Z.to_nat start) 0)%Q).
Proof.
  intros Hself Hsrc Hwb Hs1 Hb1 Hov start n m end_ Hstart Hlt.
  pose proof (overlay_steps self seg position gain b sb σ Hself Hsrc) as Hrun.
  cbv zeta in Hrun. fold start n m end_ in Hrun. rewrite Hov in Hrun.
  destruct (Z.ltb_spec start end_) as [_|]; [|lia].
  assert (Hnow : source_now self seg b sb start end_ gain = sb).
  { unfold source_now. destruct seg as [s|a]; [done|].
    destruct (decide (a = self)) as [->|]; [|done].
    cbn in Hsrc. congruence. }
  rewrite Hnow in Hrun.
  destruct (after_gain_shape b start end_ gain) as [Hc1 Hl1].
  pose proof (after_gain_wf b start end_ gain Hwb) as Hw1.
  set (b1 := after_gain b start end_ gain) in *.
  rewrite inplace_slice_mono in Hrun; try lia; try (cbn [np_slice ncols];
    congruence); cycle 1.
  { cbn [np_slice rows]. rewrite length_py_slice_valid by lia. lia. }
  eexists. split; [exact Hrun|].
  intros i c Hi Hc. cbn [with_data _data].
  destruct (lookup_lt_is_Some_2 (rows (_data b1)) i) as [r Hr]; [lia|].
  destruct (lookup_lt_is_Some_2 (rows (_data sb)) (i - Z.to_nat start))
    as [y Hy]; [lia|].
  assert (Hrl : length r = ncols (_data b1))
    by (eapply Forall_lookup_1 in Hw1; eauto).
  erewrite cell_lookup; cycle 1.
  { cbn [rows]. rewrite lookup_splice; try lia; cycle 1.
    { rewrite length_zip_with, length_map, length_take, length_drop.
      cbn [np_slice rows]. rewrite length_py_slice_valid by lia. lia. }
    destruct (Nat.ltb_spec i (Z.to_nat start)); [lia|].
    destruct (Nat.ltb_spec i (Z.to_nat end_)); [|lia].
    rewrite lookup_zip_with, lookup_take_lt, lookup_drop by lia.
    replace (Z.to_nat start + (i - Z.to_nat start))%nat with i by lia.
    rewrite Hr. cbn [mbind option_bind].
    rewrite list_lookup_fmap. cbn [np_slice rows].
    rewrite py_slice_valid by lia. rewrite lookup_take_lt, lookup_drop by lia.
    replace (Z.to_nat 0 + (i - Z.to_nat start))%nat
      with (i - Z.to_nat start)%nat by lia.
    rewrite Hy. reflexivity. }
  rewrite nth_zip_with_Qplus by (rewrite length_replicate; lia).
  rewrite (cell_lookup _ _ _ _ Hr), (cell_lookup _ _ _ _ Hy). f_equal.
  rewrite nth_lookup, lookup_replicate_2 by lia. now destruct y.
Qed.

(** X19: a negative position is not refused: when the start frame is
    negative, not below minus the frame count, and the source ends before
    the index reaches zero ([start + source frames < 0]), the slice counts
    from the end of the target, and the whole source is added from the frame
    [frame_count() + start] on (here with no gain); the other frames are as
    before. *)
Theorem overlay_negative_position_counts_from_end (self : addr) (seg : source)
    (position gain : pyval) (b sb : AudioBuffer) (σ : store) :
  σ !! self = Some b ->
  source_state σ b seg = Some sb ->
  wf_buffer b -> wf_buffer sb -> channels sb = channels b ->
  py_not gain = true ->
  let start := py_int (frame_count b position) in
  let n := Z.of_nat (length (rows (_data b))) in
  let m := Z.of_nat (length (rows (_data sb))) in
  - n <= start -> 0 < m -> start + m < 0 ->
  exists b',
    overlay self seg position gain σ = (Ok self, <[self := b']> σ)
    /\ (forall i c : nat,
          n + start <= Z.of_nat i < n + start + m ->
          (c < ncols (_data b))%nat ->
          cell (_data b') i c
          = (cell (_data b) i c
             + cell (_data sb) (i - Z.to_nat (n + start)) c)%Q)
    /\ (forall i : nat,
          ~ (n + start <= Z.of_nat i < n + start + m) ->
          rows (_data b') !! i = rows (_data b) !! i).
Proof.
  intros Hself Hsrc (Hwb & Hcb & _) (Hws & Hcs & _) Hch Hg
    start n m Hlo Hm Hhi.
  pose proof (overlay_steps self seg position gain b sb σ Hself Hsrc) as Hrun.
  cbv zeta in Hrun. fold start n m in Hrun.
  rewrite (scaling_raises_falsy _ Hg) in Hrun.
  replace (Z.min (start + m) n) with (start + m) in Hrun by lia.
  destruct (Z.ltb_spec start (start + m)) as [_|]; [|lia].
  rewrite (source_now_falsy _ _ _ _ _ _ _ _ Hself Hsrc Hg) in Hrun.
  rewrite after_gain_falsy in Hrun by done.
  assert (Hi0 : Z.to_nat (slice_index n start) = Z.to_nat (n + start)).
  { unfold slice_index. destruct (Z.ltb_spec start 0); lia. }
  assert (Hj0 : Z.to_nat (slice_index n (start + m))
                = Z.to_nat (n + start + m)).
  { unfold slice_index. destruct (Z.ltb_spec (start + m) 0); lia. }
  assert (Hrhs : py_slice (rows (_data sb)) 0 (start + m - start)
                 = rows (_data sb)).
  { rewrite py_slice_valid by lia. cbn [Z.to_nat]. rewrite drop_0.
    apply take_ge. lia. }
  rewrite inplace_slice_same_shape in Hrun; fold n; cycle 1.
  { lia. }
  { cbn [np_slice ncols]. lia. }
  { cbn [np_slice rows]. rewrite Hrhs. lia. }
  fold n in Hrun.
  change (rows (np_slice (_data sb) 0 (start + m - start)))
    with (py_slice (rows (_data sb)) 0 (start + m - start)) in Hrun.
  rewrite Hrhs, Hi0, Hj0 in Hrun.
  eexists. split; [exact Hrun|]. cbn [with_data _data rows].
  assert (Hmid : length (zip_with (zip_with Qplus)
                   (take (Z.to_nat (n + start + m) - Z.to_nat (n + start))
                      (drop (Z.to_nat (n + start)) (rows (_data b))))
                   (rows (_data sb)))
                 = (Z.to_nat (n + start + m) - Z.to_nat (n + start))%nat).
  { rewrite length_zip_with, length_take, length_drop. lia. }
  split.
  - intros i c Hi Hc.
    destruct (lookup_lt_is_Some_2 (rows (_data b)) i) as [r Hr]; [lia|].
    destruct (lookup_lt_is_Some_2 (rows (_data sb))
                (i - Z.to_nat (n + start))) as [y Hy]; [lia|].
    assert (Hrl : length r = ncols (_data b))
      by (eapply Forall_lookup_1 in Hwb; eauto).
    assert (Hyl : length y = ncols (_data sb))
      by (eapply Forall_lookup_1 in Hws; eauto).
    erewrite cell_lookup; cycle 1.
    { cbn [rows]. rewrite lookup_splice by (done || lia).
      destruct (Nat.ltb_spec i (Z.to_nat (n + start))); [lia|].
      destruct (Nat.ltb_spec i (Z.to_nat (n + start + m))); [|lia].
      rewrite lookup_zip_with, lookup_take_lt, lookup_drop by lia.
      replace (Z.to_nat (n + start) + (i - Z.to_nat (n + start)))%nat
        with i by lia.
      rewrite Hr. cbn [mbind option_bind]. rewrite Hy. reflexivity. }
    rewrite nth_zip_with_Qplus by lia.
    now rewrite (cell_lookup _ _ _ _ Hr), (cell_lookup _ _ _ _ Hy).
  - intros i Hi. rewrite lookup_splice by (done || lia).
    destruct (Nat.ltb_spec i (Z.to_nat (n + start))); [done|].
    destruct (Nat.ltb_spec i (Z.to_nat (n + start + m))); [lia|done].
Qed.

(** X20: a negative start frame with a source of two frames or more that
    reaches the index zero or beyond ([start + source frames >= 0]) makes
    the call raise [ValueError], whatever the formats: the slice
    [[start:end]] of the target, which mixes an index from the end with one
    from the beginning, is shorter than the [end - start] frames taken from
    the source.  The scaling of line 138 has been done by then (it is taken
    not to overflow). *)
Theorem overlay_negative_position_crossing_raises (self : addr) (seg : source)
    (position gain : pyval) (b sb : AudioBuffer) (σ : store) :
  σ !! self = Some b ->
  source_state σ b seg = Some sb ->
  scaling_raises gain = false ->
  let start := py_int (frame_count b position) in
  let n := Z.of_nat (length (rows (_data b))) in
  let m := Z.of_nat (length (rows (_data sb))) in
  let end_ := Z.min (start + m) n in
  start < 0 -> 0 <= start + m -> 2 <= m -> 0 < n ->
  overlay self seg position gain σ
  = (Raise ValueError, <[self := after_gain b start end_ gain]> σ).
Proof.
  intros Hself Hsrc Hov start n m end_ Hneg Hcross Hm Hn.
  rewrite (overlay_steps _ _ _ _ _ _ _ Hself Hsrc). fold start n m end_.
  rewrite Hov.
  destruct (Z.ltb_spec start end_) as [_|]; [|lia].
  destruct (source_now_shape self seg b sb start end_ gain σ Hself Hsrc)
    as [Hln _].
  destruct (after_gain_shape b start end_ gain) as [_ Hl1].
  assert (Hrhs : length (rows (np_slice
                   (_data (source_now self seg b sb start end_ gain))
                   0 (end_ - start))) = Z.to_nat (end_ - start)).
  { cbn [np_slice rows]. rewrite length_py_slice_valid by lia. lia. }
  assert (Hview : (length (py_slice
                     (rows (_data (after_gain b start end_ gain)))
                     start end_) < Z.to_nat (end_ - start))%nat).
  { rewrite length_py_slice, Hl1. fold n. unfold slice_index.
    destruct (Z.ltb_spec start 0), (Z.ltb_spec end_ 0); lia. }
  rewrite inplace_slice_rows_mismatch; [reflexivity| |]; lia.
Qed.

(** ** The duration *)

(** X21: a buffer of [k] times [frame_rate] frames, that is of [k] whole
    seconds, has a length of exactly [1000 * k] milliseconds, as long as
    that number is an integer the doubles hold (below [2^53] in magnitude):
    no rounding takes place. *)
Theorem len_of_whole_seconds (self : addr) (b : AudioBuffer) (k : Z)
    (σ : store) :
  σ !! self = Some b ->
  frame_rate b <> 0 ->
  Z.of_nat (length (rows (_data b))) = k * frame_rate b ->
  Z.abs (1000 * k) < 2 ^ 53 ->
  __len__ self σ = (Ok (1000 * k), σ).
Proof.
  intros Hself Hr Hn Hk. rewrite (len_run _ _ _ Hself Hr), Hn.
  now rewrite len_ms_whole.
Qed.

(** ** The invariant *)

(** X22: [_data.shape[1] == channels], with [channels] positive and every
    row that wide, is an invariant of the class: the constructor establishes
    it for the object it creates, [fade], [fade_in], [fade_out] and
    [overlay] keep it for every object whether they return or raise, and
    [segment] and [__len__] write nothing at all. *)
Theorem methods_preserve_invariant (σ : store) :
  wf_buffers σ ->
  (forall args, wf_buffers (AudioBuffer_new args σ).2)
  /\ (forall self to_gain from_gain start end_ duration,
        wf_buffers (fade self to_gain from_gain start end_ duration σ).2)
  /\ (forall self duration, wf_buffers (fade_in self duration σ).2)
  /\ (forall self duration, wf_buffers (fade_out self duration σ).2)
  /\ (forall self seg position gain,
        wf_buffers (overlay self seg position gain σ).2)
  /\ (forall self, (segment self σ).2 = σ)
  /\ (forall self, (__len__ self σ).2 = σ).
Proof.
  intros Hσ.
  assert (Hfade : forall self to_gain from_gain start end_ duration,
            wf_buffers (fade self to_gain from_gain start end_ duration σ).2).
  { intros self to_gain from_gain start end_ duration.
    destruct (σ !! self) as [b|] eqn:Hself.
    - eapply keeps_wf_buffers; eauto using fade_keeps.
    - now rewrite fade_dangling. }
  split; [|split; [exact Hfade|split; [|split; [|split; [|split]]]]].
  - intros args. unfold AudioBuffer_new.
    destruct (AudioBuffer_init args) as [nb|x] eqn:Hinit; [|exact Hσ].
    cbn [snd]. intros a b. destruct (decide (fresh (dom σ) = a)) as [->|Hne].
    + rewrite lookup_insert_eq. intros [= <-].
      eapply AudioBuffer_init_wf_buffer; eauto.
    + rewrite lookup_insert_ne by done. apply Hσ.
  - intros self duration. apply Hfade.
  - intros self duration. destruct (σ !! self) as [b|] eqn:Hself.
    + eapply keeps_wf_buffers; eauto using fade_out_keeps.
    + now rewrite fade_out_dangling.
  - intros self seg position gain. destruct (σ !! self) as [b|] eqn:Hself.
    + eapply keeps_wf_buffers; eauto using overlay_keeps.
    + now rewrite overlay_dangling.
  - intros self. apply segment_state.
  - intros self. apply len_state.
Qed.

End Collaborators.

(** * Concrete runs *)

Lemma ex_target_wf : wf_buffer ex_target.
Proof. split; [repeat constructor|split; [reflexivity|reflexivity]]. Defined.

Lemma ex_source_wf : wf_buffer ex_source.
Proof. split; [repeat constructor|split; [reflexivity|reflexivity]]. Defined.

(** [fade_in(2)] on a three-frame buffer. *)
Example fade_in_raises_run :
  fade_in ex_pow10 0%nat (PNum (Int 2)) ex_store = (Raise TypeError, ex_store).
Proof. reflexivity. Qed.

(** What [fade_in] is meant to do, done by [fade] with the end given. *)
Example fade_with_end_run :
  fade ex_pow10 0%nat (PNum (Int 0)) (PNum (Int (-120))) PNone (PNum (Int 2))
    (PNum (Int 2)) ex_store
  = (Ok 0%nat, <[0%nat := mono [1 # 1000000; 2; 3]%Q]> ex_store).
Proof. vm_compute. reflexivity. Qed.

(** [fade(start=0, end=3, duration=2)]: the zero is taken for a missing
    start, and the ramp runs over the frames 1 and 2. *)
Example fade_from_zero_run :
  fade ex_pow10 0%nat (PNum (Int (-120))) (PNum (Int 0)) (PNum (Int 0))
    (PNum (Int 3)) (PNum (Int 2)) ex_store
  = (Ok 0%nat, <[0%nat := mono [1; 2; 3 # 1000000]%Q]> ex_store).
Proof. vm_compute. reflexivity. Qed.






(** An overlay that runs past the end: five frames laid over a three-frame
    buffer from frame 1 on. *)
Example overlay_past_end_run :
  overlay ex_pow10 ex_set_channels ex_set_frame_rate 0%nat (Buffer 1%nat)
    (PNum (Int 1)) PNone ex_store
  = (Ok 0%nat, <[0%nat := mono [1; 12; 23]%Q]> ex_store).
Proof. vm_compute. reflexivity. Qed.


(** The same overlay, ducking the target by 20 dB. *)
Example overlay_ducking_run :
  overlay ex_pow10 ex_set_channels ex_set_frame_rate 0%nat (Buffer 1%nat)
    (PNum (Int 1)) (PNum (Int (-20))) ex_store
  = (Ok 0%nat,
     <[0%nat := mono [1; 2 * (1 # 10) + 10; 3 * (1 # 10) + 20]%Q]> ex_store).
Proof. vm_compute. reflexivity. Qed.

Lemma overlay_ducks_then_mixes_witness :
  ex_store !! 0%nat = Some ex_target
  /\ source_state ex_set_channels ex_set_frame_rate ex_store ex_target
       (Buffer 1%nat) = Some ex_source
  /\ wf_buffer ex_target
  /\ wf_buffer ex_source
  /\ channels ex_source = channels ex_target
  /\ num_is_zero (Int (-20)) = false
  /\ 0 <= py_int (frame_count ex_target (PNum (Int 1)))
  /\ py_int (frame_count ex_target (PNum (Int 1)))
     < Z.min (py_int (frame_count ex_target (PNum (Int 1)))
              + Z.of_nat (length (rows (_data ex_source))))
         (Z.of_nat (length (rows (_data ex_target))))
  /\ pow10_overflows (value (Int (-20)) / 20) = false
  /\ exists b',
       overlay ex_pow10 ex_set_channels ex_set_frame_rate 0%nat
         (Buffer 1%nat) (PNum (Int 1)) (PNum (Int (-20))) ex_store
       = (Ok 0%nat, <[0%nat := b']> ex_store)
       /\ py_pow10 ex_pow10 (value (Int (-20)) / 20) = 1 # 10.
Proof.
  assert (H1 : ex_store !! 0%nat = Some ex_target) by reflexivity.
  assert (H2 : source_state ex_set_channels ex_set_frame_rate ex_store
                 ex_target (Buffer 1%nat) = Some ex_source) by reflexivity.
  assert (H3 : channels ex_source = channels ex_target) by reflexivity.
  assert (H4 : num_is_zero (Int (-20)) = false) by reflexivity.
  assert (H5 : 0 <= py_int (frame_count ex_target (PNum (Int 1))))
    by (vm_compute; discriminate).
  assert (H6 : py_int (frame_count ex_target (PNum (Int 1)))
               < Z.min (py_int (frame_count ex_target (PNum (Int 1)))
                        + Z.of_nat (length (rows (_data ex_source))))
                   (Z.of_nat (length (rows (_data ex_target)))))
    by reflexivity.
  split; [exact H1|]. split; [exact H2|]. split; [exact ex_target_wf|].
  split; [exact ex_source_wf|]. split; [exact H3|]. split; [exact H4|].
  split; [exact H5|]. split; [exact H6|]. split; [reflexivity|].
  destruct (overlay_ducks_then_mixes ex_pow10 ex_set_channels
              ex_set_frame_rate 0%nat (Buffer 1%nat) (PNum (Int 1))
              (Int (-20)) ex_target ex_source ex_store H1 H2 ex_target_wf
              ex_source_wf H3 H4 H5 H6)
    as (Hok & _ & Hfactor & _).
  destruct (Hok eq_refl) as (b' & Hrun & _).
  exists b'. split; [exact Hrun|exact Hfactor].
Defined.

(** A gain of 6180 dB: [10 ** 309] is no double, and line 138 raises before
    anything is written. *)
Example overlay_overflow_run :
  overlay ex_pow10 ex_set_channels ex_set_frame_rate 0%nat (Buffer 1%nat)
    (PNum (Int 1)) (PNum (Int 6180)) ex_store
  = (Raise OverflowError, ex_store).
Proof. vm_compute. reflexivity. Qed.


(** C7 as stated fails: with the same arguments and a gain of -20 dB the
    range is not empty ([-1 < 3]) and the gain is truthy; the last frame of
    the target is scaled by one tenth, and then the addition raises
    [ValueError]: no sample of the source is added. *)
Lemma overlay_negative_position_ducks_without_mixing :
  ex_store !! 0%nat = Some ex_target
  /\ ex_store !! 1%nat = Some ex_source
  /\ channels ex_source = channels ex_target
  /\ py_int (frame_count ex_target (PNum (Int (-1))))
     < Z.min (py_int (frame_count ex_target (PNum (Int (-1)))) + 5) 3
  /\ overlay ex_pow10 ex_set_channels ex_set_frame_rate 0%nat (Buffer 1%nat)
       (PNum (Int (-1))) (PNum (Int (-20))) ex_store
     = (Raise ValueError, <[0%nat := mono [1; 2; 3 # 10]%Q]> ex_store).
Proof. repeat split; vm_compute; reflexivity. Qed.

Lemma segment_round_trip_witness :
  seg_sample_width ex_segment = 2
  /\ 0 < seg_channels ex_segment
  /\ Z.of_nat (length (seg_samples ex_segment)) mod seg_channels ex_segment = 0
  /\ Forall (fun z => -32768 <= z <= 32767) (seg_samples ex_segment)
  /\ exists σ',
       (a ← AudioBuffer_new (FromSegment ex_segment); segment a) ∅
       = (Ok ex_segment, σ').
Proof.
  assert (H1 : seg_sample_width ex_segment = 2) by reflexivity.
  assert (H2 : 0 < seg_channels ex_segment) by reflexivity.
  assert (H3 : Z.of_nat (length (seg_samples ex_segment))
               mod seg_channels ex_segment = 0) by reflexivity.
  assert (H4 : Forall (fun z => -32768 <= z <= 32767)
                 (seg_samples ex_segment))
    by (repeat constructor; vm_compute; discriminate).
  split; [exact H1|]. split; [exact H2|]. split; [exact H3|].
  split; [exact H4|].
  exact (segment_round_trip ex_segment ∅ H1 H2 H3 H4).
Defined.

Lemma len_is_rounded_duration_witness :
  ({[0%nat := ex_second]} : store) !! 0%nat = Some ex_second
  /\ 0 < frame_rate ex_second < 2 ^ 53
  /\ Z.of_nat (length (rows (_data ex_second))) <= 2 ^ 40
  /\ exists l,
       builtin_len 0%nat ({[0%nat := ex_second]} : store)
       = (Ok l, ({[0%nat := ex_second]} : store)).
Proof.
  assert (H1 : ({[0%nat := ex_second]} : store) !! 0%nat = Some ex_second)
    by reflexivity.
  assert (H2 : 0 < frame_rate ex_second < 2 ^ 53)
    by (split; vm_compute; reflexivity).
  assert (H3 : Z.of_nat (length (rows (_data ex_second))) <= 2 ^ 40)
    by (vm_compute; discriminate).
  split; [exact H1|]. split; [exact H2|]. split; [exact H3|].
  destruct (len_is_rounded_duration 0%nat ex_second _ H1) as (Hlen & _).
  destruct (Hlen H2 H3) as (l & Hrun & _).
  exists l. exact Hrun.
Defined.

(** One second of frames is one thousand milliseconds. *)
Example len_of_a_second_run :
  builtin_len 0%nat ({[0%nat := ex_second]} : store)
  = (Ok 1000, ({[0%nat := ex_second]} : store)).
Proof.
  rewrite (builtin_len_run 0%nat ex_second) by (reflexivity || discriminate).
  f_equal.
Qed.

(** C9 as stated fails: 4012 frames at 8000 frames per second are 501.5
    milliseconds, and [round(1000 * 4012 / 8000)] is 502; the code divides
    first, [4012 / 8000] is a double just below 0.5015, the product is just
    below 501.5, and [len] returns 501. *)
Lemma len_rounds_quotient_first :
  ({[0%nat := ex_half_ms]} : store) !! 0%nat = Some ex_half_ms
  /\ frame_rate ex_half_ms <> 0
  /\ spec_len_ms (Z.of_nat (length (rows (_data ex_half_ms))))
       (frame_rate ex_half_ms) = 502
  /\ builtin_len 0%nat ({[0%nat := ex_half_ms]} : store)
     = (Ok 501, ({[0%nat := ex_half_ms]} : store)).
Proof.
  split; [reflexivity|]. split; [discriminate|].
  split; [vm_compute; reflexivity|].
  rewrite (builtin_len_run 0%nat ex_half_ms) by (reflexivity || discriminate).
  f_equal.
Qed.

Lemma mutators_keep_format_witness :
  ex_store !! 0%nat = Some ex_target
  /\ keeps_format 0%nat ex_target ex_store
       (overlay ex_pow10 ex_set_channels ex_set_frame_rate 0%nat
          (Buffer 1%nat) (PNum (Int (-1))) (PNum (Int (-20))) ex_store)
  /\ keeps_format 0%nat ex_target ex_store
       (fade_out ex_pow10 0%nat (PNum (Int 2)) ex_store).
Proof.
  assert (H1 : ex_store !! 0%nat = Some ex_target) by reflexivity.
  split; [exact H1|].
  destruct (mutators_keep_format ex_pow10 ex_set_channels ex_set_frame_rate
              0%nat ex_target ex_store H1) as (_ & _ & Hout & Hov).
  split; [apply Hov|apply Hout].
Defined.

(** * Concrete runs of the further properties *)

Lemma ex_stereo_wf : wf_buffer ex_stereo.
Proof. split; [repeat constructor|split; [reflexivity|reflexivity]]. Defined.

Lemma ex_quiet_wf : wf_buffer ex_quiet.
Proof. split; [repeat constructor|split; [reflexivity|reflexivity]]. Defined.

Lemma ex_store_wf : wf_buffers ex_store.
Proof.
  intros a b. unfold ex_store.
  destruct (decide (a = 1%nat)) as [->|H1].
  - rewrite lookup_insert_eq. intros [= <-]. exact ex_source_wf.
  - rewrite lookup_insert_ne by done.
    destruct (decide (a = 0%nat)) as [->|H0].
    + rewrite lookup_singleton_eq. intros [= <-]. exact ex_target_wf.
    + rewrite lookup_singleton_ne by done. discriminate.
Defined.

Lemma init_builds_whole_frames_witness :
  0 < init_channels ex_bytes
  /\ Z.of_nat (length (as_floats (init_data ex_bytes))) mod init_channels ex_bytes
     = 0
  /\ exists b,
       AudioBuffer_init ex_bytes = Ok b
       /\ wf_buffer b
       /\ Z.of_nat (length (rows (_data b))) * 2 = 4.
Proof.
  assert (H1 : 0 < init_channels ex_bytes) by reflexivity.
  assert (H2 : Z.of_nat (length (as_floats (init_data ex_bytes)))
               mod init_channels ex_bytes = 0) by reflexivity.
  split; [exact H1|]. split; [exact H2|].
  destruct (init_builds_whole_frames ex_bytes H1 H2)
    as (b & Hb & Hwf & _ & _ & _ & Hn & _).
  exists b. split; [exact Hb|]. split; [exact Hwf|exact Hn].
Defined.

(** Three samples cannot be split into frames of two. *)
Lemma init_rejects_partial_frames_witness :
  Z.of_nat (length (as_floats (init_data ex_odd))) mod init_channels ex_odd <> 0
  /\ AudioBuffer_new ex_odd ex_store = (Raise ValueError, ex_store).
Proof.
  assert (H1 : Z.of_nat (length (as_floats (init_data ex_odd)))
               mod init_channels ex_odd <> 0) by (vm_compute; discriminate).
  split; [exact H1|].
  destruct (init_rejects_partial_frames ex_odd) as (Hbad & _).
  destruct (Hbad (or_intror H1)) as (_ & Hnew).
  exact (Hnew ex_store).
Defined.

Lemma init_normalises_into_unit_range_witness :
  init_data ex_bytes = IntArray 1 [1; -128; 127; 0]
  /\ 1 <= 1 <= 4
  /\ Forall (fun z => - 2 ^ (8 * 1 - 1) <= z < 2 ^ (8 * 1 - 1))
       [1; -128; 127; 0]
  /\ AudioBuffer_init ex_bytes = Ok ex_bytes_buffer
  /\ Forall (Forall unit_range) (rows (_data ex_bytes_buffer)).
Proof.
  assert (H1 : init_data ex_bytes = IntArray 1 [1; -128; 127; 0])
    by reflexivity.
  assert (H2 : 1 <= 1 <= 4) by lia.
  assert (H3 : Forall (fun z => - 2 ^ (8 * 1 - 1) <= z < 2 ^ (8 * 1 - 1))
                 [1; -128; 127; 0])
    by (repeat constructor; vm_compute; discriminate).
  assert (H4 : AudioBuffer_init ex_bytes = Ok ex_bytes_buffer)
    by (vm_compute; reflexivity).
  split; [exact H1|]. split; [exact H2|]. split; [exact H3|].
  split; [exact H4|].
  exact (init_normalises_into_unit_range ex_bytes 1 [1; -128; 127; 0]
           ex_bytes_buffer H1 H2 H3 H4).
Defined.

(** Eight-bit samples come back multiplied by 256, labelled as eight-bit. *)
Lemma int_samples_come_back_as_16_bit_witness :
  init_data ex_bytes = IntArray 1 [1; -128; 127; 0]
  /\ 1 <= 1 <= 4
  /\ 0 < init_channels ex_bytes
  /\ Z.of_nat (length [1; -128; 127; 0]) mod init_channels ex_bytes = 0
  /\ Forall (fun z => - 2 ^ (8 * 1 - 1) <= z < 2 ^ (8 * 1 - 1))
       [1; -128; 127; 0]
  /\ exists σ',
       (a ← AudioBuffer_new ex_bytes; segment a) ∅
       = (Ok {| seg_sample_width := 1; seg_frame_rate := 8000;
                seg_channels := 2;
                seg_samples := [256; -32768; 32512; 0] |}, σ').
Proof.
  assert (H1 : init_data ex_bytes = IntArray 1 [1; -128; 127; 0])
    by reflexivity.
  assert (H2 : 1 <= 1 <= 4) by lia.
  assert (H3 : 0 < init_channels ex_bytes) by reflexivity.
  assert (H4 : Z.of_nat (length [1; -128; 127; 0]) mod init_channels ex_bytes
               = 0) by reflexivity.
  assert (H5 : Forall (fun z => - 2 ^ (8 * 1 - 1) <= z < 2 ^ (8 * 1 - 1))
                 [1; -128; 127; 0])
    by (repeat constructor; vm_compute; discriminate).
  split; [exact H1|]. split; [exact H2|]. split; [exact H3|].
  split; [exact H4|]. split; [exact H5|].
  exact (proj1 (int_samples_come_back_as_16_bit ex_bytes 1 [1; -128; 127; 0]
                  ∅ H1 H2 H3 H4 H5)).
Defined.

Lemma segment_flattens_frames_witness :
  ({[0%nat := ex_quiet]} : store) !! 0%nat = Some ex_quiet
  /\ wf_array (_data ex_quiet)
  /\ Forall (Forall unit_range) (rows (_data ex_quiet))
  /\ exists seg,
       segment 0%nat ({[0%nat := ex_quiet]} : store)
       = (Ok seg, ({[0%nat := ex_quiet]} : store))
       /\ length (seg_samples seg) = 4%nat.
Proof.
  assert (H1 : ({[0%nat := ex_quiet]} : store) !! 0%nat = Some ex_quiet)
    by reflexivity.
  assert (H2 : Forall (Forall unit_range) (rows (_data ex_quiet)))
    by (repeat constructor; vm_compute; discriminate).
  split; [exact H1|]. split; [exact (proj1 ex_quiet_wf)|]. split; [exact H2|].
  destruct (segment_flattens_frames 0%nat ex_quiet _ H1 (proj1 ex_quiet_wf) H2)
    as (seg & Hrun & _ & _ & _ & Hlen & _).
  exists seg. split; [exact Hrun|exact Hlen].
Defined.

Lemma buffer_round_trip_quantises_witness :
  ({[0%nat := ex_quiet]} : store) !! 0%nat = Some ex_quiet
  /\ wf_buffer ex_quiet
  /\ sample_width ex_quiet = 2
  /\ Forall (Forall unit_range) (rows (_data ex_quiet))
  /\ exists seg b',
       segment 0%nat ({[0%nat := ex_quiet]} : store)
       = (Ok seg, ({[0%nat := ex_quiet]} : store))
       /\ AudioBuffer_init (FromSegment seg) = Ok b'
       /\ same_format ex_quiet b'.
Proof.
  assert (H1 : ({[0%nat := ex_quiet]} : store) !! 0%nat = Some ex_quiet)
    by reflexivity.
  assert (H2 : sample_width ex_quiet = 2) by reflexivity.
  assert (H3 : Forall (Forall unit_range) (rows (_data ex_quiet)))
    by (repeat constructor; vm_compute; discriminate).
  split; [exact H1|]. split; [exact ex_quiet_wf|]. split; [exact H2|].
  split; [exact H3|].
  destruct (buffer_round_trip_quantises 0%nat ex_quiet _ H1 ex_quiet_wf H2 H3)
    as (seg & b' & Hseg & Hinit & Hfmt & _).
  exists seg, b'. split; [exact Hseg|]. split; [exact Hinit|exact Hfmt].
Defined.

Lemma to_frame_monotone_witness :
  0 <= frame_rate ex_target
  /\ (value (Int 1) <= value (Int 2))%Q
  /\ to_frame ex_target (PNum (Int 1)) <= to_frame ex_target (PNum (Int 2)).
Proof.
  assert (H1 : 0 <= frame_rate ex_target) by (vm_compute; discriminate).
  assert (H2 : (value (Int 1) <= value (Int 2))%Q)
    by (vm_compute; discriminate).
  split; [exact H1|]. split; [exact H2|].
  exact (to_frame_monotone ex_target (Int 1) (Int 2) H1 H2).
Defined.

(** A duration alone is not enough. *)
Lemma fade_needs_two_bounds_witness :
  py_not PNone = true
  /\ fade ex_pow10 0%nat (PNum (Int (-120))) (PNum (Int 0)) PNone PNone
       (PNum (Int 2)) ex_store
     = (Raise TypeError, ex_store).
Proof.
  assert (H1 : py_not PNone = true) by reflexivity.
  split; [exact H1|].
  destruct (fade_needs_two_bounds ex_pow10 0%nat (PNum (Int (-120)))
              (PNum (Int 0)) PNone PNone (PNum (Int 2)) ex_store)
    as (_ & Hraise & _).
  exact (Hraise (or_introl (conj H1 (or_introl eq_refl)))).
Defined.

Lemma fade_ignores_duration_witness :
  py_not (PNum (Int 1)) = false
  /\ py_not (PNum (Int 3)) = false
  /\ fade ex_pow10 0%nat (PNum (Int (-120))) (PNum (Int 0)) (PNum (Int 1))
       (PNum (Int 3)) PNone ex_store
     = fade ex_pow10 0%nat (PNum (Int (-120))) (PNum (Int 0)) (PNum (Int 1))
         (PNum (Int 3)) (PNum (Int 7)) ex_store.
Proof.
  assert (H1 : py_not (PNum (Int 1)) = false) by reflexivity.
  assert (H2 : py_not (PNum (Int 3)) = false) by reflexivity.
  split; [exact H1|]. split; [exact H2|].
  exact (fade_ignores_duration ex_pow10 0%nat (PNum (Int (-120)))
           (PNum (Int 0)) (PNum (Int 1)) (PNum (Int 3)) PNone (PNum (Int 7))
           ex_store H1 H2).
Defined.




(** [fade_out(2)] on three frames of one millisecond: the length is 3, the
    end 4 ms, the start 2 ms, and the ramp is the one point [10 ** 0] on the
    last frame. *)
Example fade_out_short_run :
  fade_out ex_pow10 0%nat (PNum (Int 2)) ex_store
  = (Ok 0%nat, <[0%nat := mono [1; 2; 3 * 1]%Q]> ex_store).
Proof. vm_compute. reflexivity. Qed.


Lemma fade_out_errors_witness :
  ({[0%nat := ex_stopped]} : store) !! 0%nat = Some ex_stopped
  /\ frame_rate ex_stopped = 0
  /\ fade_out ex_pow10 0%nat (PNum (Int 1)) ({[0%nat := ex_stopped]} : store)
     = (Raise ZeroDivisionError, ({[0%nat := ex_stopped]} : store)).
Proof.
  assert (H1 : ({[0%nat := ex_stopped]} : store) !! 0%nat = Some ex_stopped)
    by reflexivity.
  assert (H2 : frame_rate ex_stopped = 0) by reflexivity.
  split; [exact H1|]. split; [exact H2|].
  exact (proj1 (fade_out_errors ex_pow10 0%nat (PNum (Int 1)) ex_stopped _ H1)
           H2).
Defined.

(** A buffer played backwards, as a negative frame rate would have it, has
    no length. *)
Example fade_out_negative_rate_run :
  fade_out ex_pow10 0%nat (PNum (Int 1)) ({[0%nat := ex_reversed]} : store)
  = (Raise ValueError, ({[0%nat := ex_reversed]} : store)).
Proof. vm_compute. reflexivity. Qed.


Lemma overlay_without_gain_adds_witness :
  ex_store !! 0%nat = Some ex_target
  /\ source_state ex_set_channels ex_set_frame_rate ex_store ex_target
       (Buffer 1%nat) = Some ex_source
  /\ wf_buffer ex_target
  /\ wf_buffer ex_source
  /\ channels ex_source = channels ex_target
  /\ py_not (PNum (Int 0)) = true
  /\ 0 <= py_int (frame_count ex_target (PNum (Int 1)))
  /\ py_int (frame_count ex_target (PNum (Int 1)))
     < Z.min (py_int (frame_count ex_target (PNum (Int 1)))
              + Z.of_nat (length (rows (_data ex_source))))
         (Z.of_nat (length (rows (_data ex_target))))
  /\ exists b',
       overlay ex_pow10 ex_set_channels ex_set_frame_rate 0%nat
         (Buffer 1%nat) (PNum (Int 1)) (PNum (Int 0)) ex_store
       = (Ok 0%nat, <[0%nat := b']> ex_store)
       /\ cell (_data b') 2 0
          = (cell (_data ex_target) 2 0 + cell (_data ex_source) 1 0)%Q.
Proof.
  assert (H1 : ex_store !! 0%nat = Some ex_target) by reflexivity.
  assert (H2 : source_state ex_set_channels ex_set_frame_rate ex_store
                 ex_target (Buffer 1%nat) = Some ex_source) by reflexivity.
  assert (H3 : channels ex_source = channels ex_target) by reflexivity.
  assert (H4 : py_not (PNum (Int 0)) = true) by reflexivity.
  assert (H5 : 0 <= py_int (frame_count ex_target (PNum (Int 1))))
    by (vm_compute; discriminate).
  assert (H6 : py_int (frame_count ex_target (PNum (Int 1)))
               < Z.min (py_int (frame_count ex_target (PNum (Int 1)))
                        + Z.of_nat (length (rows (_data ex_source))))
                   (Z.of_nat (length (rows (_data ex_target)))))
    by reflexivity.
  split; [exact H1|]. split; [exact H2|]. split; [exact ex_target_wf|].
  split; [exact ex_source_wf|]. split; [exact H3|]. split; [exact H4|].
  split; [exact H5|]. split; [exact H6|].
  destruct (overlay_without_gain_adds ex_pow10 ex_set_channels
              ex_set_frame_rate 0%nat (Buffer 1%nat) (PNum (Int 1))
              (PNum (Int 0)) ex_target ex_source ex_store H1 H2 ex_target_wf
              ex_source_wf H3 H4 H5 H6)
    as (b' & Hrun & Hcell).
  exists b'. split; [exact Hrun|].
  apply (Hcell 2%nat 0%nat); [split; vm_compute; [discriminate|reflexivity]|].
  vm_compute. lia.
Defined.


(** A mono source laid over a stereo target. *)
Lemma overlay_mono_source_broadcasts_witness :
  ex_stereo_store !! 0%nat = Some ex_stereo
  /\ source_state ex_set_channels ex_set_frame_rate ex_stereo_store ex_stereo
       (Buffer 1%nat) = Some ex_source
  /\ wf_array (_data ex_stereo)
  /\ ncols (_data ex_source) = 1%nat
  /\ ncols (_data ex_stereo) <> 1%nat
  /\ scaling_raises PNone = false
  /\ 0 <= py_int (frame_count ex_stereo (PNum (Int 1)))
  /\ exists b',
       overlay ex_pow10 ex_set_channels ex_set_frame_rate 0%nat
         (Buffer 1%nat) (PNum (Int 1)) PNone ex_stereo_store
       = (Ok 0%nat, <[0%nat := b']> ex_stereo_store)
       /\ cell (_data b') 1 1
          = (cell (_data ex_stereo) 1 1 + cell (_data ex_source) 0 0)%Q.
Proof.
  assert (H1 : ex_stereo_store !! 0%nat = Some ex_stereo) by reflexivity.
  assert (H2 : source_state ex_set_channels ex_set_frame_rate ex_stereo_store
                 ex_stereo (Buffer 1%nat) = Some ex_source) by reflexivity.
  assert (H3 : ncols (_data ex_source) = 1%nat) by reflexivity.
  assert (H4 : ncols (_data ex_stereo) <> 1%nat)
    by (vm_compute; discriminate).
  assert (H5 : 0 <= py_int (frame_count ex_stereo (PNum (Int 1))))
    by (vm_compute; discriminate).
  assert (H6 : py_int (frame_count ex_stereo (PNum (Int 1)))
               < Z.min (py_int (frame_count ex_stereo (PNum (Int 1)))
                        + Z.of_nat (length (rows (_data ex_source))))
                   (Z.of_nat (length (rows (_data ex_stereo)))))
    by reflexivity.
  split; [exact H1|]. split; [exact H2|]. split; [exact (proj1 ex_stereo_wf)|].
  split; [exact H3|]. split; [exact H4|]. split; [reflexivity|].
  split; [exact H5|].
  destruct (overlay_mono_source_broadcasts ex_pow10 ex_set_channels
              ex_set_frame_rate 0%nat (Buffer 1%nat) (PNum (Int 1)) PNone
              ex_stereo ex_source ex_stereo_store H1 H2 (proj1 ex_stereo_wf)
              H3 H4 eq_refl H5 H6)
    as (b' & Hrun & Hcell).
  exists b'. split; [exact Hrun|].
  apply (Hcell 1%nat 1%nat); [split; vm_compute; [discriminate|reflexivity]|].
  vm_compute. lia.
Defined.

(** Three frames laid over five from four milliseconds before the start:
    they land on the frames 1, 2 and 3. *)
Lemma overlay_negative_position_counts_from_end_witness :
  ex_store !! 1%nat = Some ex_source
  /\ source_state ex_set_channels ex_set_frame_rate ex_store ex_source
       (Buffer 0%nat) = Some ex_target
  /\ wf_buffer ex_source
  /\ wf_buffer ex_target
  /\ channels ex_target = channels ex_source
  /\ py_not PNone = true
  /\ py_int (frame_count ex_source (PNum (Int (-4)))) = -4
  /\ exists b',
       overlay ex_pow10 ex_set_channels ex_set_frame_rate 1%nat
         (Buffer 0%nat) (PNum (Int (-4))) PNone ex_store
       = (Ok 1%nat, <[1%nat := b']> ex_store)
       /\ rows (_data b') !! 4%nat = rows (_data ex_source) !! 4%nat.
Proof.
  assert (H1 : ex_store !! 1%nat = Some ex_source) by reflexivity.
  assert (H2 : source_state ex_set_channels ex_set_frame_rate ex_store
                 ex_source (Buffer 0%nat) = Some ex_target) by reflexivity.
  assert (H3 : channels ex_target = channels ex_source) by reflexivity.
  assert (H4 : py_not PNone = true) by reflexivity.
  assert (H5 : - Z.of_nat (length (rows (_data ex_source)))
               <= py_int (frame_count ex_source (PNum (Int (-4)))))
    by (vm_compute; discriminate).
  assert (H6 : 0 < Z.of_nat (length (rows (_data ex_target))))
    by reflexivity.
  assert (H7 : py_int (frame_count ex_source (PNum (Int (-4))))
               + Z.of_nat (length (rows (_data ex_target))) < 0)
    by reflexivity.
  split; [exact H1|]. split; [exact H2|]. split; [exact ex_source_wf|].
  split; [exact ex_target_wf|]. split; [exact H3|]. split; [exact H4|].
  split; [reflexivity|].
  destruct (overlay_negative_position_counts_from_end ex_pow10
              ex_set_channels ex_set_frame_rate 1%nat (Buffer 0%nat)
              (PNum (Int (-4))) PNone ex_source ex_target ex_store H1 H2
              ex_source_wf ex_target_wf H3 H4 H5 H6 H7)
    as (b' & Hrun & _ & Hrest).
  exists b'. split; [exact Hrun|].
  apply (Hrest 4%nat). vm_compute. intros [_ H]. discriminate H.
Defined.

Lemma overlay_negative_position_crossing_raises_witness :
  ex_store !! 0%nat = Some ex_target
  /\ source_state ex_set_channels ex_set_frame_rate ex_store ex_target
       (Buffer 1%nat) = Some ex_source
  /\ scaling_raises PNone = false
  /\ py_int (frame_count ex_target (PNum (Int (-1)))) = -1
  /\ overlay ex_pow10 ex_set_channels ex_set_frame_rate 0%nat (Buffer 1%nat)
       (PNum (Int (-1))) PNone ex_store
     = (Raise ValueError, <[0%nat := ex_target]> ex_store).
Proof.
  assert (H1 : ex_store !! 0%nat = Some ex_target) by reflexivity.
  assert (H2 : source_state ex_set_channels ex_set_frame_rate ex_store
                 ex_target (Buffer 1%nat) = Some ex_source) by reflexivity.
  assert (H3 : py_int (frame_count ex_target (PNum (Int (-1)))) < 0)
    by reflexivity.
  assert (H4 : 0 <= py_int (frame_count ex_target (PNum (Int (-1))))
                    + Z.of_nat (length (rows (_data ex_source))))
    by (vm_compute; discriminate).
  assert (H5 : 2 <= Z.of_nat (length (rows (_data ex_source))))
    by (vm_compute; discriminate).
  assert (H6 : 0 < Z.of_nat (length (rows (_data ex_target))))
    by reflexivity.
  split; [exact H1|]. split; [exact H2|]. split; [reflexivity|].
  split; [reflexivity|].
  exact (overlay_negative_position_crossing_raises ex_pow10 ex_set_channels
           ex_set_frame_rate 0%nat (Buffer 1%nat) (PNum (Int (-1))) PNone
           ex_target ex_source ex_store H1 H2 eq_refl H3 H4 H5 H6).
Defined.

(** One second at 44100 frames per second. *)
Lemma len_of_whole_seconds_witness :
  ({[0%nat := ex_second]} : store) !! 0%nat = Some ex_second
  /\ frame_rate ex_second <> 0
  /\ Z.of_nat (length (rows (_data ex_second))) = 1 * frame_rate ex_second
  /\ Z.abs (1000 * 1) < 2 ^ 53
  /\ __len__ 0%nat ({[0%nat := ex_second]} : store)
     = (Ok (1000 * 1), ({[0%nat := ex_second]} : store)).
Proof.
  assert (H1 : ({[0%nat := ex_second]} : store) !! 0%nat = Some ex_second)
    by reflexivity.
  assert (H2 : frame_rate ex_second <> 0) by (vm_compute; discriminate).
  assert (H3 : Z.of_nat (length (rows (_data ex_second)))
               = 1 * frame_rate ex_second) by (vm_compute; reflexivity).
  assert (H4 : Z.abs (1000 * 1) < 2 ^ 53) by reflexivity.
  split; [exact H1|]. split; [exact H2|]. split; [exact H3|].
  split; [exact H4|].
  exact (len_of_whole_seconds 0%nat ex_second 1 _ H1 H2 H3 H4).
Defined.

Lemma methods_preserve_invariant_witness :
  wf_buffers ex_store
  /\ wf_buffers
       (overlay ex_pow10 ex_set_channels ex_set_frame_rate 0%nat
          (Buffer 1%nat) (PNum (Int (-1))) (PNum (Int (-20))) ex_store).2
  /\ wf_buffers (AudioBuffer_new ex_bytes ex_store).2.
Proof.
  split; [exact ex_store_wf|].
  destruct (methods_preserve_invariant ex_pow10 ex_set_channels
              ex_set_frame_rate ex_store ex_store_wf)
    as (Hnew & _ & _ & _ & Hov & _).
  split; [apply Hov|apply Hnew].
Defined.
